(** * The Wheel: round engine and puzzle layout of [wheel_trainer.py]

    A shallow embedding of the game logic of [WheelGame] (the methods
    [new_puzzle], [spin_wheel], [update_wheel], [buy_vowel], [guess_letter],
    [solve_puzzle] and the row-building loop of [draw_puzzle]) together with
    the properties of its specification.  Beyond these it embeds what the
    other methods compute before they touch the screen: the boxes of
    [draw_puzzle], the rows of [draw_puzzle_old], the lines of
    [draw_options], the places of [draw_guessed_letters], and the event
    handling of [run].

    Modelling conventions.
    - A Python character is an [ascii]; [str.isalpha] and [str.upper] are
      modelled on the code points below 128, where the letters are [A-Z]
      and [a-z]: the phrases and the keys of the game are taken from there,
      and a property of a typed character that depends on it says so
      ([isascii]).  A guessed letter is one character, as the key handler
      of [run] passes it.
    - Python [int] is [Z].  The wheel angle and speed are Python floats,
      binary64 numbers.  A float is modelled by the rational number it
      denotes, and an operation on floats by the exact operation followed
      by [fl], the rounding to the nearest binary64 number with ties to
      the even significand.  Infinities and NaN are left out: in every
      state a game reaches the speed is at most 25 and the angle at most
      2^59 ([reachable_wheel_finite]).  The half-cell counter of the layout
      only takes multiples of [0.5], which floats represent exactly.
    - The random module is modelled by passing the drawn numbers as
      arguments: a natural number for each [random.choice], the 53 random
      bits of [random.random] for [random.uniform].
    - A Python exception ([IndexError]) is [None].
    - A pygame event is its kind, its key and the character it types; the
      events of a frame come with the random draws their handlers may use.
      Fonts, colours and the wheel picture of [draw_wheel] are left out.
    - Two ghost fields record effects the Python object does not store:
      [waited_ms], the time spent in [pygame.time.wait], and
      [puzzles_started], the number of calls of [new_puzzle]. *)

From Stdlib Require Import ZArith QArith Qround Qabs Qreduction Qpower Lqa
  String Ascii List Lia DecimalString.
From stdpp Require Import base decidable option list sorting gmap strings.

Local Open Scope string_scope.
Local Open Scope Z_scope.

(** ** Characters and strings *)

Definition chars (s : string) : list ascii := list_ascii_of_string s.

(** [c.isascii()]: the code point is below 128. *)
Definition isascii (c : ascii) : bool := (nat_of_ascii c <? 128)%nat.

(** [c.isalpha()] for a character below 128. *)
Definition isalpha (c : ascii) : bool :=
  let n := nat_of_ascii c in
  ((65 <=? n)%nat && (n <=? 90)%nat) || ((97 <=? n)%nat && (n <=? 122)%nat).

(** [c.upper()] for a character below 128. *)
Definition upper (c : ascii) : ascii :=
  let n := nat_of_ascii c in
  if ((97 <=? n)%nat && (n <=? 122)%nat) then ascii_of_nat (n - 32) else c.

(** [s.upper()] *)
Definition upper_str (s : string) : string :=
  string_of_list_ascii (map upper (chars s)).

(** [letter in s] for a one-character [letter]. *)
Definition str_in (c : ascii) (s : string) : bool :=
  bool_decide (c ∈ chars s).

(** [s.count(letter)] for a one-character [letter]. *)
Definition str_count (c : ascii) (s : string) : Z :=
  Z.of_nat (length (filter (λ x, x = c) (chars s))).

(** [str(n)] for an integer, as an f-string prints it. *)
Definition str_of_int (n : Z) : string := NilZero.string_of_int (Z.to_int n).

Definition str_of_char (c : ascii) : string := String c EmptyString.

(** ** Constants *)

Definition WHEEL_VALUES : list Z :=
  [500; 550; 600; 650; 700; 750; 800; 850; 900; 300; 400; 450].

Definition VOWELS : gset ascii :=
  list_to_set (chars "AEIOU").

Definition VOWEL_COST : Z := 250.

(** The marker of a hidden cell in [revealed]. *)
Definition HIDDEN : ascii := "_"%char.

(** ** The game object *)

Record WheelGame := mkGame {
  puzzles : list (string * list string);
  current_puzzle : string;
  current_category : string;
  revealed : list ascii;
  guessed_letters : gset ascii;
  wheel_angle : Q;
  wheel_spinning : bool;
  wheel_speed : Q;
  current_value : Z;
  score : Z;
  can_guess : bool;
  message : string;
  waited_ms : Z;
  puzzles_started : nat
}.

(** The turn phase of the specification is the flag [can_guess]. *)
Inductive TurnPhase := AWAITING_SPIN | AWAITING_GUESS.

Definition turn_phase (g : WheelGame) : TurnPhase :=
  if can_guess g then AWAITING_GUESS else AWAITING_SPIN.

(** Field assignments [self.f = v]. *)
Definition set_message (m : string) (g : WheelGame) : WheelGame :=
  mkGame (puzzles g) (current_puzzle g) (current_category g) (revealed g)
    (guessed_letters g) (wheel_angle g) (wheel_spinning g) (wheel_speed g)
    (current_value g) (score g) (can_guess g) m (waited_ms g)
    (puzzles_started g).

Definition set_score (s : Z) (g : WheelGame) : WheelGame :=
  mkGame (puzzles g) (current_puzzle g) (current_category g) (revealed g)
    (guessed_letters g) (wheel_angle g) (wheel_spinning g) (wheel_speed g)
    (current_value g) s (can_guess g) (message g) (waited_ms g)
    (puzzles_started g).

Definition set_current_value (v : Z) (g : WheelGame) : WheelGame :=
  mkGame (puzzles g) (current_puzzle g) (current_category g) (revealed g)
    (guessed_letters g) (wheel_angle g) (wheel_spinning g) (wheel_speed g)
    v (score g) (can_guess g) (message g) (waited_ms g) (puzzles_started g).

Definition set_can_guess (b : bool) (g : WheelGame) : WheelGame :=
  mkGame (puzzles g) (current_puzzle g) (current_category g) (revealed g)
    (guessed_letters g) (wheel_angle g) (wheel_spinning g) (wheel_speed g)
    (current_value g) (score g) b (message g) (waited_ms g)
    (puzzles_started g).

Definition set_guessed_letters (s : gset ascii) (g : WheelGame) : WheelGame :=
  mkGame (puzzles g) (current_puzzle g) (current_category g) (revealed g)
    s (wheel_angle g) (wheel_spinning g) (wheel_speed g)
    (current_value g) (score g) (can_guess g) (message g) (waited_ms g)
    (puzzles_started g).

Definition set_revealed (r : list ascii) (g : WheelGame) : WheelGame :=
  mkGame (puzzles g) (current_puzzle g) (current_category g) r
    (guessed_letters g) (wheel_angle g) (wheel_spinning g) (wheel_speed g)
    (current_value g) (score g) (can_guess g) (message g) (waited_ms g)
    (puzzles_started g).

Definition set_wheel (angle : Q) (spinning : bool) (speed : Q)
    (g : WheelGame) : WheelGame :=
  mkGame (puzzles g) (current_puzzle g) (current_category g) (revealed g)
    (guessed_letters g) angle spinning speed
    (current_value g) (score g) (can_guess g) (message g) (waited_ms g)
    (puzzles_started g).

(** [pygame.time.wait(ms)]: the call blocks for [ms] milliseconds. *)
Definition pygame_time_wait (ms : Z) (g : WheelGame) : WheelGame :=
  mkGame (puzzles g) (current_puzzle g) (current_category g) (revealed g)
    (guessed_letters g) (wheel_angle g) (wheel_spinning g) (wheel_speed g)
    (current_value g) (score g) (can_guess g) (message g) (waited_ms g + ms)
    (puzzles_started g).

(** ** Puzzles *)

(** The built-in collection of [load_puzzles]. *)
Definition default_puzzles : list (string * list string) :=
  [ ("Famous Phrases",
      [ "THE EARLY BIRD GETS THE WORM";
        "A PENNY SAVED IS A PENNY EARNED";
        "ACTIONS SPEAK LOUDER THAN WORDS";
        "BETTER LATE THAN NEVER" ]);
    ("Movies",
      [ "THE WIZARD OF OZ"; "GONE WITH THE WIND"; "STAR WARS";
        "BACK TO THE FUTURE" ]);
    ("Places",
      [ "NEW YORK CITY"; "GRAND CANYON"; "EIFFEL TOWER";
        "GOLDEN GATE BRIDGE" ]) ].

(** [random.choice(seq)] with the random draw [r]; an empty sequence raises
    [IndexError]. *)
Definition random_choice {A} (r : nat) (seq : list A) : option A :=
  match seq with
  | [] => None
  | _ => seq !! (r mod length seq)%nat
  end.

(** [d[key]] on the dictionary of puzzles. *)
Fixpoint dict_get (key : string) (d : list (string * list string))
    : option (list string) :=
  match d with
  | [] => None
  | (k, v) :: d' => if String.eqb k key then Some v else dict_get key d'
  end.

(** [['_' if c.isalpha() else c for c in phrase]] *)
Definition hide (phrase : string) : list ascii :=
  map (λ c, if isalpha c then HIDDEN else c) (chars phrase).

(** [new_puzzle]: the two draws are those of the two [random.choice] calls. *)
Definition new_puzzle (rnd : nat * nat) (g : WheelGame) : option WheelGame :=
  category ← random_choice rnd.1 (map fst (puzzles g));
  phrases ← dict_get category (puzzles g);
  phrase ← random_choice rnd.2 phrases;
  let phrase := upper_str phrase in
  Some (mkGame (puzzles g) phrase category (hide phrase) ∅
          (wheel_angle g) (wheel_spinning g) (wheel_speed g)
          0 (score g) false "" (waited_ms g) (S (puzzles_started g))).

(** [__init__], with the collection returned by [load_puzzles]. *)
Definition init (pz : list (string * list string)) (rnd : nat * nat)
    : option WheelGame :=
  new_puzzle rnd
    (mkGame pz "" "" [] ∅ 0%Q false 0%Q 0 0 false "" 0 0%nat).

(** ** Floats *)

(** A Python float is a binary64 number: a sign, a significand of 53 bits
    and an exponent.  It is modelled by the rational number it denotes; an
    operation on floats is the exact operation followed by [fl]. *)

(** Rounding to the nearest integer, a tie to the even one. *)
Definition rne (x : Q) : Z :=
  let f := Qfloor x in
  match (x - inject_Z f ?= 1 # 2)%Q with
  | Lt => f
  | Eq => if Z.even f then f else f + 1
  | Gt => f + 1
  end.

(** The integer part of the binary logarithm of a positive number. *)
Definition ilog2 (x : Q) : Z :=
  let k := Z.log2 (Qnum x) - Z.log2 (Z.pos (Qden x)) in
  if Qle_bool (2 ^ k) x then k else k - 1.

(** The binary64 numbers around [x] are the multiples of
    [2 ^ ulp_exponent x]: a significand of 53 bits, and the spacing
    [2^-1074] for the smallest numbers. *)
Definition ulp_exponent (x : Q) : Z := Z.max (-1074) (ilog2 (Qabs x) - 52).

Definition ulp (x : Q) : Q := (2 ^ ulp_exponent x)%Q.

(** The binary64 number nearest to [x], a tie to the even significand,
    for [x] within the range of the finite floats. *)
Definition fl (x : Q) : Q := Qred (inject_Z (rne (x / ulp x)) * ulp x).

Arguments fl : simpl never.
Arguments ulp : simpl never.

(** The float literals [0.98] of line 116 and [0.1] of line 118. *)
Definition DECELERATION : Q := Eval vm_compute in fl (98 # 100).

Definition STOP_SPEED : Q := Eval vm_compute in fl (1 # 10).

(** ** The wheel *)

(** [random.random()]: [k / 2^53] for the 53 random bits [k] of the
    generator, here the low 53 bits of the draw [u]. *)
Definition random_random (u : N) : Q :=
  (inject_Z (Z.of_N u mod 2 ^ 53) / inject_Z (2 ^ 53))%Q.

(** [random.uniform(a, b)] is [a + (b - a) * random()]. *)
Definition random_uniform (a b : Z) (u : N) : Q :=
  fl (inject_Z a + fl (inject_Z (b - a) * random_random u)).

Definition spin_wheel (u : N) (g : WheelGame) : WheelGame :=
  if negb (wheel_spinning g) && negb (can_guess g) then
    set_message "Spinning..."
      (set_wheel (wheel_angle g) true (random_uniform 15 25 u) g)
  else g.

(** [int(x)]: truncation towards zero. *)
Definition py_int (x : Q) : Z := Z.quot (Qnum x) (Z.pos (Qden x)).

(** [seq[i]] on a list: a negative index counts from the end, an index out
    of range raises [IndexError]. *)
Definition py_index {A} (seq : list A) (i : Z) : option A :=
  let n := Z.of_nat (length seq) in
  if (0 <=? i) && (i <? n) then seq !! Z.to_nat i
  else if (- n <=? i) && (i <? 0) then seq !! Z.to_nat (n + i)
  else None.

Definition Qltb (x y : Q) : bool := negb (Qle_bool y x).

(** The C function [fmod]: [x - n * y] for the quotient [n] truncated
    towards zero; the result is a binary64 number, no rounding occurs. *)
Definition fmod (x y : Q) : Q := (x - y * inject_Z (py_int (x / y)))%Q.

(** [x % m] on floats, for a modulus that is not zero: the remainder of
    [fmod], moved by [m] when its sign is not that of [m]. *)
Definition py_mod (x m : Q) : Q :=
  let r := fmod x m in
  if Qeq_bool r 0 then 0%Q
  else if xorb (Qltb m 0) (Qltb r 0) then fl (r + m) else r.

(** The segment the wheel landed on, lines 121-122. *)
Definition landing_segment (angle : Q) : Z :=
  let normalized_angle := py_mod angle 360 in
  py_int (fl (fl (normalized_angle / 360)
              * inject_Z (Z.of_nat (length WHEEL_VALUES)))).

Definition update_wheel (g : WheelGame) : option WheelGame :=
  if wheel_spinning g then
    let angle := fl (wheel_angle g + wheel_speed g) in
    let speed := fl (wheel_speed g * DECELERATION) in
    if Qltb speed STOP_SPEED then
      value ← py_index WHEEL_VALUES (landing_segment angle);
      Some (set_message ("Landed on $" ++ str_of_int value ++ "!")
              (set_can_guess true
                 (set_current_value value (set_wheel angle false speed g))))
    else Some (set_wheel angle true speed g)
  else Some g.

(** ** Guessing *)

(** [buy_vowel]: the returned flag and the state. *)
Definition buy_vowel (g : WheelGame) : bool * WheelGame :=
  if score g <? VOWEL_COST then
    (false, set_message ("Need $" ++ str_of_int VOWEL_COST ++ "!") g)
  else
    let available_vowels :=
      filter (λ v, str_in v (current_puzzle g) = true ∧ v ∉ guessed_letters g)
             (elements VOWELS) in
    match available_vowels with
    | [] => (false, set_message "No vowels left!" g)
    | _ => (true, set_message "Type a vowel (A, E, I, O, U)" g)
    end.

(** The loop of lines 491-493: [revealed[i] = letter] at every index [i] of
    the phrase that holds [letter]; the assignment raises [IndexError] past
    the end of [revealed]. *)
Fixpoint reveal_from (i : nat) (phrase : list ascii) (letter : ascii)
    (rv : list ascii) : option (list ascii) :=
  match phrase with
  | [] => Some rv
  | c :: phrase' =>
      if decide (c = letter) then
        if (i <? length rv)%nat
        then reveal_from (S i) phrase' letter (<[i := letter]> rv)
        else None
      else reveal_from (S i) phrase' letter rv
  end.

Definition reveal (phrase : string) (letter : ascii) (rv : list ascii)
    : option (list ascii) :=
  reveal_from 0 (chars phrase) letter rv.

(** ['_' not in self.revealed] *)
Definition solved (rv : list ascii) : bool := bool_decide (HIDDEN ∉ rv).

(** The outcome of the checks that precede the guess. *)
Inductive verdict :=
| Rejected (g : WheelGame)
| Accepted (g : WheelGame).

(** Lines 460-473, the vowel and consonant rules: a rejection only sets the
    message, the acceptance of a vowel takes its cost. *)
Definition check_rules (letter : ascii) (is_vowel_purchase : bool)
    (g : WheelGame) : verdict :=
  if decide (letter ∈ VOWELS) then
    if negb is_vowel_purchase then
      Rejected (set_message "Buy vowels with V key!" g)
    else if score g <? VOWEL_COST then
      Rejected (set_message ("Need $" ++ str_of_int VOWEL_COST ++ "!") g)
    else Accepted (set_score (score g - VOWEL_COST) g)
  else
    if negb (can_guess g) then
      Rejected (set_message "Spin the wheel first!" g)
    else Accepted g.

(** Lines 481-488: the award of a letter found [count] times. *)
Definition award (letter : ascii) (count : Z) (g : WheelGame) : WheelGame :=
  if decide (letter ∉ VOWELS) then
    set_can_guess false
      (set_current_value 0
         (set_message ("Yes! +$" ++ str_of_int (current_value g * count))
            (set_score (score g + current_value g * count) g)))
  else set_message ("Yes! Found " ++ str_of_int count) g.

(** Lines 475-504: the accepted letter is recorded and looked up. *)
Definition resolve_guess (rnd : nat * nat) (letter : ascii) (g : WheelGame)
    : option WheelGame :=
  let g := set_guessed_letters ({[letter]} ∪ guessed_letters g) g in
  if str_in letter (current_puzzle g) then
    let count := str_count letter (current_puzzle g) in
    let g := award letter count g in
    rv ← reveal (current_puzzle g) letter (revealed g);
    let g := set_revealed rv g in
    if solved (revealed g) then
      new_puzzle rnd
        (pygame_time_wait 3000
           (set_message "SOLVED! +$1000 bonus!" (set_score (score g + 1000) g)))
    else Some g
  else
    Some (set_can_guess false
            (set_current_value 0
               (set_message ("Sorry, no " ++ str_of_char letter) g))).

(** [guess_letter]; [rnd] holds the draws of the [new_puzzle] it may call. *)
Definition guess_letter (rnd : nat * nat) (letter : ascii)
    (is_vowel_purchase : bool) (g : WheelGame) : option WheelGame :=
  let letter := upper letter in
  if decide (letter ∈ guessed_letters g) then
    Some (set_message "Already guessed!" g)
  else if negb (isalpha letter) then Some g
  else
    match check_rules letter is_vowel_purchase g with
    | Rejected g' => Some g'
    | Accepted g' => resolve_guess rnd letter g'
    end.

Definition solve_puzzle (g : WheelGame) : WheelGame :=
  set_message "Feature coming soon!" g.

(** ** The puzzle layout *)

Definition SPACE : ascii := " "%char.

(** [s.split(' ')] *)
Fixpoint split_space (s : list ascii) : list (list ascii) :=
  match s with
  | [] => [[]]
  | c :: s' =>
      if decide (c = SPACE) then [] :: split_space s'
      else match split_space s' with
           | w :: ws => (c :: w) :: ws
           | [] => [[c]]
           end
  end.

(** The variables of the loop of [draw_puzzle], lines 190-193. *)
Record layout_state := mkLayout {
  rows : list (list nat);
  current_row : list nat;
  current_count : Q;
  char_index : nat
}.

(** Lines 212-215: one cell of the row. *)
Definition add_cell (width : Q) (st : layout_state) : layout_state :=
  mkLayout (rows st) (current_row st ++ [char_index st])
    (current_count st + width)%Q (S (char_index st)).

(** The cells laid out so far, in row order. *)
Definition cells (st : layout_state) : list nat :=
  (concat (rows st) ++ current_row st)%list.

(** Lines 196-215: the body of the loop over the words. *)
Definition place_word (max_per_row : Q) (st : layout_state)
    (word : list ascii) : layout_state :=
  let word_length := inject_Z (Z.of_nat (length word)) in
  let space_needed :=
    (word_length + (if Qltb 0 (current_count st) then 1 # 2 else 0))%Q in
  let st :=
    if Qltb 0 (current_count st)
       && Qltb max_per_row (current_count st + space_needed)%Q
    then mkLayout (rows st ++ [current_row st]) [] 0%Q (char_index st)
    else st in
  let st := if Qltb 0 (current_count st) then add_cell (1 # 2) st else st in
  fold_left (λ st _, add_cell 1 st) word st.

(** Lines 189-218: the rows of cell indices of a phrase. *)
Definition layout_rows (max_per_row : Q) (phrase : string) : list (list nat) :=
  let st := fold_left (place_word max_per_row) (split_space (chars phrase))
              (mkLayout [] [] 0%Q 0%nat) in
  match current_row st with
  | [] => rows st
  | _ => rows st ++ [current_row st]
  end.

(** The rows [draw_puzzle] draws: [max_per_row = 13]. *)
Definition draw_puzzle_rows (g : WheelGame) : list (list nat) :=
  layout_rows 13 (current_puzzle g).

(** The letters of a phrase, in order. *)
Definition letters_of (phrase : string) : list ascii :=
  filter (λ c, c ≠ SPACE) (chars phrase).

(** The characters the rows show: those of the phrase at the cell indices,
    in row order, without the spaces. *)
Definition letters_shown (phrase : string) (rws : list (list nat))
    : list ascii :=
  filter (λ c, c ≠ SPACE) (omap (λ i, chars phrase !! i) (concat rws)).

(** The row that holds a position of the phrase. *)
Definition row_of (rws : list (list nat)) (i : nat) : option nat :=
  fst <$> list_find (λ row, i ∈ row) rws.

(** Two neighbouring letters of one word in different rows. *)
Definition word_split_at (phrase : string) (rws : list (list nat)) (i : nat)
    : Prop :=
  ∃ c d, chars phrase !! i = Some c ∧ chars phrase !! S i = Some d ∧
         c ≠ SPACE ∧ d ≠ SPACE ∧ row_of rws i ≠ row_of rws (S i).

Definition splits_a_word (phrase : string) (rws : list (list nat)) : Prop :=
  ∃ i, word_split_at phrase rws i.

(** ** The states of a guess *)

(** The state of a hit, once the letter is recorded, paid and revealed. *)
Definition after_hit (letter : ascii) (rv : list ascii) (g : WheelGame)
    : WheelGame :=
  set_revealed rv
    (award letter (str_count letter (current_puzzle g))
       (set_guessed_letters ({[letter]} ∪ guessed_letters g) g)).

(** The state [new_puzzle] is called on when the board is complete. *)
Definition after_solve (g : WheelGame) : WheelGame :=
  pygame_time_wait 3000
    (set_message "SOLVED! +$1000 bonus!" (set_score (score g + 1000) g)).

(** The state of a miss. *)
Definition after_miss (letter : ascii) (g : WheelGame) : WheelGame :=
  set_can_guess false
    (set_current_value 0
       (set_message ("Sorry, no " ++ str_of_char letter)
          (set_guessed_letters ({[letter]} ∪ guessed_letters g) g))).

(** The guess reveals the last hidden cell: the letter occurs in the phrase
    and no hidden cell is left once it is revealed. *)
Definition completes_puzzle (letter : ascii) (g : WheelGame) : bool :=
  str_in letter (current_puzzle g) &&
  match reveal (current_puzzle g) letter (revealed g) with
  | Some rv => solved rv
  | None => false
  end.

(** The solve bonus a guess earns. *)
Definition solve_bonus (letter : ascii) (g : WheelGame) : Z :=
  if completes_puzzle letter g then 1000 else 0.

(** ** Well-formed states *)

(** The contract of the loader: a category exists and none is empty. *)
Definition puzzles_ok (pz : list (string * list string)) : Prop :=
  pz ≠ [] ∧ Forall (λ e, e.2 ≠ []) pz.

(** One cell of [revealed] per character of the phrase. *)
Definition board_ok (g : WheelGame) : Prop :=
  length (revealed g) = length (chars (current_puzzle g)).

(** The invariant of the engine. *)
Definition Inv (g : WheelGame) : Prop :=
  puzzles_ok (puzzles g) ∧ board_ok g ∧ 0 <= score g ∧ 0 <= current_value g.

(** ** Runs of the engine *)

Inductive Op :=
| OpNewPuzzle (rnd : nat * nat)
| OpSpin (u : N)
| OpAdvance
| OpBuyVowel
| OpGuess (rnd : nat * nat) (letter : ascii) (is_vowel_purchase : bool)
| OpSolve.

Definition step (op : Op) (g : WheelGame) : option WheelGame :=
  match op with
  | OpNewPuzzle rnd => new_puzzle rnd g
  | OpSpin u => Some (spin_wheel u g)
  | OpAdvance => update_wheel g
  | OpBuyVowel => Some (buy_vowel g).2
  | OpGuess rnd letter p => guess_letter rnd letter p g
  | OpSolve => Some (solve_puzzle g)
  end.

Fixpoint run (ops : list Op) (g : WheelGame) : option WheelGame :=
  match ops with
  | [] => Some g
  | op :: ops' => g' ← step op g; run ops' g'
  end.

(** The scenario of the specification on the phrase CAT: the wheel has
    landed on [value], Score is [sc], the board shows [rv] and the letters
    [gl] are guessed. *)
Definition cat_puzzles : list (string * list string) :=
  [("Animals", ["CAT"; "DOG"])].

Definition cat_spun (value : Z) (sc : Z) (rv : string) (gl : string) : WheelGame :=
  mkGame cat_puzzles "CAT" "Animals" (chars rv) (list_to_set (chars gl))
    0%Q false 0%Q value sc true "" 0 1%nat.

(** C and A are revealed, the wheel has landed on 600 and Score is 250. *)
Definition cat_last_letter : WheelGame := cat_spun 600 250 "CA_" "CA".

(** The built-in collection, first puzzle started, wheel spun. *)
Definition spinning_game : option WheelGame :=
  spin_wheel (2 ^ 52) <$> init default_puzzles (1, 2)%nat.

(** The wheel of a CAT round at angle 725, slowed down to speed 0.1. *)
Definition wheel_about_to_stop : WheelGame :=
  mkGame cat_puzzles "CAT" "Animals" (chars "___") ∅
    (725 # 1) true STOP_SPEED 0 0 false "Spinning..." 0 1%nat.

(** The CAT round after the wheel landed on 500, before and after the
    guess of C. *)
Definition cat_before_C : WheelGame := cat_spun 500 0 "___" "".

Definition cat_after_C : WheelGame :=
  mkGame cat_puzzles "CAT" "Animals" (chars "C__") (list_to_set (chars "C"))
    0%Q false 0%Q 0 500 false "Yes! +$500" 0 1%nat.

(** A phrase of the built-in collection that needs three rows. *)
Definition penny_phrase : string := "A PENNY SAVED IS A PENNY EARNED".

(** A run on the built-in collection: spin, let the wheel turn for three
    ticks, try to buy a vowel, guess, start a new puzzle. *)
Definition sample_run : list Op :=
  [ OpSpin (2 ^ 52); OpAdvance; OpAdvance; OpAdvance; OpBuyVowel;
    OpGuess (0, 0)%nat "s" false; OpGuess (0, 0)%nat "a" true;
    OpNewPuzzle (2, 3)%nat; OpSolve ].

(** ** A spin from start to stop *)

(** [n] frames of the main loop without input: [update_wheel] each time. *)
Fixpoint ticks (n : nat) (g : WheelGame) : option WheelGame :=
  match n with
  | O => Some g
  | S n' => g' ← update_wheel g; ticks n' g'
  end.

(** The speed after [k] decelerations, line 116. *)
Definition speed_after (k : nat) (s : Q) : Q :=
  Nat.iter k (λ x, fl (x * DECELERATION)) s.

(** The angle and the speed after [k] frames of the slowest spin, the one
    that starts with speed 15, from angle 0. *)
Fixpoint slowest_spin (k : nat) : Q * Q :=
  match k with
  | O => (0%Q, 15%Q)
  | S k' =>
      let p := slowest_spin k' in
      (fl (p.1 + p.2), fl (p.2 * DECELERATION))
  end.

(** The speeds [s], [s * 0.98], ... of [n] frames are all at least 0.1. *)
Fixpoint keeps_turning (n : nat) (s : Q) : bool :=
  match n with
  | O => true
  | S n' => Qle_bool STOP_SPEED s && keeps_turning n' (fl (s * DECELERATION))
  end.

(** The wheel of a game: angle and speed are not negative and stay in the
    range of the floats, and a turning wheel is at least as fast and as
    far as the slowest spin after some number [k] of frames; the slowest
    spin has passed the angle 256 after 21 frames. *)
Definition wheel_ok (g : WheelGame) : Prop :=
  (0 <= wheel_angle g)%Q ∧ (wheel_angle g <= inject_Z (2 ^ 59))%Q ∧
  (0 <= wheel_speed g)%Q ∧ (wheel_speed g <= 25)%Q ∧
  (wheel_spinning g = true →
   ∃ k : nat,
     (speed_after k 15 <= wheel_speed g)%Q ∧
     ((k ≤ 21)%nat → ((slowest_spin k).1 <= wheel_angle g)%Q) ∧
     ((21 ≤ k)%nat → (256 <= wheel_angle g)%Q)).

(** The fields a turning wheel leaves alone. *)
Definition same_round (g g' : WheelGame) : Prop :=
  puzzles g' = puzzles g ∧ current_puzzle g' = current_puzzle g ∧
  current_category g' = current_category g ∧ revealed g' = revealed g ∧
  guessed_letters g' = guessed_letters g ∧ score g' = score g ∧
  waited_ms g' = waited_ms g ∧ puzzles_started g' = puzzles_started g.

(** The wheel is as it was. *)
Definition same_wheel (g g' : WheelGame) : Prop :=
  wheel_angle g' = wheel_angle g ∧ wheel_speed g' = wheel_speed g ∧
  wheel_spinning g' = wheel_spinning g.

(** A CAT round that waits for a spin. *)
Definition cat_idle : WheelGame :=
  mkGame cat_puzzles "CAT" "Animals" (chars "___") ∅
    0%Q false 0%Q 0 0 false "" 0 1%nat.

(** ** The options panel *)

(** The lines of [draw_options]; the text of each is fixed. *)
Inductive OptionLine :=
| OPT_SPIN          (* Press SPACE to SPIN the wheel *)
| OPT_BUY_VOWEL     (* Press V to BUY A VOWEL ($250) *)
| OPT_CONSONANT     (* Type a CONSONANT to guess *)
| OPT_SOLVE         (* Press ENTER to SOLVE the puzzle *)
| OPT_NEW_PUZZLE.   (* Press ESC for new puzzle *)

(** [any(v in self.current_puzzle and v not in self.guessed_letters
         for v in VOWELS)], lines 393 and 530. *)
Definition has_vowels (g : WheelGame) : bool :=
  existsb (λ v, str_in v (current_puzzle g)
                && bool_decide (v ∉ guessed_letters g))
          (elements VOWELS).

(** One conditional line of the panel: drawn at [y], which then moves on. *)
Definition option_line (shown : bool) (line : OptionLine)
    (acc : list (Z * OptionLine) * Z) : list (Z * OptionLine) * Z :=
  if shown then ((acc.1 ++ [(acc.2, line)])%list, acc.2 + 50) else acc.

(** [draw_options]: the lines drawn below the title, each with its [y]. *)
Definition draw_options (g : WheelGame) : list (Z * OptionLine) :=
  let box_y := 440 in
  let acc := ([], box_y + 60) in
  let acc := option_line (negb (can_guess g) && negb (wheel_spinning g))
               OPT_SPIN acc in
  let acc := option_line ((VOWEL_COST <=? score g) && has_vowels g)
               OPT_BUY_VOWEL acc in
  let acc := option_line (can_guess g) OPT_CONSONANT acc in
  let acc := option_line (negb (can_guess g) && negb (wheel_spinning g))
               OPT_SOLVE acc in
  (acc.1 ++ [(acc.2 + 20, OPT_NEW_PUZZLE)])%list.

(** ** Invariants of a game *)

(** What a cell shows of a character, given the guessed letters. *)
Definition cell_of (guessed : gset ascii) (c : ascii) : ascii :=
  if isalpha c && bool_decide (c ∉ guessed) then HIDDEN else c.

(** The board is the phrase with its unguessed letters hidden. *)
Definition board_shows_guessed (g : WheelGame) : Prop :=
  revealed g = map (cell_of (guessed_letters g)) (chars (current_puzzle g)).

(** A guess is permitted exactly while a wheel value stands, and never
    while the wheel turns. *)
Definition turn_ok (g : WheelGame) : Prop :=
  (can_guess g = false → current_value g = 0) ∧
  (can_guess g = true → current_value g ∈ WHEEL_VALUES) ∧
  (wheel_spinning g = true → can_guess g = false).

(** The guessed letters are upper-case letters. *)
Definition guessed_ok (g : WheelGame) : Prop :=
  ∀ c, c ∈ guessed_letters g → isalpha c = true ∧ upper c = c.

Definition Inv2 (g : WheelGame) : Prop :=
  turn_ok g ∧ board_shows_guessed g ∧ guessed_ok g.

(** The states a game can be in: built by [__init__], then operated. *)
Definition reachable (g : WheelGame) : Prop :=
  ∃ pz rnd ops g0, init pz rnd = Some g0 ∧ run ops g0 = Some g.

(** The built-in collection after [sample_run]. *)
Definition played : WheelGame :=
  default cat_idle (init default_puzzles (1, 2)%nat ≫= run sample_run).

(** The draw of a spin on the built-in collection that stops at the angle
    750, and the 248 frames it turns before the frame that stops it. *)
Definition spin_to_750 : list Op :=
  OpSpin 88883595877691 :: replicate 248 OpAdvance.

Definition before_stop : WheelGame :=
  Eval vm_compute in
    default cat_idle (init default_puzzles (1, 2)%nat ≫= run spin_to_750).

(** A collection whose one phrase holds an underscore, and its first puzzle. *)
Definition underscore_puzzles : list (string * list string) :=
  [("Code", ["A_B"])].

Definition underscore_game : WheelGame :=
  mkGame underscore_puzzles "A_B" "Code" (chars "___") ∅
    0%Q false 0%Q 0 0 false "" 0 1%nat.

(** ** Drawing the board *)

(** A box of the board: its corner and the cell it shows. *)
Record Box := mkBox { box_x : Z; box_y : Z; box_char : ascii }.

(** Lines 225-230: the width of a row in pixels; [phrase[idx]] raises past
    the end of the phrase. *)
Fixpoint row_width_from (phrase : list ascii) (row : list nat) (width : Z)
    : option Z :=
  match row with
  | [] => Some width
  | idx :: row' =>
      c ← phrase !! idx;
      row_width_from phrase row'
        (if decide (c = SPACE) then width + 60 `div` 2 else width + (60 + 6))
  end.

(** Lines 235-253: the boxes of a row from [x] on; a space moves on by half
    a box, a letter is drawn in a box showing its cell of [revealed]. *)
Fixpoint draw_cells (phrase rv : list ascii) (y x : Z) (row : list nat)
    : option (list Box) :=
  match row with
  | [] => Some []
  | idx :: row' =>
      c ← phrase !! idx;
      revealed_char ← rv !! idx;
      if decide (c = SPACE) then draw_cells phrase rv y (x + 60 `div` 2) row'
      else boxes ← draw_cells phrase rv y (x + (60 + 6)) row';
           Some (mkBox x y revealed_char :: boxes)
  end.

(** Lines 223-255: the rows, each centred in the 850 pixels of the board. *)
Fixpoint draw_rows (phrase rv : list ascii) (y : Z) (rws : list (list nat))
    : option (list (list Box)) :=
  match rws with
  | [] => Some []
  | row :: rws' =>
      row_width ← row_width_from phrase row 0;
      boxes ← draw_cells phrase rv y (500 + (850 - row_width) `div` 2) row;
      rest ← draw_rows phrase rv (y + (60 + 6 + 8)) rws';
      Some (boxes :: rest)
  end.

(** The boxes [draw_puzzle] draws, row by row. *)
Definition draw_puzzle_boxes (g : WheelGame) : option (list (list Box)) :=
  draw_rows (chars (current_puzzle g)) (revealed g) 120 (draw_puzzle_rows g).

(** ** The earlier layout *)

(** Lines 276-293 of [draw_puzzle_old]: one character of the phrase;
    [char_index] is the index [enumerate] gives it. *)
Definition old_step (max_per_row : Q) (st : layout_state) (c : ascii)
    : layout_state :=
  let i := char_index st in
  if decide (c = SPACE) then
    if Qle_bool (max_per_row - 2) (current_count st)
    then mkLayout (rows st ++ [current_row st]) [] 0%Q (S i)
    else mkLayout (rows st) (current_row st ++ [i])
           (current_count st + (1 # 2))%Q (S i)
  else
    if Qle_bool max_per_row (current_count st)
    then mkLayout (rows st ++ [current_row st]) [i] 1%Q (S i)
    else mkLayout (rows st) (current_row st ++ [i])
           (current_count st + 1)%Q (S i).

(** Lines 271-296: the rows of [draw_puzzle_old]. *)
Definition old_layout_rows (max_per_row : Q) (phrase : string)
    : list (list nat) :=
  let st := fold_left (old_step max_per_row) (chars phrase)
              (mkLayout [] [] 0%Q 0%nat) in
  match current_row st with
  | [] => rows st
  | _ => rows st ++ [current_row st]
  end.

(** The characters a list of cells shows, spaces left out. *)
Definition shown_at (phrase : list ascii) (idxs : list nat) : list ascii :=
  filter (λ c, c ≠ SPACE) (omap (λ i, phrase !! i) idxs).

(** The width the layout counts for a phrase kept in one row: a cell for
    every letter, half a cell for every space between two words. *)
Definition words_width (words : list (list ascii)) : Q :=
  fold_right (λ word acc, inject_Z (Z.of_nat (length word)) + (1 # 2) + acc)%Q
             0%Q words.

Definition phrase_width (phrase : string) : Q :=
  match split_space (chars phrase) with
  | [] => 0%Q
  | word :: words =>
      (inject_Z (Z.of_nat (length word)) + words_width words)%Q
  end.

(** ** The main loop *)

(** The keys [run] tells apart; [K_OTHER] is any other key. *)
Inductive Key := K_SPACE | K_ESCAPE | K_v | K_RETURN | K_OTHER.

(** A pygame event: [unicode] is the character typed, [None] for the empty
    string of a key that types nothing. *)
Inductive Event :=
| QUIT
| KEYDOWN (key : Key) (unicode : option ascii)
| OTHER_EVENT.

(** The variables of [run] and the game. *)
Record MainLoop := mkLoop {
  running : bool;
  waiting_for_vowel : bool;
  game : WheelGame
}.

(** Lines 520-546: one event, with the random draws its handler may use. *)
Definition handle_event (rnd : nat * nat) (u : N) (ev : Event)
    (st : MainLoop) : option MainLoop :=
  let g := game st in
  match ev with
  | QUIT => Some (mkLoop false (waiting_for_vowel st) g)
  | KEYDOWN K_SPACE _ =>
      Some (mkLoop (running st) (waiting_for_vowel st) (spin_wheel u g))
  | KEYDOWN K_ESCAPE _ =>
      g' ← new_puzzle rnd g;
      Some (mkLoop (running st) (waiting_for_vowel st) g')
  | KEYDOWN K_v _ =>
      if (VOWEL_COST <=? score g) && has_vowels g
      then Some (mkLoop (running st) true (buy_vowel g).2)
      else Some st
  | KEYDOWN K_RETURN _ =>
      if negb (can_guess g)
      then Some (mkLoop (running st) (waiting_for_vowel st) (solve_puzzle g))
      else Some st
  | KEYDOWN K_OTHER (Some c) =>
      if isalpha c then
        let letter := upper c in
        if can_guess g && bool_decide (letter ∉ VOWELS) then
          g' ← guess_letter rnd letter false g;
          Some (mkLoop (running st) (waiting_for_vowel st) g')
        else if waiting_for_vowel st && bool_decide (letter ∈ VOWELS) then
          g' ← guess_letter rnd letter true g;
          Some (mkLoop (running st) false g')
        else Some st
      else Some st
  | KEYDOWN K_OTHER None => Some st
  | OTHER_EVENT => Some st
  end.

(** The events of a frame, each with its draws. *)
Definition Input : Type := Event * ((nat * nat) * N).

Fixpoint handle_events (inputs : list Input) (st : MainLoop)
    : option MainLoop :=
  match inputs with
  | [] => Some st
  | (ev, (rnd, u)) :: inputs' =>
      st' ← handle_event rnd u ev st; handle_events inputs' st'
  end.

(** Lines 517-567: a pass of the loop: the events, the wheel, the drawing
    of the board. *)
Definition frame (inputs : list Input) (st : MainLoop) : option MainLoop :=
  st1 ← handle_events inputs st;
  g ← update_wheel (game st1);
  _ ← draw_puzzle_boxes g;
  Some (mkLoop (running st1) (waiting_for_vowel st1) g).

(** [while running]: the passes of the loop, one list of events each. *)
Fixpoint run_frames (frames : list (list Input)) (st : MainLoop)
    : option MainLoop :=
  match frames with
  | [] => Some st
  | inputs :: frames' =>
      if running st then st' ← frame inputs st; run_frames frames' st'
      else Some st
  end.

(** [WheelGame().run()] on the collection [pz]. *)
Definition run_main (pz : list (string * list string)) (rnd : nat * nat)
    (frames : list (list Input)) : option MainLoop :=
  g ← init pz rnd; run_frames frames (mkLoop true false g).

(** The key that types a V is the key [K_v]. *)
Definition key_matches (ev : Event) : Prop :=
  match ev with
  | KEYDOWN key (Some c) => upper c = "V"%char → key = K_v
  | _ => True
  end.

(** What an event did to the game. *)
Inductive event_effect (rnd : nat * nat) (ev : Event) (st st' : MainLoop)
    : Prop :=
| effect_none :
    game st' = game st →
    waiting_for_vowel st' = waiting_for_vowel st →
    event_effect rnd ev st st'
| effect_free (op : Op) :
    step op (game st) = Some (game st') →
    waiting_for_vowel st' = waiting_for_vowel st →
    (∀ r l, op ≠ OpGuess r l true) →
    (∀ r l p, op = OpGuess r l p →
              ∃ c, ev = KEYDOWN K_OTHER (Some c) ∧ l = upper c) →
    event_effect rnd ev st st'
| effect_buy :
    game st' = (buy_vowel (game st)).2 →
    waiting_for_vowel st' = true →
    VOWEL_COST <= score (game st) →
    event_effect rnd ev st st'
| effect_vowel (c : ascii) :
    ev = KEYDOWN K_OTHER (Some c) → upper c ∈ VOWELS →
    waiting_for_vowel st = true → waiting_for_vowel st' = false →
    guess_letter rnd (upper c) true (game st) = Some (game st') →
    event_effect rnd ev st st'.

(** The invariant of the main loop. *)
Definition LoopInv (st : MainLoop) : Prop :=
  Inv (game st) ∧ reachable (game st) ∧
  (waiting_for_vowel st = true → VOWEL_COST <= score (game st)).

(** Some frames of play on the built-in collection. *)
Definition sample_frames : list (list Input) :=
  [ [ (KEYDOWN K_SPACE (Some " "%char), ((0, 0)%nat, (2 ^ 52)%N)) ];
    [];
    [ (KEYDOWN K_v (Some "v"%char), ((0, 0)%nat, 0%N));
      (KEYDOWN K_OTHER (Some "s"%char), ((0, 0)%nat, 0%N)) ];
    [ (KEYDOWN K_ESCAPE None, ((2, 1)%nat, 0%N));
      (KEYDOWN K_RETURN None, ((0, 0)%nat, 0%N)) ];
    [ (QUIT, ((0, 0)%nat, 0%N)) ];
    [ (KEYDOWN K_SPACE (Some " "%char), ((0, 0)%nat, (2 ^ 52)%N)) ] ].

(** Frames of play on the built-in collection that earn the price of a
    vowel: a spin that stops at the angle 750, on 550; then S is guessed,
    twice in STAR WARS, and V is pressed. *)
Definition funded_frames : list (list Input) :=
  ([ (KEYDOWN K_SPACE (Some " "%char), ((0, 0)%nat, 88883595877691%N)) ]
   :: replicate 248 [])
  ++ [ [ (KEYDOWN K_OTHER (Some "s"%char), ((0, 0)%nat, 0%N));
         (KEYDOWN K_v (Some "v"%char), ((0, 0)%nat, 0%N)) ] ].

Definition funded_loop : MainLoop :=
  Eval vm_compute in
    default (mkLoop true false cat_idle)
      (run_main default_puzzles (1, 2)%nat funded_frames).

(** The state [run] is in after [sample_frames]. *)
Definition sample_loop : MainLoop :=
  default (mkLoop true false cat_idle)
    (run_main default_puzzles (1, 2)%nat sample_frames).

(** The CAT round after the vowel E was bought and missed. *)
Definition cat_after_E : WheelGame :=
  mkGame cat_puzzles "CAT" "Animals" (chars "CA_") (list_to_set (chars "CAE"))
    0%Q false 0%Q 0 0 false "Sorry, no E" 0 1%nat.

(** ** The guessed letters *)

(** The order of [sorted] on characters: by code point. *)
Definition char_le (a b : ascii) : Prop :=
  (nat_of_ascii a ≤ nat_of_ascii b)%nat.

#[global] Instance char_le_dec : RelDecision char_le.
Proof. intros a b. unfold char_le. apply _. Defined.

(** [sorted(letters)] *)
Definition sorted (letters : list ascii) : list ascii :=
  merge_sort char_le letters.

(** A letter drawn at a place. *)
Definition Glyph : Type := Z * Z * ascii.

(** Lines 348-354 and 365-371: a letter is drawn at [(x, y)], then the
    place moves right by 45, or to the start of the next line once [x]
    passes 1300. *)
Definition place_step (acc : list Glyph * (Z * Z)) (letter : ascii)
    : list Glyph * (Z * Z) :=
  let '(drawn, (x, y)) := acc in
  ((drawn ++ [(x, y, letter)])%list,
   if 1300 <? x + 45 then (550, y + 50) else (x + 45, y)).

Definition place_letters (x y : Z) (letters : list ascii)
    : list Glyph * (Z * Z) :=
  fold_left place_step letters ([], (x, y)).

(** [draw_guessed_letters]: the consonants drawn, the place of the label
    of the vowels when there is one, the vowels drawn. *)
Definition draw_guessed_letters (g : WheelGame)
    : list Glyph * option (Z * Z) * list Glyph :=
  let consonants :=
    sorted (filter (λ l, l ∉ VOWELS) (elements (guessed_letters g))) in
  let vowels :=
    sorted (filter (λ l, l ∈ VOWELS) (elements (guessed_letters g))) in
  let '(drawn, (x, y)) := place_letters 550 460 consonants in
  match vowels with
  | [] => (drawn, None, [])
  | _ =>
      let y := if 550 <? x then y + 50 else y in
      let x := 550 in
      let label := (x, y) in
      let y := y + 35 in
      (drawn, Some label, (place_letters x y vowels).1)
  end.

(** The place of letter number [k] of a block that starts at line [y0]. *)
Definition slot (y0 k : Z) : Z * Z :=
  (550 + 45 * (k mod 17), y0 + 50 * (k / 17)).

(** The conditions under which [guess_letter] takes a letter. *)
Definition guess_accepted (letter : ascii) (is_vowel_purchase : bool)
    (g : WheelGame) : Prop :=
  (upper letter ∉ guessed_letters g) ∧ isalpha (upper letter) = true ∧
  (upper letter ∈ VOWELS →
   is_vowel_purchase = true ∧ VOWEL_COST <= score g) ∧
  (upper letter ∉ VOWELS → can_guess g = true).

(** A collection without a category, and a game on it. *)
Definition no_puzzles_game : WheelGame :=
  mkGame [] "" "" [] ∅ 0%Q false 0%Q 0 0 false "" 0 0%nat.

(** * Properties *)

(** Two [decide] tests that agree. *)
Ltac decide_agree :=
  repeat case_decide; try reflexivity; exfalso;
  match goal with
  | H : ¬ _ |- _ =>
      apply H; destruct_and?;
      first [assumption | split; first [lia | assumption]]
  end.

(** ** Characters *)

Lemma isalpha_not_hidden c : isalpha c = true → c ≠ HIDDEN.
Proof. intros H ->. vm_compute in H. discriminate. Qed.

Lemma vowel_cases c :
  c ∈ VOWELS ↔ c ∈ chars "AEIOU".
Proof. unfold VOWELS. apply elem_of_list_to_set. Qed.

Lemma vowel_isalpha c : c ∈ VOWELS → isalpha c = true.
Proof.
  rewrite vowel_cases. cbn. rewrite !elem_of_cons, elem_of_nil.
  intros [->|[->|[->|[->|[->|[]]]]]]; reflexivity.
Qed.

Lemma str_in_true c s : str_in c s = true ↔ c ∈ chars s.
Proof. unfold str_in. apply bool_decide_eq_true. Qed.

Lemma str_in_false c s : str_in c s = false ↔ c ∉ chars s.
Proof. unfold str_in. apply bool_decide_eq_false. Qed.

Lemma str_count_nonneg c s : 0 <= str_count c s.
Proof. unfold str_count. lia. Qed.

Lemma str_count_pos c s : str_in c s = true ↔ 0 < str_count c s.
Proof.
  rewrite str_in_true. unfold str_count.
  split.
  - intros Hin. assert (c ∈ filter (λ x, x = c) (chars s)) as H
      by (apply list_elem_of_filter; auto).
    destruct (filter (λ x, x = c) (chars s)); [inversion H | simpl; lia].
  - intros Hpos. destruct (filter (λ x, x = c) (chars s)) as [|x l] eqn:E;
      [simpl in Hpos; lia|].
    assert (x ∈ filter (λ x, x = c) (chars s)) as H by (rewrite E; left).
    apply list_elem_of_filter in H as [-> H]. exact H.
Qed.

(** ** Revealing *)

Lemma reveal_from_spec letter phrase : ∀ i rv,
  (i + length phrase ≤ length rv)%nat →
  ∃ rv', reveal_from i phrase letter rv = Some rv' ∧
         length rv' = length rv ∧
         ∀ j, rv' !! j =
              if decide (i ≤ j ∧ phrase !! (j - i) = Some letter)%nat
              then Some letter else rv !! j.
Proof.
  induction phrase as [|c phrase IH]; intros i rv Hlen; simpl in *.
  - exists rv. split; [reflexivity|]. split; [reflexivity|].
    intros j. case_decide as H; [|reflexivity].
    destruct H as [_ H]. rewrite lookup_nil in H. discriminate.
  - destruct (decide (c = letter)) as [->|Hne].
    + assert ((i <? length rv)%nat = true) as -> by (apply Nat.ltb_lt; lia).
      destruct (IH (S i) (<[i:=letter]> rv)) as (rv' & Hrv & Hl & Hget).
      { rewrite length_insert. lia. }
      exists rv'. split; [exact Hrv|]. rewrite length_insert in Hl.
      split; [exact Hl|]. intros j. rewrite Hget.
      destruct (decide (j = i)) as [->|Hji].
      * rewrite Nat.sub_diag. simpl.
        rewrite decide_False by lia. rewrite decide_True by auto.
        apply list_lookup_insert_eq. lia.
      * rewrite list_lookup_insert_ne by auto.
        destruct (decide (i ≤ j)%nat) as [Hle|Hgt].
        -- replace (j - i)%nat with (S (j - S i)) by lia.
           rewrite lookup_cons_ne_0 by lia; simpl.
           decide_agree.
        -- rewrite !decide_False by lia. reflexivity.
    + destruct (IH (S i) rv) as (rv' & Hrv & Hl & Hget); [lia|].
      exists rv'. split; [exact Hrv|]. split; [exact Hl|].
      intros j. rewrite Hget.
      destruct (decide (j = i)) as [->|Hji].
      * rewrite Nat.sub_diag. simpl.
        rewrite !decide_False; [reflexivity| |lia].
        intros [_ [=]]. congruence.
      * destruct (decide (i ≤ j)%nat) as [Hle|Hgt].
        -- replace (j - i)%nat with (S (j - S i)) by lia.
           rewrite lookup_cons_ne_0 by lia; simpl.
           decide_agree.
        -- rewrite !decide_False by lia. reflexivity.
Qed.

(** On a well-formed board the loop cannot fail; it writes the letter at
    the positions of the phrase that hold it and nowhere else. *)
Lemma reveal_spec phrase letter rv :
  length rv = length (chars phrase) →
  ∃ rv', reveal phrase letter rv = Some rv' ∧
         length rv' = length rv ∧
         ∀ j, rv' !! j = if decide (chars phrase !! j = Some letter)
                         then Some letter else rv !! j.
Proof.
  intros Hlen. unfold reveal.
  destruct (reveal_from_spec letter (chars phrase) 0 rv) as (rv' & H1 & H2 & H3);
    [lia|].
  exists rv'. split; [exact H1|]. split; [exact H2|].
  intros j. rewrite H3, Nat.sub_0_r.
  decide_agree.
Qed.

(** ** Starting a puzzle *)

Lemma random_choice_elem {A} r (seq : list A) x :
  random_choice r seq = Some x → x ∈ seq.
Proof.
  destruct seq as [|a seq]; [discriminate|]. unfold random_choice.
  intros H. eapply list_elem_of_lookup_2, H.
Qed.

Lemma random_choice_total {A} r (seq : list A) :
  seq ≠ [] → is_Some (random_choice r seq).
Proof.
  destruct seq as [|a seq]; [congruence|]. intros _. unfold random_choice.
  apply lookup_lt_is_Some. apply Nat.mod_upper_bound. simpl. lia.
Qed.

Lemma dict_get_elem key d v : dict_get key d = Some v → (key, v) ∈ d.
Proof.
  induction d as [|[k w] d IH]; simpl; [discriminate|].
  destruct (String.eqb k key) eqn:E.
  - apply String.eqb_eq in E as ->. intros [= ->]. left.
  - intros H. right. auto.
Qed.

Lemma dict_get_total key d : key ∈ map fst d → is_Some (dict_get key d).
Proof.
  induction d as [|[k w] d IH]; simpl.
  - intros H. inversion H.
  - destruct (String.eqb k key) eqn:E; [eauto|].
    intros H. apply elem_of_cons in H as [->|H]; [|auto].
    rewrite String.eqb_refl in E. discriminate.
Qed.

(** What [new_puzzle] leaves behind when it returns. *)
Lemma new_puzzle_Some rnd g g' :
  new_puzzle rnd g = Some g' →
  ∃ category phrases phrase,
    (category, phrases) ∈ puzzles g ∧ phrase ∈ phrases ∧
    g' = mkGame (puzzles g) (upper_str phrase) category
           (hide (upper_str phrase)) ∅
           (wheel_angle g) (wheel_spinning g) (wheel_speed g)
           0 (score g) false "" (waited_ms g) (S (puzzles_started g)).
Proof.
  unfold new_puzzle. intros H.
  destruct (random_choice rnd.1 (map fst (puzzles g))) as [cat|] eqn:E1;
    [|discriminate].
  simpl in H. destruct (dict_get cat (puzzles g)) as [phs|] eqn:E2;
    [|discriminate].
  simpl in H. destruct (random_choice rnd.2 phs) as [ph|] eqn:E3;
    [|discriminate].
  simpl in H. injection H as <-.
  exists cat, phs, ph. split; [eapply dict_get_elem, E2|].
  split; [eapply random_choice_elem, E3|]. reflexivity.
Qed.

(** With a loader that keeps its contract, [new_puzzle] returns. *)
Lemma new_puzzle_total rnd g :
  puzzles_ok (puzzles g) → is_Some (new_puzzle rnd g).
Proof.
  intros [Hne Hall]. unfold new_puzzle.
  destruct (random_choice_total rnd.1 (map fst (puzzles g))) as [cat E1].
  { destruct (puzzles g); [congruence | discriminate]. }
  rewrite E1. simpl.
  destruct (dict_get_total cat (puzzles g)) as [phs E2].
  { eapply random_choice_elem, E1. }
  rewrite E2. simpl.
  destruct (random_choice_total rnd.2 phs) as [ph E3].
  { apply dict_get_elem in E2. rewrite Forall_forall in Hall.
    apply (Hall (cat, phs)). exact E2. }
  rewrite E3. simpl. eauto.
Qed.

Lemma hide_length phrase : length (hide phrase) = length (chars phrase).
Proof. unfold hide. apply length_map. Qed.

Lemma hide_lookup phrase i :
  hide phrase !! i =
  (λ c, if isalpha c then HIDDEN else c) <$> chars phrase !! i.
Proof. unfold hide. apply list_lookup_fmap. Qed.

(** ** Resolving a guess *)

Lemma award_frame letter count g :
  current_puzzle (award letter count g) = current_puzzle g ∧
  revealed (award letter count g) = revealed g ∧
  puzzles (award letter count g) = puzzles g ∧
  guessed_letters (award letter count g) = guessed_letters g ∧
  waited_ms (award letter count g) = waited_ms g ∧
  puzzles_started (award letter count g) = puzzles_started g.
Proof. unfold award. case_decide; simpl; auto 10. Qed.

Lemma award_consonant letter count g :
  letter ∉ VOWELS →
  score (award letter count g) = score g + current_value g * count ∧
  current_value (award letter count g) = 0 ∧
  can_guess (award letter count g) = false.
Proof. intros H. unfold award. rewrite decide_True by exact H. simpl. auto. Qed.

Lemma award_vowel letter count g :
  letter ∈ VOWELS →
  score (award letter count g) = score g ∧
  current_value (award letter count g) = current_value g ∧
  can_guess (award letter count g) = can_guess g.
Proof.
  intros H. unfold award. rewrite decide_False by (intros H'; exact (H' H)).
  simpl. auto.
Qed.

Lemma resolve_guess_miss rnd letter g :
  str_in letter (current_puzzle g) = false →
  resolve_guess rnd letter g = Some (after_miss letter g).
Proof. intros H. unfold resolve_guess. simpl. rewrite H. reflexivity. Qed.

Lemma resolve_guess_hit rnd letter g :
  str_in letter (current_puzzle g) = true → board_ok g →
  ∃ rv, reveal (current_puzzle g) letter (revealed g) = Some rv ∧
        length rv = length (revealed g) ∧
        (∀ j, rv !! j =
              if decide (chars (current_puzzle g) !! j = Some letter)
              then Some letter else revealed g !! j) ∧
        resolve_guess rnd letter g =
        if solved rv then new_puzzle rnd (after_solve (after_hit letter rv g))
        else Some (after_hit letter rv g).
Proof.
  intros Hin Hok.
  destruct (reveal_spec (current_puzzle g) letter (revealed g) Hok)
    as (rv & Hrv & Hlen & Hget).
  exists rv. repeat split; try assumption.
  unfold resolve_guess. simpl. rewrite Hin.
  destruct (award_frame letter (str_count letter (current_puzzle g))
              (set_guessed_letters ({[letter]} ∪ guessed_letters g) g))
    as (-> & -> & _).
  simpl. rewrite Hrv. reflexivity.
Qed.

Lemma completes_hit letter g rv :
  str_in letter (current_puzzle g) = true →
  reveal (current_puzzle g) letter (revealed g) = Some rv →
  completes_puzzle letter g = solved rv.
Proof. intros H1 H2. unfold completes_puzzle. rewrite H1, H2. reflexivity. Qed.

(** A letter completes the puzzle when it occurs in the phrase and every
    hidden cell lies at one of its positions. *)
Lemma completes_puzzle_spec letter g :
  board_ok g → letter ≠ HIDDEN →
  completes_puzzle letter g = true ↔
  letter ∈ chars (current_puzzle g) ∧
  ∀ j, revealed g !! j = Some HIDDEN →
       chars (current_puzzle g) !! j = Some letter.
Proof.
  intros Hok Hne.
  destruct (reveal_spec (current_puzzle g) letter (revealed g) Hok)
    as (rv & Hrv & _ & Hget).
  unfold completes_puzzle, solved. rewrite Hrv, andb_true_iff, str_in_true.
  rewrite bool_decide_eq_true.
  split; intros [Hin H]; (split; [exact Hin|]).
  - intros j Hj. destruct (decide (chars (current_puzzle g) !! j = Some letter))
      as [Hc|Hc]; [exact Hc|].
    exfalso. apply H. apply list_elem_of_lookup. exists j.
    rewrite Hget. rewrite decide_False by exact Hc. exact Hj.
  - intros Hh. apply list_elem_of_lookup in Hh as [j Hj].
    rewrite Hget in Hj. case_decide as Hc.
    + congruence.
    + apply H in Hj. congruence.
Qed.

Lemma check_rules_frame letter p g ga :
  check_rules letter p g = Accepted ga →
  current_puzzle ga = current_puzzle g ∧ revealed ga = revealed g ∧
  puzzles ga = puzzles g ∧ guessed_letters ga = guessed_letters g ∧
  current_value ga = current_value g ∧ can_guess ga = can_guess g ∧
  waited_ms ga = waited_ms g ∧ puzzles_started ga = puzzles_started g.
Proof.
  unfold check_rules.
  repeat (case_decide || case_match); intros [= <-]; simpl; auto 10.
Qed.

(** The steps of [guess_letter] once the checks are passed. *)
Lemma guess_letter_accepted rnd letter p g ga :
  upper letter ∉ guessed_letters g → isalpha (upper letter) = true →
  check_rules (upper letter) p g = Accepted ga →
  guess_letter rnd letter p g = resolve_guess rnd (upper letter) ga.
Proof.
  intros Hg Ha Hc. unfold guess_letter.
  rewrite decide_False by exact Hg. rewrite Ha, Hc. reflexivity.
Qed.

Lemma turn_phase_guess g : turn_phase g = AWAITING_GUESS ↔ can_guess g = true.
Proof. unfold turn_phase. destruct (can_guess g); split; congruence. Qed.

Lemma turn_phase_spin g : turn_phase g = AWAITING_SPIN ↔ can_guess g = false.
Proof. unfold turn_phase. destruct (can_guess g); split; congruence. Qed.

(** A hit on a well-formed state: the call returns, either with the board
    it revealed or, when the board is complete, with the state [new_puzzle]
    made of it. *)
Lemma resolve_hit_cases rnd letter g :
  str_in letter (current_puzzle g) = true →
  board_ok g → puzzles_ok (puzzles g) →
  ∃ rv g',
    reveal (current_puzzle g) letter (revealed g) = Some rv ∧
    resolve_guess rnd letter g = Some g' ∧
    score g' = score (after_hit letter rv g) + solve_bonus letter g ∧
    if completes_puzzle letter g
    then new_puzzle rnd (after_solve (after_hit letter rv g)) = Some g'
    else g' = after_hit letter rv g.
Proof.
  intros Hin Hok Hpz.
  destruct (resolve_guess_hit rnd letter g Hin Hok) as (rv & Hrv & _ & _ & Hres).
  exists rv. unfold solve_bonus.
  rewrite (completes_hit letter g rv Hin Hrv). rewrite Hres.
  destruct (solved rv).
  - destruct (new_puzzle_total rnd (after_solve (after_hit letter rv g)))
      as [g' Hg'].
    { unfold after_solve, after_hit. simpl.
      destruct (award_frame letter (str_count letter (current_puzzle g))
                  (set_guessed_letters ({[letter]} ∪ guessed_letters g) g))
        as (_ & _ & -> & _). exact Hpz. }
    exists g'. split; [exact Hrv|]. split; [exact Hg'|]. split; [|exact Hg'].
    apply new_puzzle_Some in Hg' as (cat & phs & ph & _ & _ & ->).
    simpl. reflexivity.
  - exists (after_hit letter rv g). repeat split; auto. lia.
Qed.

Lemma check_rules_accepted letter p g ga :
  check_rules letter p g = Accepted ga →
  (letter ∈ VOWELS ∧ p = true ∧ VOWEL_COST <= score g ∧
   ga = set_score (score g - VOWEL_COST) g) ∨
  ((letter ∉ VOWELS) ∧ can_guess g = true ∧ ga = g).
Proof.
  unfold check_rules. case_decide as Hv.
  - destruct p; simpl; [|discriminate].
    destruct (score g <? VOWEL_COST) eqn:E; [discriminate|].
    intros [= <-]. left. apply Z.ltb_ge in E. auto.
  - destruct (can_guess g); simpl; [|discriminate].
    intros [= <-]. right. auto.
Qed.

Lemma check_rules_rejected letter p g gr :
  check_rules letter p g = Rejected gr → ∃ m, gr = set_message m g.
Proof.
  unfold check_rules.
  repeat (case_decide || case_match); intros [= <-]; eauto.
Qed.

(** The ways through [guess_letter] on a well-formed board. *)
Lemma guess_letter_cases rnd letter p g :
  board_ok g →
  (∃ m, guess_letter rnd letter p g = Some (set_message m g)) ∨
  guess_letter rnd letter p g = Some g ∨
  ∃ ga, check_rules (upper letter) p g = Accepted ga ∧
        isalpha (upper letter) = true ∧
        ((str_in (upper letter) (current_puzzle g) = false ∧
          guess_letter rnd letter p g = Some (after_miss (upper letter) ga)) ∨
         (str_in (upper letter) (current_puzzle g) = true ∧
          ∃ rv, reveal (current_puzzle g) (upper letter) (revealed g) = Some rv ∧
                length rv = length (revealed g) ∧
                (∀ j, rv !! j =
                      if decide (chars (current_puzzle g) !! j
                                 = Some (upper letter))
                      then Some (upper letter) else revealed g !! j) ∧
                guess_letter rnd letter p g =
                if solved rv
                then new_puzzle rnd (after_solve (after_hit (upper letter) rv ga))
                else Some (after_hit (upper letter) rv ga))).
Proof.
  intros Hok. unfold guess_letter at 1 2.
  case_decide as Hg; [left; eauto|].
  destruct (isalpha (upper letter)) eqn:Ha; simpl; [|right; left; reflexivity].
  destruct (check_rules (upper letter) p g) as [gr|ga] eqn:Hrules.
  { left. apply check_rules_rejected in Hrules as [m ->]. eauto. }
  right. right. exists ga. split; [reflexivity|]. split; [reflexivity|].
  rewrite (guess_letter_accepted rnd letter p g ga Hg Ha Hrules).
  destruct (check_rules_frame _ _ _ _ Hrules) as (Hcp & Hrv & _).
  destruct (str_in (upper letter) (current_puzzle g)) eqn:Hin.
  - right. split; [reflexivity|].
    rewrite <- Hcp in Hin. rewrite <- Hcp, <- Hrv.
    apply resolve_guess_hit; [exact Hin|].
    unfold board_ok. rewrite Hcp, Hrv. exact Hok.
  - left. split; [reflexivity|].
    rewrite <- Hcp in Hin. apply resolve_guess_miss, Hin.
Qed.

Lemma after_hit_score letter rv g :
  score (after_hit letter rv g) =
  score g + (if decide (letter ∈ VOWELS) then 0
             else current_value g * str_count letter (current_puzzle g)).
Proof.
  unfold after_hit. simpl. case_decide as Hv.
  - destruct (award_vowel letter (str_count letter (current_puzzle g))
                (set_guessed_letters ({[letter]} ∪ guessed_letters g) g) Hv)
      as (-> & _). simpl. lia.
  - destruct (award_consonant letter (str_count letter (current_puzzle g))
                (set_guessed_letters ({[letter]} ∪ guessed_letters g) g) Hv)
      as (-> & _). reflexivity.
Qed.

Lemma after_hit_value letter rv g :
  0 <= current_value g → 0 <= current_value (after_hit letter rv g).
Proof.
  intros H. unfold after_hit, award. simpl. case_decide; simpl; lia.
Qed.

(** ** Floats *)

Lemma rne_floor x : Qfloor x <= rne x <= Qfloor x + 1.
Proof.
  unfold rne. destruct (_ ?= _)%Q; [destruct (Z.even _)| |]; lia.
Qed.

Lemma rne_inject n : rne (inject_Z n) = n.
Proof.
  unfold rne. rewrite Qfloor_Z.
  assert ((inject_Z n - inject_Z n ?= 1 # 2)%Q = Lt) as ->; [|reflexivity].
  apply (proj1 (Qlt_alt _ _)). generalize (inject_Z n). intros q. lra.
Qed.

Lemma rne_mono x y : (x <= y)%Q → rne x <= rne y.
Proof.
  intros H. pose proof (Qfloor_resp_le _ _ H) as Hf.
  destruct (decide (Qfloor x = Qfloor y)) as [E|E].
  - unfold rne. rewrite E.
    destruct (Qcompare_spec (x - inject_Z (Qfloor y)) (1 # 2)) as [H1|H1|H1];
    destruct (Qcompare_spec (y - inject_Z (Qfloor y)) (1 # 2)) as [H2|H2|H2];
      try lia; try (destruct (Z.even _); lia); exfalso; lra.
  - pose proof (rne_floor x). pose proof (rne_floor y). lia.
Qed.

(** Powers of two. *)
Lemma pow2_pos k : (0 < 2 ^ k)%Q.
Proof. apply Qpower_0_lt. reflexivity. Qed.

Lemma pow2_add a b : (2 ^ (a + b) == 2 ^ a * 2 ^ b)%Q.
Proof. apply Qpower_plus. discriminate. Qed.

Lemma pow2_le a b : a <= b → (2 ^ a <= 2 ^ b)%Q.
Proof. intros H. apply Qpower_le_compat_l; [exact H | discriminate]. Qed.

Lemma pow2_inject k : 0 <= k → (inject_Z (2 ^ k) == 2 ^ k)%Q.
Proof. intros H. rewrite (Zpower_Qpower 2 k H). reflexivity. Qed.

Lemma ulp_pos x : (0 < ulp x)%Q.
Proof. apply pow2_pos. Qed.

Lemma fl_eq x q : (fl x == q)%Q → fl x = Qred q.
Proof.
  intros H. unfold fl in *. apply Qred_complete. rewrite <- H.
  symmetry. apply Qred_correct.
Qed.

Lemma fl_value x : (fl x == inject_Z (rne (x / ulp x)) * ulp x)%Q.
Proof. apply Qred_correct. Qed.

(** A positive number lies between two powers of two. *)
Lemma ilog2_spec x :
  (0 < x)%Q → (2 ^ ilog2 x <= x)%Q ∧ (x < 2 ^ (ilog2 x + 1))%Q.
Proof.
  intros Hx. unfold ilog2.
  set (n := Qnum x). set (d := Z.pos (Qden x)).
  assert (0 < n) as Hn by (destruct x as [xn xd]; unfold Qlt in Hx; simpl in *; lia).
  assert (0 < d) as Hd by (subst d; lia).
  destruct (Z.log2_spec n Hn) as [Hn1 Hn2].
  destruct (Z.log2_spec d Hd) as [Hd1 Hd2].
  pose proof (Z.log2_nonneg n) as Ha. pose proof (Z.log2_nonneg d) as Hb.
  set (a := Z.log2 n) in *. set (b := Z.log2 d) in *.
  assert (inject_Z n == x * inject_Z d)%Q as Hxd.
  { destruct x as [xn xd]. subst n d. unfold Qeq, inject_Z. simpl. lia. }
  assert (0 < inject_Z d)%Q as Hd0
    by (change 0%Q with (inject_Z 0); rewrite <- Zlt_Qlt; exact Hd).
  assert (x * 2 ^ b <= inject_Z n)%Q as Hlo.
  { rewrite Hxd. apply Qmult_le_l; [exact Hx|].
    rewrite <- pow2_inject by exact Hb. rewrite <- Zle_Qle. exact Hd1. }
  assert (inject_Z n < x * 2 ^ (b + 1))%Q as Hhi.
  { rewrite Hxd. apply Qmult_lt_l; [exact Hx|].
    rewrite <- pow2_inject by lia. rewrite <- Zlt_Qlt.
    replace (b + 1) with (Z.succ b) by lia. exact Hd2. }
  assert (2 ^ a <= inject_Z n)%Q as Hn1'
    by (rewrite <- pow2_inject by exact Ha; rewrite <- Zle_Qle; exact Hn1).
  assert (inject_Z n < 2 ^ (a + 1))%Q as Hn2'.
  { rewrite <- pow2_inject by lia. rewrite <- Zlt_Qlt.
    replace (a + 1) with (Z.succ a) by lia. exact Hn2. }
  assert (x < 2 ^ (a - b + 1))%Q as Hup.
  { apply (Qmult_lt_r _ _ (2 ^ b)); [apply pow2_pos|].
    rewrite <- pow2_add. replace (a - b + 1 + b) with (a + 1) by lia.
    eapply Qle_lt_trans; eassumption. }
  assert (2 ^ (a - b - 1) < x)%Q as Hdown.
  { apply (Qmult_lt_r _ _ (2 ^ (b + 1))); [apply pow2_pos|].
    rewrite <- pow2_add. replace (a - b - 1 + (b + 1)) with a by lia.
    eapply Qle_lt_trans; eassumption. }
  destruct (Qle_bool (2 ^ (a - b)) x) eqn:E.
  - apply Qle_bool_iff in E. split; [exact E | exact Hup].
  - split; [apply Qlt_le_weak, Hdown|].
    replace (a - b - 1 + 1) with (a - b) by lia.
    apply Qnot_le_lt. intros H. apply Qle_bool_iff in H. congruence.
Qed.

Lemma ilog2_mono x y : (0 < x)%Q → (x <= y)%Q → ilog2 x <= ilog2 y.
Proof.
  intros Hx H. destruct (ilog2_spec x Hx) as [H1 _].
  destruct (ilog2_spec y) as [_ H2]; [lra|].
  assert (ilog2 x < ilog2 y + 1); [|lia].
  apply (Qpower_lt_compat_l_inv 2); [|reflexivity]. lra.
Qed.

Lemma ulp_exponent_mono x y :
  (0 < x)%Q → (x <= y)%Q → ulp_exponent x <= ulp_exponent y.
Proof.
  intros H0 H. unfold ulp_exponent.
  assert (ilog2 (Qabs x) <= ilog2 (Qabs y)); [|lia].
  apply ilog2_mono; rewrite !Qabs_pos by lra; assumption.
Qed.

(** A number lies below 2^53 units of its spacing. *)
Lemma below_53_ulps x : (0 <= x)%Q → (x < 2 ^ (53 + ulp_exponent x))%Q.
Proof.
  intros H0. destruct (Qle_lt_or_eq _ _ H0) as [Hx|Hx].
  - assert (Qabs x == x)%Q as Ea by (apply Qabs_pos, H0).
    destruct (ilog2_spec (Qabs x)) as [_ H2]; [lra|].
    eapply Qlt_le_trans; [rewrite <- Ea; exact H2|].
    apply pow2_le. unfold ulp_exponent. lia.
  - apply Qle_lt_trans with 0%Q; [lra | apply pow2_pos].
Qed.

(** Above the smallest spacing, a number is at least 2^52 units. *)
Lemma above_52_ulps x :
  (0 < x)%Q → -1074 < ulp_exponent x → (2 ^ (52 + ulp_exponent x) <= x)%Q.
Proof.
  intros H0 He. assert (Qabs x == x)%Q as Ea by (apply Qabs_pos; lra).
  destruct (ilog2_spec (Qabs x)) as [H1 _]; [lra|].
  unfold ulp_exponent in *.
  replace (52 + Z.max (-1074) (ilog2 (Qabs x) - 52)) with (ilog2 (Qabs x))
    by lia.
  rewrite <- Ea at 2. exact H1.
Qed.

Lemma rne_ulps x : (0 <= x)%Q → 0 <= rne (x / ulp x) <= 2 ^ 53.
Proof.
  intros H0. pose proof (ulp_pos x) as Hu. split.
  - rewrite <- (rne_inject 0) at 1. apply rne_mono.
    apply Qle_shift_div_l; [exact Hu|]. change (inject_Z 0) with 0%Q. lra.
  - rewrite <- (rne_inject (2 ^ 53)). apply rne_mono.
    apply Qle_shift_div_r; [exact Hu|]. rewrite pow2_inject by lia.
    unfold ulp. rewrite <- pow2_add. apply Qlt_le_weak, below_53_ulps, H0.
Qed.

Lemma fl_le_53_ulps x : (0 <= x)%Q → (fl x <= 2 ^ (53 + ulp_exponent x))%Q.
Proof.
  intros H0. rewrite fl_value, pow2_add. fold (ulp x).
  apply Qmult_le_compat_r; [|apply Qlt_le_weak, ulp_pos].
  rewrite <- pow2_inject by lia. rewrite <- Zle_Qle. apply rne_ulps, H0.
Qed.

Lemma fl_ge_52_ulps x :
  (0 < x)%Q → -1074 < ulp_exponent x → (2 ^ (52 + ulp_exponent x) <= fl x)%Q.
Proof.
  intros H0 He. rewrite fl_value, pow2_add. fold (ulp x).
  apply Qmult_le_compat_r; [|apply Qlt_le_weak, ulp_pos].
  rewrite <- pow2_inject by lia. rewrite <- Zle_Qle.
  rewrite <- (rne_inject (2 ^ 52)). apply rne_mono.
  apply Qle_shift_div_l; [apply ulp_pos|]. rewrite pow2_inject by lia.
  unfold ulp. rewrite <- pow2_add. apply above_52_ulps; assumption.
Qed.

Lemma fl_zero x : (x == 0)%Q → (fl x == 0)%Q.
Proof.
  intros E. rewrite fl_value.
  assert (rne (x / ulp x) = 0) as ->; [|apply Qmult_0_l].
  pose proof (ulp_pos x) as Hu.
  assert (inject_Z 0 <= x / ulp x)%Q as H1.
  { apply Qle_shift_div_l; [exact Hu|]. change (inject_Z 0) with 0%Q.
    generalize dependent (ulp x). intros u _. lra. }
  assert (x / ulp x <= inject_Z 0)%Q as H2.
  { apply Qle_shift_div_r; [exact Hu|]. change (inject_Z 0) with 0%Q.
    generalize dependent (ulp x). intros u _ _. lra. }
  pose proof (rne_mono _ _ H1) as H3. pose proof (rne_mono _ _ H2) as H4.
  rewrite rne_inject in H3, H4. lia.
Qed.

Lemma fl_nonneg x : (0 <= x)%Q → (0 <= fl x)%Q.
Proof.
  intros H. rewrite fl_value.
  apply Qmult_le_0_compat; [|apply Qlt_le_weak, ulp_pos].
  change 0%Q with (inject_Z 0). rewrite <- Zle_Qle. apply rne_ulps, H.
Qed.

(** Rounding keeps the order. *)
Lemma fl_mono x y : (0 <= x)%Q → (x <= y)%Q → (fl x <= fl y)%Q.
Proof.
  intros H0 H. assert (0 <= y)%Q as Hy by lra.
  destruct (Qle_lt_or_eq _ _ H0) as [Hx|Hx].
  - pose proof (ulp_exponent_mono x y Hx H) as He.
    destruct (decide (ulp_exponent x = ulp_exponent y)) as [E|E].
    + rewrite !fl_value. unfold ulp. rewrite E. fold (ulp y).
      apply Qmult_le_compat_r; [|apply Qlt_le_weak, ulp_pos].
      rewrite <- Zle_Qle. apply rne_mono.
      apply Qmult_le_compat_r; [exact H|].
      apply Qlt_le_weak, Qinv_lt_0_compat, ulp_pos.
    + eapply Qle_trans; [apply fl_le_53_ulps, H0|].
      eapply Qle_trans; [|apply fl_ge_52_ulps; [lra|]].
      * apply pow2_le. lia.
      * assert (-1074 <= ulp_exponent x) by (unfold ulp_exponent; lia). lia.
  - rewrite (fl_zero x) by (symmetry; exact Hx). apply fl_nonneg, Hy.
Qed.

(** A rounded number that is at least [2^k] is a multiple of [2^(k-52)]. *)
Lemma fl_grid x k :
  (0 <= x)%Q → (2 ^ k <= fl x)%Q →
  ∃ n : Z, (fl x == inject_Z n * 2 ^ (k - 52))%Q.
Proof.
  intros H0 Hk. pose proof (rne_ulps x H0) as [HM0 HM].
  pose proof (fl_value x) as Hv. unfold ulp in Hv at 2.
  set (M := rne (x / ulp x)) in *. set (e := ulp_exponent x) in *.
  destruct (decide (M = 2 ^ 53)) as [EM|NM].
  - assert (fl x == 2 ^ (53 + e))%Q as Hfl.
    { rewrite Hv, EM, pow2_inject by lia. symmetry. apply pow2_add. }
    assert (k <= 53 + e) as Hke.
    { apply (Qpower_le_compat_l_inv 2); [|reflexivity]. rewrite <- Hfl. exact Hk. }
    exists (2 ^ (53 + e - (k - 52))).
    rewrite Hfl, pow2_inject by lia. rewrite <- pow2_add. f_equiv. lia.
  - assert (k < 53 + e) as Hke.
    { apply (Qpower_lt_compat_l_inv 2); [|reflexivity].
      eapply Qle_lt_trans; [exact Hk|]. rewrite Hv, pow2_add.
      apply Qmult_lt_r; [apply pow2_pos|].
      rewrite <- pow2_inject by lia. rewrite <- Zlt_Qlt. lia. }
    exists (M * 2 ^ (e - (k - 52))).
    rewrite Hv, inject_Z_mult, pow2_inject by lia.
    rewrite <- Qmult_assoc, <- pow2_add. f_equiv. f_equiv. lia.
Qed.

(** ** The wheel *)

Lemma Qltb_lt x y : Qltb x y = true ↔ (x < y)%Q.
Proof.
  unfold Qltb. rewrite negb_true_iff. split.
  - intros H. apply Qnot_le_lt. intros Hle.
    apply Qle_bool_iff in Hle. congruence.
  - intros H. destruct (Qle_bool y x) eqn:E; [|reflexivity].
    apply Qle_bool_iff in E. exfalso. exact (Qlt_not_le _ _ H E).
Qed.

Lemma Qltb_ge x y : Qltb x y = false ↔ (y <= x)%Q.
Proof.
  unfold Qltb. rewrite negb_false_iff. apply Qle_bool_iff.
Qed.

Lemma py_int_floor x : (0 <= x)%Q → py_int x = Qfloor x.
Proof.
  destruct x as [n d]. unfold Qle, py_int, Qfloor. simpl. intros H.
  apply Z.quot_div_nonneg; lia.
Qed.

Lemma inject_Z_minus (x y : Z) :
  inject_Z (x - y) = (inject_Z x - inject_Z y)%Q.
Proof.
  unfold Z.sub, Qminus. rewrite inject_Z_plus, inject_Z_opp. reflexivity.
Qed.

Lemma Qfloor_unique x (k : Z) :
  (inject_Z k <= x)%Q → (x < inject_Z (k + 1))%Q → Qfloor x = k.
Proof.
  intros H1 H2.
  pose proof (Qfloor_resp_le _ _ H1) as H3. rewrite Qfloor_Z in H3.
  pose proof (Qfloor_le x) as H4.
  assert (inject_Z (Qfloor x) < inject_Z (k + 1))%Q as H5
    by (eapply Qle_lt_trans; eassumption).
  rewrite <- Zlt_Qlt in H5. lia.
Qed.

(** The remainder of an angle that is not negative is exact. *)
Lemma py_mod_360 a :
  (0 <= a)%Q →
  (py_mod a 360 == a - 360 * inject_Z (Qfloor (a / 360)))%Q ∧
  (0 <= py_mod a 360)%Q ∧ (py_mod a 360 < 360)%Q ∧ (py_mod a 360 <= a)%Q.
Proof.
  intros H0.
  assert (0 <= a / 360)%Q as Hq.
  { unfold Qdiv. change (/ 360)%Q with (1 # 360)%Q. lra. }
  pose proof (Qfloor_le (a / 360)) as H1.
  pose proof (Qlt_floor (a / 360)) as H2.
  rewrite inject_Z_plus in H2. change (inject_Z 1) with 1%Q in H2.
  assert (0 <= Qfloor (a / 360)) as Hf
    by (change 0 with (Qfloor 0); apply Qfloor_resp_le, Hq).
  assert (0 <= inject_Z (Qfloor (a / 360)))%Q as Hf'
    by (change 0%Q with (inject_Z 0); rewrite <- Zle_Qle; exact Hf).
  assert (a == 360 * (a / 360))%Q as E by field.
  unfold py_mod, fmod. rewrite (py_int_floor _ Hq).
  set (t := (a / 360)%Q) in *. set (f := inject_Z (Qfloor t)) in *.
  assert (Qltb 360 0 = false) as -> by reflexivity.
  assert (Qltb (a - 360 * f) 0 = false) as -> by (apply Qltb_ge; lra).
  simpl xorb. cbv zeta.
  destruct (Qeq_bool (a - 360 * f) 0) eqn:Ez.
  - apply Qeq_bool_iff in Ez. repeat split; lra.
  - repeat split; lra.
Qed.

Lemma segment_bounds k :
  0 <= k < 12 →
  (inject_Z k <= fl (fl (inject_Z (30 * k) / 360) * 12))%Q ∧
  (fl (fl ((inject_Z (30 * (k + 1)) - (1 # 2 ^ 44)) / 360) * 12)
   < inject_Z (k + 1))%Q.
Proof.
  intros Hk.
  assert (k = 0 ∨ k = 1 ∨ k = 2 ∨ k = 3 ∨ k = 4 ∨ k = 5 ∨ k = 6 ∨ k = 7 ∨
          k = 8 ∨ k = 9 ∨ k = 10 ∨ k = 11) as H by lia.
  repeat (destruct H as [->|H];
          [split; [apply Qle_bool_iff | apply Qltb_lt]; vm_compute; reflexivity|]).
  subst k. split; [apply Qle_bool_iff | apply Qltb_lt]; vm_compute; reflexivity.
Qed.

Lemma small_angle_bound : (fl (fl (256 / 360) * 12) < 12)%Q.
Proof. apply Qltb_lt. vm_compute. reflexivity. Qed.

Lemma div_360_le x y : (x <= y)%Q → (x / 360 <= y / 360)%Q.
Proof. intros H. unfold Qdiv. change (/ 360)%Q with (1 # 360)%Q. lra. Qed.

Lemma div_360_nonneg x : (0 <= x)%Q → (0 <= x / 360)%Q.
Proof. intros H. unfold Qdiv. change (/ 360)%Q with (1 # 360)%Q. lra. Qed.

Lemma segment_mono x y :
  (0 <= x)%Q → (x <= y)%Q →
  (fl (fl (x / 360) * 12) <= fl (fl (y / 360) * 12))%Q.
Proof.
  intros H0 H. pose proof (fl_nonneg _ (div_360_nonneg x H0)) as H1.
  pose proof (fl_mono _ _ (div_360_nonneg x H0) (div_360_le x y H)) as H2.
  apply fl_mono; lra.
Qed.

(** On the grid of the angles from 256 on, the segment is the one the
    angle lies in. *)
Lemma landing_segment_exact a n :
  (0 <= a)%Q → (a == inject_Z n * 2 ^ (-44))%Q →
  landing_segment a = Qfloor (py_mod a 360 / (360 / 12)) ∧
  0 <= landing_segment a < 12.
Proof.
  intros H0 Hgrid. destruct (py_mod_360 a H0) as (Hr & Hr0 & Hr360 & _).
  unfold landing_segment. cbv zeta.
  change (inject_Z (Z.of_nat (length WHEEL_VALUES))) with 12%Q.
  set (r := py_mod a 360) in *.
  set (k := Qfloor (r / (360 / 12))).
  assert (r / (360 / 12) == r * (1 # 30))%Q as E30 by (field).
  pose proof (Qfloor_le (r / (360 / 12))) as Hk1.
  pose proof (Qlt_floor (r / (360 / 12))) as Hk2.
  fold k in Hk1, Hk2. rewrite E30 in Hk1, Hk2.
  assert (0 <= k < 12) as Hk.
  { split.
    - change 0 with (Qfloor 0). apply Qfloor_resp_le. rewrite E30. lra.
    - assert (inject_Z k < inject_Z 12)%Q as H; [|rewrite <- Zlt_Qlt in H; exact H].
      change (inject_Z 12) with 12%Q. lra. }
  (* the grid *)
  set (R := n - 360 * 2 ^ 44 * Qfloor (a / 360)).
  change (2 ^ (-44))%Q with (1 # 17592186044416)%Q in Hgrid.
  assert (inject_Z R == r * 17592186044416)%Q as HR.
  { unfold R. rewrite inject_Z_minus, !inject_Z_mult.
    change (inject_Z (2 ^ 44)) with 17592186044416%Q.
    change (inject_Z 360) with 360%Q.
    generalize dependent (inject_Z (Qfloor (a / 360))).
    generalize dependent (inject_Z n). intros qn Hqn qf Hqf. lra. }
  assert (R < 30 * (k + 1) * 2 ^ 44) as HRlt.
  { rewrite Zlt_Qlt. rewrite !inject_Z_mult, HR.
    rewrite inject_Z_plus in Hk2 |- *.
    change (inject_Z (2 ^ 44)) with 17592186044416%Q.
    change (inject_Z 30) with 30%Q. change (inject_Z 1) with 1%Q in *.
    generalize dependent (inject_Z k). intros q _ Hq. lra. }
  assert (r <= inject_Z (30 * (k + 1)) - (1 # 2 ^ 44))%Q as Hhi.
  { assert (R <= 30 * (k + 1) * 2 ^ 44 - 1) as H by lia.
    rewrite Zle_Qle in H. rewrite inject_Z_minus, !inject_Z_mult, HR in H.
    rewrite inject_Z_mult.
    change (inject_Z (2 ^ 44)) with 17592186044416%Q in H.
    change (1 # 2 ^ 44)%Q with (1 # 17592186044416)%Q.
    change (inject_Z 30) with 30%Q in *. change (inject_Z 1) with 1%Q in H.
    generalize dependent (inject_Z (k + 1)). intros q' Hq. lra. }
  assert (inject_Z (30 * k) <= r)%Q as Hlo.
  { rewrite inject_Z_mult. change (inject_Z 30) with 30%Q.
    generalize dependent (inject_Z k). intros q. intros. lra. }
  destruct (segment_bounds k Hk) as [Hb1 Hb2].
  assert (0 <= inject_Z (30 * k))%Q as Hk0
    by (change 0%Q with (inject_Z 0); rewrite <- Zle_Qle; lia).
  pose proof (segment_mono _ _ Hk0 Hlo) as Hm1.
  pose proof (segment_mono _ _ Hr0 Hhi) as Hm2.
  set (t := fl (fl (r / 360) * 12)) in *.
  assert (inject_Z k <= t)%Q as Ht1 by (eapply Qle_trans; eassumption).
  assert (t < inject_Z (k + 1))%Q as Ht2 by (eapply Qle_lt_trans; eassumption).
  assert (0 <= t)%Q as Ht0.
  { eapply Qle_trans; [|exact Ht1]. change 0%Q with (inject_Z 0).
    rewrite <- Zle_Qle. lia. }
  rewrite (py_int_floor _ Ht0), (Qfloor_unique t k Ht1 Ht2). auto.
Qed.

(** The segment of a rounded angle is an index of the table. *)
Lemma landing_segment_range z :
  (0 <= z)%Q → 0 <= landing_segment (fl z) < 12.
Proof.
  intros Hz. pose proof (fl_nonneg z Hz) as H0.
  destruct (Qlt_le_dec (fl z) 256) as [Hs|Hb].
  - destruct (py_mod_360 (fl z) H0) as (_ & Hr0 & _ & Hra).
    unfold landing_segment. cbv zeta.
    change (inject_Z (Z.of_nat (length WHEEL_VALUES))) with 12%Q.
    set (r := py_mod (fl z) 360) in *.
    assert (r <= 256)%Q as Hr by lra.
    pose proof (segment_mono _ _ Hr0 Hr) as Hm.
    pose proof small_angle_bound as Hc.
    pose proof (fl_nonneg _ (div_360_nonneg r Hr0)) as H1.
    assert (0 <= fl (fl (r / 360) * 12))%Q as Ht0 by (apply fl_nonneg; lra).
    set (t := fl (fl (r / 360) * 12)) in *.
    rewrite (py_int_floor _ Ht0). split.
    + change 0 with (Qfloor 0). apply Qfloor_resp_le, Ht0.
    + pose proof (Qfloor_le t) as Hf.
      assert (inject_Z (Qfloor t) < inject_Z 12)%Q as H;
        [|rewrite <- Zlt_Qlt in H; exact H].
      change (inject_Z 12) with 12%Q. lra.
  - destruct (fl_grid z 8 Hz) as [n Hn]; [exact Hb|].
    apply (landing_segment_exact (fl z) n H0 Hn).
Qed.

Lemma py_index_in_range {A} (seq : list A) i :
  0 <= i < Z.of_nat (length seq) →
  ∃ x, py_index seq i = Some x ∧ seq !! Z.to_nat i = Some x ∧ x ∈ seq.
Proof.
  intros H. unfold py_index.
  assert ((0 <=? i) && (i <? Z.of_nat (length seq)) = true) as ->
    by (apply andb_true_iff; split; [apply Z.leb_le | apply Z.ltb_lt]; lia).
  destruct (lookup_lt_is_Some_2 seq (Z.to_nat i)) as [x Hx]; [lia|].
  exists x. split; [exact Hx|]. split; [exact Hx|].
  eapply list_elem_of_lookup_2, Hx.
Qed.

Lemma py_index_elem {A} (seq : list A) i x :
  py_index seq i = Some x → x ∈ seq.
Proof.
  unfold py_index. repeat case_match; try discriminate;
    apply list_elem_of_lookup_2.
Qed.

(** The frame that stops the wheel. *)
Lemma update_wheel_lands g v :
  wheel_spinning g = true →
  Qltb (fl (wheel_speed g * DECELERATION)) STOP_SPEED = true →
  py_index WHEEL_VALUES
    (landing_segment (fl (wheel_angle g + wheel_speed g))) = Some v →
  update_wheel g =
  Some (set_message ("Landed on $" ++ str_of_int v ++ "!")
          (set_can_guess true
             (set_current_value v
                (set_wheel (fl (wheel_angle g + wheel_speed g)) false
                   (fl (wheel_speed g * DECELERATION)) g)))).
Proof. intros Hs Hq Hi. unfold update_wheel. rewrite Hs, Hq, Hi. reflexivity. Qed.

(** A frame leaves everything but the wheel, its value and the message. *)
Lemma update_wheel_same_round g g' :
  update_wheel g = Some g' → same_round g g'.
Proof.
  unfold update_wheel.
  destruct (wheel_spinning g); [|intros [= <-]; repeat split].
  destruct (Qltb _ _); [|intros [= <-]; repeat split].
  destruct (py_index _ _); simpl; [intros [= <-]; repeat split | discriminate].
Qed.

(** [update_wheel] does not raise when angle and speed are not negative. *)
Lemma update_wheel_total g :
  (0 <= wheel_angle g)%Q → (0 <= wheel_speed g)%Q → is_Some (update_wheel g).
Proof.
  intros Ha Hs. unfold update_wheel. destruct (wheel_spinning g); [|eauto].
  destruct (Qltb _ _); [|eauto].
  assert (0 <= wheel_angle g + wheel_speed g)%Q as H0 by lra.
  pose proof (landing_segment_range _ H0) as H.
  destruct (py_index_in_range WHEEL_VALUES _ H) as (v & -> & _). simpl. eauto.
Qed.

(** ** The invariant *)

Lemma wheel_values_nonneg v : v ∈ WHEEL_VALUES → 0 <= v.
Proof.
  unfold WHEEL_VALUES. rewrite !elem_of_cons, elem_of_nil. intros H.
  repeat (destruct H as [->|H]; [lia|]). destruct H.
Qed.

Lemma new_puzzle_Inv rnd g g' :
  puzzles_ok (puzzles g) → 0 <= score g →
  new_puzzle rnd g = Some g' → Inv g' ∧ score g' = score g.
Proof.
  intros Hpz Hs H.
  apply new_puzzle_Some in H as (cat & phs & ph & _ & _ & ->).
  split; [|reflexivity]. repeat split; simpl; try lia; try apply Hpz.
  unfold board_ok; simpl. apply hide_length.
Qed.

Lemma update_wheel_Inv g g' : Inv g → update_wheel g = Some g' → Inv g'.
Proof.
  intros (Hpz & Hok & Hs & Hv). unfold update_wheel.
  destruct (wheel_spinning g); [|intros [= <-]; repeat split; auto; apply Hpz].
  destruct (Qltb _ _).
  - destruct (py_index _ _) as [v|] eqn:E; [|discriminate].
    apply py_index_elem, wheel_values_nonneg in E.
    simpl. intros [= <-]. repeat split; simpl; auto; apply Hpz.
  - intros [= <-]. repeat split; simpl; auto; apply Hpz.
Qed.

Lemma guess_letter_Inv rnd letter p g :
  Inv g → ∃ g', guess_letter rnd letter p g = Some g' ∧ Inv g'.
Proof.
  intros (Hpz & Hok & Hs & Hv).
  destruct (guess_letter_cases rnd letter p g Hok)
    as [[m ->]|[->|(ga & Hrules & Ha & Hcases)]].
  - eexists. split; [reflexivity|]. repeat split; simpl; auto; apply Hpz.
  - eexists. split; [reflexivity|]. repeat split; simpl; auto; apply Hpz.
  - assert (puzzles ga = puzzles g ∧ current_puzzle ga = current_puzzle g ∧
            0 <= score ga ∧ current_value ga = current_value g) as (Hp & Hcp & Hsa & Hva).
    { apply check_rules_accepted in Hrules as [(_ & _ & Hc & ->)|(_ & _ & ->)];
        simpl; repeat split; auto; lia. }
    destruct Hcases as [(_ & ->)|(_ & rv & _ & Hlen & _ & ->)].
    + eexists. split; [reflexivity|]. unfold after_miss.
      repeat split; simpl; try lia; rewrite ?Hp; try apply Hpz.
      unfold board_ok. simpl.
      apply check_rules_frame in Hrules as (-> & -> & _). exact Hok.
    + assert (0 <= score (after_hit (upper letter) rv ga)) as Hsh.
      { rewrite after_hit_score. case_decide; [lia|].
        pose proof (str_count_nonneg (upper letter) (current_puzzle ga)). nia. }
      assert (puzzles (after_hit (upper letter) rv ga) = puzzles g) as Hph.
      { unfold after_hit. simpl.
        destruct (award_frame (upper letter)
                    (str_count (upper letter) (current_puzzle ga))
                    (set_guessed_letters
                       ({[upper letter]} ∪ guessed_letters ga) ga))
          as (_ & _ & -> & _). exact Hp. }
      assert (puzzles_ok
                (puzzles (after_solve (after_hit (upper letter) rv ga))))
        as Hpzs.
      { change (puzzles_ok (puzzles (after_hit (upper letter) rv ga))).
        rewrite Hph. exact Hpz. }
      destruct (solved rv).
      * destruct (new_puzzle_total rnd _ Hpzs) as [g' Hg'].
        exists g'. split; [exact Hg'|].
        eapply new_puzzle_Inv; [exact Hpzs| |exact Hg'].
        change (0 <= score (after_hit (upper letter) rv ga) + 1000). lia.
      * eexists. split; [reflexivity|].
        split; [rewrite Hph; exact Hpz|]. split.
        { unfold board_ok, after_hit. simpl.
          destruct (award_frame (upper letter)
                      (str_count (upper letter) (current_puzzle ga))
                      (set_guessed_letters
                         ({[upper letter]} ∪ guessed_letters ga) ga))
            as (-> & _). simpl. rewrite Hlen, Hcp. exact Hok. }
        split; [exact Hsh|]. apply after_hit_value. lia.
Qed.

Lemma step_Inv_Some op g g' : Inv g → step op g = Some g' → Inv g'.
Proof.
  intros HI. destruct op as [rnd|u| | |rnd letter p|]; simpl.
  - destruct HI as (Hpz & Hok & Hs & Hv). intros H.
    eapply new_puzzle_Inv; eauto.
  - intros [= <-]. destruct HI as (Hpz & Hok & Hs & Hv).
    unfold spin_wheel. case_match; repeat split; simpl; auto; apply Hpz.
  - apply update_wheel_Inv, HI.
  - intros [= <-]. destruct HI as (Hpz & Hok & Hs & Hv).
    unfold buy_vowel. repeat case_match; repeat split; simpl; auto; apply Hpz.
  - destruct (guess_letter_Inv rnd letter p g HI) as (g1 & Hg1 & HI1).
    congruence.
  - intros [= <-]. destruct HI as (Hpz & Hok & Hs & Hv).
    repeat split; simpl; auto; apply Hpz.
Qed.

(** ** The wheel of a game *)

Lemma wheel_ok_same g g' : same_wheel g g' → wheel_ok g → wheel_ok g'.
Proof. unfold wheel_ok. intros (-> & -> & ->) H. exact H. Qed.

Lemma new_puzzle_wheel rnd g g' : new_puzzle rnd g = Some g' → same_wheel g g'.
Proof.
  intros H. apply new_puzzle_Some in H as (cat & phs & ph & _ & _ & ->).
  repeat split.
Qed.

Lemma check_rules_wheel letter p g :
  match check_rules letter p g with
  | Rejected g' | Accepted g' => same_wheel g g'
  end.
Proof.
  unfold check_rules. case_decide.
  - destruct (negb p); [repeat split|].
    destruct (score g <? VOWEL_COST); repeat split.
  - destruct (negb (can_guess g)); repeat split.
Qed.

Lemma resolve_guess_wheel rnd letter g g' :
  resolve_guess rnd letter g = Some g' → same_wheel g g'.
Proof.
  unfold resolve_guess. cbv zeta. destruct (str_in _ _).
  - destruct (reveal _ _ _) as [rv|]; [|discriminate]. simpl.
    destruct (solved rv).
    + intros H. apply new_puzzle_wheel in H as (Ha & Hs & Hp).
      unfold award in Ha, Hs, Hp. case_decide; repeat split; assumption.
    + intros [= <-]. unfold award. case_decide; repeat split.
  - intros [= <-]. repeat split.
Qed.

Lemma guess_letter_wheel rnd letter p g g' :
  guess_letter rnd letter p g = Some g' → same_wheel g g'.
Proof.
  unfold guess_letter. cbv zeta.
  case_decide as Hin; [intros [= <-]; repeat split|].
  destruct (negb _); [intros [= <-]; repeat split|].
  pose proof (check_rules_wheel (upper letter) p g) as Hc.
  destruct (check_rules (upper letter) p g) as [gr|ga].
  - intros [= <-]. exact Hc.
  - intros Hres. apply resolve_guess_wheel in Hres.
    destruct Hc as (Ha & Hs & Hp), Hres as (Ha' & Hs' & Hp').
    repeat split; congruence.
Qed.

Lemma speed_after_nonneg k s : (0 <= s)%Q → (0 <= speed_after k s)%Q.
Proof.
  intros H. induction k as [|k IH]; [exact H|]. simpl.
  apply fl_nonneg. apply Qmult_le_0_compat; [exact IH | discriminate].
Qed.

Lemma speed_after_mono k : ∀ s s', (0 <= s)%Q → (s <= s')%Q →
  (speed_after k s <= speed_after k s')%Q.
Proof.
  induction k as [|k IH]; intros s s' H0 H; [exact H|]. simpl.
  apply fl_mono.
  - apply Qmult_le_0_compat; [apply speed_after_nonneg, H0 | discriminate].
  - apply Qmult_le_compat_r; [apply IH; assumption | discriminate].
Qed.

Lemma speed_after_S k s :
  speed_after (S k) s = speed_after k (fl (s * DECELERATION)).
Proof. unfold speed_after. rewrite Nat.iter_succ_r. reflexivity. Qed.

Lemma slowest_spin_speed k : (slowest_spin k).2 = speed_after k 15.
Proof. induction k as [|k IH]; [reflexivity|]. simpl. rewrite IH. reflexivity. Qed.

Lemma slowest_spin_nonneg k : (0 <= (slowest_spin k).1)%Q.
Proof.
  induction k as [|k IH]; [apply Qle_refl|]. simpl. apply fl_nonneg.
  rewrite slowest_spin_speed.
  pose proof (speed_after_nonneg k 15 ltac:(discriminate)). lra.
Qed.

Lemma keeps_turning_spec n : ∀ s,
  keeps_turning n s = true →
  ∀ j, (j < n)%nat → (STOP_SPEED <= speed_after j s)%Q.
Proof.
  induction n as [|n IH]; intros s H j Hj; [lia|].
  simpl in H. apply andb_true_iff in H as [H1 H2].
  destruct j as [|j]; [apply Qle_bool_iff, H1|].
  rewrite speed_after_S. apply IH; [exact H2 | lia].
Qed.

(** The slowest spin turns for 248 frames. *)
Lemma slowest_spin_turns j :
  (j ≤ 248)%nat → (STOP_SPEED <= speed_after j 15)%Q.
Proof.
  intros Hj. apply (keeps_turning_spec 249); [vm_compute; reflexivity | lia].
Qed.

Lemma slowest_spin_far : (256 <= (slowest_spin 21).1)%Q.
Proof. apply Qle_bool_iff. vm_compute. reflexivity. Qed.

Lemma random_random_range u :
  (0 <= random_random u)%Q ∧ (random_random u <= 1)%Q.
Proof.
  unfold random_random.
  pose proof (Z.mod_pos_bound (Z.of_N u) (2 ^ 53) ltac:(lia)) as [H1 H2].
  set (k := Z.of_N u mod 2 ^ 53) in *.
  assert (0 < inject_Z (2 ^ 53))%Q as Hp by reflexivity.
  split.
  - apply Qle_shift_div_l; [exact Hp|]. rewrite Qmult_0_l.
    change 0%Q with (inject_Z 0). rewrite <- Zle_Qle. exact H1.
  - apply Qle_shift_div_r; [exact Hp|]. rewrite Qmult_1_l.
    rewrite <- Zle_Qle. lia.
Qed.

Lemma random_uniform_range u :
  (15 <= random_uniform 15 25 u)%Q ∧ (random_uniform 15 25 u <= 25)%Q.
Proof.
  unfold random_uniform. destruct (random_random_range u) as [H0 H1].
  change (inject_Z (25 - 15)) with 10%Q. change (inject_Z 15) with 15%Q.
  set (r := random_random u) in *.
  assert (0 <= fl (10 * r))%Q as Hlo by (apply fl_nonneg; lra).
  assert (fl (10 * r) <= 10)%Q as Hhi.
  { apply Qle_trans with (fl 10); [apply fl_mono; lra|].
    apply Qle_bool_iff. vm_compute. reflexivity. }
  split.
  - apply Qle_trans with (fl 15); [|apply fl_mono; lra].
    apply Qle_bool_iff. vm_compute. reflexivity.
  - apply Qle_trans with (fl 25); [apply fl_mono; lra|].
    apply Qle_bool_iff. vm_compute. reflexivity.
Qed.

Lemma fl_256 : (256 <= fl 256)%Q.
Proof. apply Qle_bool_iff. vm_compute. reflexivity. Qed.

Lemma speed_step s :
  (0 <= s)%Q → (s <= 25)%Q →
  (0 <= fl (s * DECELERATION))%Q ∧ (fl (s * DECELERATION) <= 25)%Q.
Proof.
  intros H0 H. assert (0 <= s * DECELERATION)%Q as Hp
    by (apply Qmult_le_0_compat; [exact H0 | discriminate]).
  split; [apply fl_nonneg, Hp|].
  apply Qle_trans with (fl (25 * DECELERATION)).
  - apply fl_mono; [exact Hp|].
    apply Qmult_le_compat_r; [exact H | discriminate].
  - apply Qle_bool_iff. vm_compute. reflexivity.
Qed.

Lemma angle_step a s :
  (0 <= a)%Q → (a <= inject_Z (2 ^ 59))%Q → (0 <= s)%Q → (s <= 25)%Q →
  (0 <= fl (a + s))%Q ∧ (fl (a + s) <= inject_Z (2 ^ 59))%Q.
Proof.
  intros Ha0 Ha Hs0 Hs. split; [apply fl_nonneg; lra|].
  apply Qle_trans with (fl (inject_Z (2 ^ 59) + 25)).
  - apply fl_mono; lra.
  - apply Qle_bool_iff. vm_compute. reflexivity.
Qed.

Lemma spin_wheel_wheel_ok u g : wheel_ok g → wheel_ok (spin_wheel u g).
Proof.
  intros Hw. unfold spin_wheel. case_match; [|exact Hw].
  destruct Hw as (Ha0 & Ha & _ & _ & _).
  destruct (random_uniform_range u) as [H15 H25].
  unfold wheel_ok. simpl.
  split; [exact Ha0|]. split; [exact Ha|]. split; [lra|].
  split; [exact H25|]. intros _. exists 0%nat.
  split; [exact H15|]. split; [intros _; exact Ha0 | lia].
Qed.

(** The wheel after a frame. *)
Lemma turn_wheel_ok g :
  wheel_ok g →
  wheel_ok (set_wheel (fl (wheel_angle g + wheel_speed g)) true
              (fl (wheel_speed g * DECELERATION)) g) ∨
  wheel_spinning g = false.
Proof.
  intros (Ha0 & Ha & Hs0 & Hs & Hk).
  destruct (wheel_spinning g) eqn:Es; [left|right; reflexivity].
  destruct (Hk eq_refl) as (k & Hsp & Hlow & Hhigh).
  destruct (angle_step _ _ Ha0 Ha Hs0 Hs) as [Hb0 Hb].
  destruct (speed_step _ Hs0 Hs) as [Ht0 Ht].
  pose proof (speed_after_nonneg k 15 ltac:(discriminate)) as Hk0.
  unfold wheel_ok. simpl.
  split; [exact Hb0|]. split; [exact Hb|]. split; [exact Ht0|].
  split; [exact Ht|]. intros _. exists (S k). split; [|split].
  - simpl. apply fl_mono.
    + apply Qmult_le_0_compat; [exact Hk0 | discriminate].
    + apply Qmult_le_compat_r; [exact Hsp | discriminate].
  - intros Hle. simpl. rewrite slowest_spin_speed.
    pose proof (slowest_spin_nonneg k). apply fl_mono; [lra|].
    specialize (Hlow ltac:(lia)). lra.
  - intros Hge. destruct (decide (21 ≤ k)%nat) as [H21|H21].
    + specialize (Hhigh H21). eapply Qle_trans; [exact fl_256|].
      apply fl_mono; lra.
    + assert (S k = 21%nat) as E by lia.
      eapply Qle_trans; [exact slowest_spin_far|]. rewrite <- E.
      simpl. rewrite slowest_spin_speed.
      pose proof (slowest_spin_nonneg k). apply fl_mono; [lra|].
      specialize (Hlow ltac:(lia)). lra.
Qed.

Lemma update_wheel_wheel_ok g g' :
  wheel_ok g → update_wheel g = Some g' → wheel_ok g'.
Proof.
  intros Hw. unfold update_wheel.
  destruct (wheel_spinning g) eqn:Es; [|intros [= <-]; exact Hw].
  destruct (turn_wheel_ok g Hw) as [(Ha0 & Ha & Hs0 & Hs & _)|E];
    [|congruence].
  simpl in Ha0, Ha, Hs0, Hs.
  destruct (Qltb _ _) eqn:Estop.
  - destruct (py_index _ _) as [v|]; [|discriminate]. simpl. intros [= <-].
    unfold wheel_ok. simpl. repeat split; try assumption. discriminate.
  - intros [= <-]. destruct (turn_wheel_ok g Hw) as [H|E]; [exact H|congruence].
Qed.

(** The wheel stops beyond the angle 256. *)
Lemma stop_angle g :
  wheel_ok g → wheel_spinning g = true →
  (fl (wheel_speed g * DECELERATION) < STOP_SPEED)%Q →
  (256 <= fl (wheel_angle g + wheel_speed g))%Q.
Proof.
  intros (Ha0 & _ & Hs0 & _ & Hk) Hspin Hstop.
  destruct (Hk Hspin) as (k & Hsp & _ & Hhigh).
  assert (248 ≤ k)%nat as Hk248.
  { destruct (decide (248 ≤ k)%nat) as [H|H]; [exact H|exfalso].
    pose proof (slowest_spin_turns (S k) ltac:(lia)) as Hturn.
    pose proof (speed_after_nonneg k 15 ltac:(discriminate)) as Hk0.
    assert (speed_after (S k) 15 <= fl (wheel_speed g * DECELERATION))%Q as Hle.
    { simpl. apply fl_mono.
      - apply Qmult_le_0_compat; [exact Hk0 | discriminate].
      - apply Qmult_le_compat_r; [exact Hsp | discriminate]. }
    lra. }
  specialize (Hhigh ltac:(lia)). eapply Qle_trans; [exact fl_256|].
  apply fl_mono; lra.
Qed.

Lemma step_wheel_ok op g g' : wheel_ok g → step op g = Some g' → wheel_ok g'.
Proof.
  intros Hw. destruct op as [rnd|u| | |rnd letter p|]; simpl.
  - intros H. eapply wheel_ok_same; [eapply new_puzzle_wheel, H | exact Hw].
  - intros [= <-]. apply spin_wheel_wheel_ok, Hw.
  - apply update_wheel_wheel_ok, Hw.
  - intros [= <-]. unfold buy_vowel. repeat case_match; exact Hw.
  - intros H. eapply wheel_ok_same; [eapply guess_letter_wheel, H | exact Hw].
  - intros [= <-]. exact Hw.
Qed.

(** Every operation returns and keeps the invariants. *)
Lemma step_Inv op g :
  Inv g → wheel_ok g → ∃ g', step op g = Some g' ∧ Inv g' ∧ wheel_ok g'.
Proof.
  intros HI Hw.
  assert (is_Some (step op g)) as [g' Hg'].
  { destruct op as [rnd|u| | |rnd letter p|]; simpl; eauto.
    - apply new_puzzle_total, HI.
    - apply update_wheel_total; apply Hw.
    - destruct (guess_letter_Inv rnd letter p g HI) as (g1 & -> & _). eauto. }
  exists g'. split; [exact Hg'|].
  split; [eapply step_Inv_Some | eapply step_wheel_ok]; eauto.
Qed.

Lemma run_Inv ops : ∀ g,
  Inv g → wheel_ok g → ∃ g', run ops g = Some g' ∧ Inv g' ∧ wheel_ok g'.
Proof.
  induction ops as [|op ops IH]; intros g HI Hw; simpl.
  - eauto.
  - destruct (step_Inv op g HI Hw) as (g1 & -> & HI1 & Hw1). simpl.
    apply IH; assumption.
Qed.

Lemma run_wheel_ok ops : ∀ g g',
  wheel_ok g → run ops g = Some g' → wheel_ok g'.
Proof.
  induction ops as [|op ops IH]; intros g g' Hw; simpl.
  - intros [= <-]. exact Hw.
  - destruct (step op g) as [g1|] eqn:E; [|discriminate]. simpl.
    apply IH. eapply step_wheel_ok; eauto.
Qed.

Lemma init_wheel_ok pz rnd g : init pz rnd = Some g → wheel_ok g.
Proof.
  intros H. apply new_puzzle_wheel in H.
  eapply wheel_ok_same; [exact H|]. unfold wheel_ok. simpl.
  repeat split; discriminate.
Qed.

Lemma init_Inv pz rnd :
  puzzles_ok pz →
  ∃ g, init pz rnd = Some g ∧ Inv g ∧ score g = 0 ∧ wheel_ok g.
Proof.
  intros Hpz. unfold init.
  set (blank := mkGame pz "" "" [] ∅ 0%Q false 0%Q 0 0 false "" 0 0%nat).
  destruct (new_puzzle_total rnd blank Hpz) as [g Hg].
  exists g. split; [exact Hg|].
  pose proof (init_wheel_ok pz rnd g Hg) as Hw.
  apply new_puzzle_Inv in Hg; [|exact Hpz | simpl; lia].
  destruct Hg as [HI Hs]. auto.
Qed.

Lemma before_stop_reachable : reachable before_stop.
Proof.
  exists default_puzzles, (1, 2)%nat, spin_to_750.
  eexists. split; [vm_compute; reflexivity|]. vm_compute. reflexivity.
Qed.

Lemma reachable_wheel_ok g : reachable g → wheel_ok g.
Proof.
  intros (pz & rnd & ops & g0 & Hinit & Hrun).
  eapply run_wheel_ok; [|exact Hrun]. eapply init_wheel_ok, Hinit.
Qed.

(** ** The layout *)

(** The cells laid out so far are the first positions of the phrase, in
    order, whatever the widths counted. *)
Lemma add_cell_cells width st :
  cells st = seq 0 (char_index st) →
  cells (add_cell width st) = seq 0 (char_index (add_cell width st)).
Proof.
  unfold cells, add_cell. intros H. cbn [rows current_row char_index].
  rewrite seq_S, app_assoc, H. reflexivity.
Qed.

Lemma place_word_cells max_per_row word st :
  cells st = seq 0 (char_index st) →
  cells (place_word max_per_row st word)
  = seq 0 (char_index (place_word max_per_row st word)).
Proof.
  intros H. unfold place_word.
  set (st1 := if _ && _ then _ else st).
  assert (cells st1 = seq 0 (char_index st1)) as H1.
  { subst st1. case_match; [|exact H]. unfold cells in *. simpl.
    rewrite concat_app. simpl. rewrite !app_nil_r. exact H. }
  set (st2 := if Qltb 0 (current_count st1) then _ else st1).
  assert (cells st2 = seq 0 (char_index st2)) as H2.
  { subst st2. case_match; [apply add_cell_cells|]; exact H1. }
  clearbody st2. clear -H2. revert st2 H2.
  induction word as [|c word IH]; intros st2 H2; simpl; [exact H2|].
  apply IH, add_cell_cells, H2.
Qed.

Lemma layout_rows_cells max_per_row phrase :
  ∃ n, concat (layout_rows max_per_row phrase) = seq 0 n.
Proof.
  unfold layout_rows.
  set (st := fold_left _ _ _).
  assert (cells st = seq 0 (char_index st)) as H.
  { subst st.
    assert (∀ words st0,
              cells st0 = seq 0 (char_index st0) →
              let st := fold_left (place_word max_per_row) words st0 in
              cells st = seq 0 (char_index st)) as Hfold.
    { induction words as [|w words IH]; intros st0 H0; simpl; [exact H0|].
      apply IH, place_word_cells, H0. }
    apply Hfold. reflexivity. }
  exists (char_index st). unfold cells in H. destruct (current_row st) eqn:E.
  - rewrite app_nil_r in H. exact H.
  - rewrite concat_app. simpl. rewrite app_nil_r. exact H.
Qed.

(** ** The claims *)

(** C1 (as amended).  A guess of a consonant that occurs in the phrase, made
    while a guess is permitted and the letter is not yet guessed, returns
    with Score increased by wheelValue times the number of occurrences, plus
    the 1000 solve bonus when the guess reveals the last hidden cell;
    wheelValue is reset to 0 and TurnPhase to AWAITING_SPIN. *)
Theorem consonant_hit_score rnd letter p g :
  board_ok g → puzzles_ok (puzzles g) →
  isalpha (upper letter) = true → upper letter ∉ VOWELS →
  upper letter ∉ guessed_letters g →
  turn_phase g = AWAITING_GUESS →
  0 < str_count (upper letter) (current_puzzle g) →
  ∃ g', guess_letter rnd letter p g = Some g' ∧
        score g' = score g
                   + current_value g * str_count (upper letter) (current_puzzle g)
                   + solve_bonus (upper letter) g ∧
        current_value g' = 0 ∧
        turn_phase g' = AWAITING_SPIN.
Proof.
  intros Hok Hpz Ha Hc Hg Hphase Hcount.
  apply turn_phase_guess in Hphase. apply str_count_pos in Hcount.
  assert (check_rules (upper letter) p g = Accepted g) as Hrules.
  { unfold check_rules. rewrite decide_False by exact Hc.
    rewrite Hphase. reflexivity. }
  rewrite (guess_letter_accepted rnd letter p g g Hg Ha Hrules).
  destruct (resolve_hit_cases rnd (upper letter) g Hcount Hok Hpz)
    as (rv & g' & Hrv & Hres & Hscore & Hcases).
  exists g'. split; [exact Hres|].
  destruct (award_consonant (upper letter)
              (str_count (upper letter) (current_puzzle g))
              (set_guessed_letters ({[upper letter]} ∪ guessed_letters g) g) Hc)
    as (Hs & Hv & Hcg).
  split.
  { rewrite Hscore. unfold after_hit. simpl. rewrite Hs. reflexivity. }
  rewrite turn_phase_spin.
  destruct (completes_puzzle (upper letter) g).
  - apply new_puzzle_Some in Hcases as (cat & phs & ph & _ & _ & ->).
    simpl. auto.
  - subst g'. unfold after_hit. simpl. auto.
Qed.

Lemma consonant_hit_score_witness :
  ∃ g', guess_letter (0, 0)%nat "c" false (cat_spun 500 0 "___" "") = Some g' ∧
        score g' = 0 + 500 * 1 + 0 ∧
        current_value g' = 0 ∧ turn_phase g' = AWAITING_SPIN.
Proof.
  apply (consonant_hit_score (0, 0)%nat "c" false (cat_spun 500 0 "___" "")).
  - reflexivity.
  - split; [discriminate | repeat constructor; discriminate].
  - reflexivity.
  - apply (bool_decide_unpack _). vm_compute. exact I.
  - apply (bool_decide_unpack _). vm_compute. exact I.
  - reflexivity.
  - vm_compute. reflexivity.
Defined.

(** C1, as stated, fails: the guess of T that completes CAT on a 600 wheel
    brings Score from 250 to 1850, not to 250 + 600 * 1. *)
Lemma consonant_hit_with_bonus :
  isalpha "T" = true ∧ ("T"%char ∉ VOWELS) ∧
  ("T"%char ∉ guessed_letters cat_last_letter) ∧
  turn_phase cat_last_letter = AWAITING_GUESS ∧
  str_count "T" (current_puzzle cat_last_letter) = 1 ∧
  ∃ g', guess_letter (0, 1)%nat "T" false cat_last_letter = Some g' ∧
        score g' = 1850 ∧
        score g' ≠ score cat_last_letter
                   + current_value cat_last_letter
                     * str_count "T" (current_puzzle cat_last_letter).
Proof.
  split; [reflexivity|].
  split; [apply (bool_decide_unpack _); vm_compute; exact I|].
  split; [apply (bool_decide_unpack _); vm_compute; exact I|].
  split; [reflexivity|]. split; [reflexivity|].
  eexists. split; [vm_compute; reflexivity|]. simpl. split; [reflexivity|].
  vm_compute. discriminate.
Qed.

(** C3.  A vowel guessed under purchase context that passes the checks (not
    yet guessed, Score at least the vowel cost) is accepted with Score
    decreased by exactly 250, before the phrase is looked at; the rest of
    the call only adds the solve bonus, so a vowel absent from the phrase
    costs 250. *)
Theorem vowel_purchase_cost rnd letter g :
  upper letter ∈ VOWELS → upper letter ∉ guessed_letters g →
  VOWEL_COST <= score g →
  board_ok g → puzzles_ok (puzzles g) →
  check_rules (upper letter) true g = Accepted (set_score (score g - 250) g) ∧
  guess_letter rnd letter true g =
    resolve_guess rnd (upper letter) (set_score (score g - 250) g) ∧
  ∃ g', guess_letter rnd letter true g = Some g' ∧
        score g' = score g - 250 + solve_bonus (upper letter) g ∧
        (str_in (upper letter) (current_puzzle g) = false →
         score g' = score g - 250).
Proof.
  intros Hv Hg Hcost Hok Hpz.
  assert (check_rules (upper letter) true g
          = Accepted (set_score (score g - 250) g)) as Hrules.
  { unfold check_rules. rewrite decide_True by exact Hv. simpl.
    assert ((score g <? VOWEL_COST) = false) as -> by (apply Z.ltb_ge; lia).
    reflexivity. }
  split; [exact Hrules|].
  rewrite (guess_letter_accepted rnd letter true g _ Hg
             (vowel_isalpha _ Hv) Hrules).
  split; [reflexivity|].
  set (ga := set_score (score g - 250) g).
  destruct (str_in (upper letter) (current_puzzle g)) eqn:Hin.
  - destruct (resolve_hit_cases rnd (upper letter) ga Hin Hok Hpz)
      as (rv & g' & Hrv & Hres & Hscore & _).
    exists g'. split; [exact Hres|]. split; [|discriminate].
    rewrite Hscore. unfold after_hit. simpl.
    destruct (award_vowel (upper letter)
                (str_count (upper letter) (current_puzzle g))
                (set_guessed_letters ({[upper letter]} ∪ guessed_letters g) ga)
                Hv) as (-> & _).
    reflexivity.
  - rewrite (resolve_guess_miss rnd (upper letter) ga Hin).
    eexists. split; [reflexivity|]. simpl.
    unfold solve_bonus, completes_puzzle. rewrite Hin. simpl.
    split; [lia | reflexivity].
Qed.

Lemma vowel_purchase_cost_witness :
  ∃ g', guess_letter (0, 1)%nat "e" true cat_last_letter = Some g' ∧
        score g' = 250 - 250 + 0 ∧
        (str_in "E" "CAT" = false → score g' = 250 - 250).
Proof.
  apply (vowel_purchase_cost (0, 1)%nat "e" cat_last_letter).
  - apply (bool_decide_unpack _). vm_compute. exact I.
  - apply (bool_decide_unpack _). vm_compute. exact I.
  - vm_compute. discriminate.
  - reflexivity.
  - split; [discriminate | repeat constructor; discriminate].
Defined.

(** C4 (as amended).  An accepted vowel guess whose letter does not occur in
    the phrase resets wheelValue to 0 and TurnPhase to AWAITING_SPIN, as a
    consonant miss does; an accepted vowel guess that hits without
    completing the puzzle leaves TurnPhase and wheelValue unchanged. *)
Theorem vowel_guess_turn rnd letter g :
  upper letter ∈ VOWELS → upper letter ∉ guessed_letters g →
  VOWEL_COST <= score g →
  (str_in (upper letter) (current_puzzle g) = false →
   ∃ g', guess_letter rnd letter true g = Some g' ∧
         current_value g' = 0 ∧ turn_phase g' = AWAITING_SPIN) ∧
  (str_in (upper letter) (current_puzzle g) = true →
   board_ok g → completes_puzzle (upper letter) g = false →
   ∃ g', guess_letter rnd letter true g = Some g' ∧
         current_value g' = current_value g ∧ turn_phase g' = turn_phase g).
Proof.
  intros Hv Hg Hcost.
  assert (check_rules (upper letter) true g
          = Accepted (set_score (score g - VOWEL_COST) g)) as Hrules.
  { unfold check_rules. rewrite decide_True by exact Hv. simpl.
    assert ((score g <? VOWEL_COST) = false) as -> by (apply Z.ltb_ge; lia).
    reflexivity. }
  rewrite (guess_letter_accepted rnd letter true g _ Hg
             (vowel_isalpha _ Hv) Hrules).
  set (ga := set_score (score g - VOWEL_COST) g).
  split.
  - intros Hin. rewrite (resolve_guess_miss rnd (upper letter) ga Hin).
    eexists. split; [reflexivity|]. simpl. auto.
  - intros Hin Hok Hnc.
    destruct (resolve_guess_hit rnd (upper letter) ga Hin Hok)
      as (rv & Hrv & _ & _ & Hres).
    rewrite <- (completes_hit (upper letter) ga rv Hin Hrv) in Hres.
    change (completes_puzzle (upper letter) ga)
      with (completes_puzzle (upper letter) g) in Hres.
    rewrite Hnc in Hres. rewrite Hres.
    eexists. split; [reflexivity|]. unfold after_hit, turn_phase. simpl.
    destruct (award_vowel (upper letter)
                (str_count (upper letter) (current_puzzle g))
                (set_guessed_letters ({[upper letter]} ∪ guessed_letters g) ga)
                Hv) as (_ & -> & ->).
    simpl. auto.
Qed.

Lemma vowel_guess_turn_witness :
  (str_in "E" "CAT" = false →
   ∃ g', guess_letter (0, 1)%nat "e" true cat_last_letter = Some g' ∧
         current_value g' = 0 ∧ turn_phase g' = AWAITING_SPIN) ∧
  (str_in "E" "CAT" = true →
   board_ok cat_last_letter → completes_puzzle "E" cat_last_letter = false →
   ∃ g', guess_letter (0, 1)%nat "e" true cat_last_letter = Some g' ∧
         current_value g' = 600 ∧ turn_phase g' = AWAITING_GUESS).
Proof.
  apply (vowel_guess_turn (0, 1)%nat "e" cat_last_letter).
  - apply (bool_decide_unpack _). vm_compute. exact I.
  - apply (bool_decide_unpack _). vm_compute. exact I.
  - vm_compute. discriminate.
Defined.

(** C4, as stated, fails: the purchased vowel E, absent from CAT, takes the
    wheel value 600 and the permission to guess away. *)
Lemma vowel_miss_resets_turn :
  "E"%char ∈ VOWELS ∧ ("E"%char ∉ guessed_letters cat_last_letter) ∧
  str_in "E" (current_puzzle cat_last_letter) = false ∧
  ∃ g', guess_letter (0, 1)%nat "E" true cat_last_letter = Some g' ∧
        turn_phase cat_last_letter = AWAITING_GUESS ∧
        turn_phase g' = AWAITING_SPIN ∧
        current_value cat_last_letter = 600 ∧ current_value g' = 0.
Proof.
  split; [apply (bool_decide_unpack _); vm_compute; exact I|].
  split; [apply (bool_decide_unpack _); vm_compute; exact I|].
  split; [reflexivity|].
  eexists. split; [vm_compute; reflexivity|]. simpl. auto.
Qed.

(** C5.  A guess of a letter that is already in GuessedLetters returns with
    only the message changed: Score, RevealState, TurnPhase, wheelValue and
    GuessedLetters are as before, whatever the turn phase and the
    purchase-context flag. *)
Theorem repeated_guess_frame rnd letter p g :
  upper letter ∈ guessed_letters g →
  ∃ g', guess_letter rnd letter p g = Some g' ∧
        g' = set_message "Already guessed!" g ∧
        score g' = score g ∧ revealed g' = revealed g ∧
        turn_phase g' = turn_phase g ∧ current_value g' = current_value g ∧
        guessed_letters g' = guessed_letters g.
Proof.
  intros H. unfold guess_letter. rewrite decide_True by exact H.
  eexists. split; [reflexivity|]. simpl. auto 10.
Qed.

Lemma repeated_guess_frame_witness :
  ∃ g', guess_letter (0, 1)%nat "c" true cat_last_letter = Some g' ∧
        g' = set_message "Already guessed!" cat_last_letter ∧
        score g' = 250 ∧ revealed g' = chars "CA_" ∧
        turn_phase g' = AWAITING_GUESS ∧ current_value g' = 600 ∧
        guessed_letters g' = guessed_letters cat_last_letter.
Proof.
  apply (repeated_guess_frame (0, 1)%nat "c" true cat_last_letter).
  apply (bool_decide_unpack _). vm_compute. exact I.
Defined.

(** C7 (as amended).  After [new_puzzle] the wheel value is 0, every
    alphabetic position of the new phrase is HIDDEN and every other position
    shows its own character, GuessedLetters is empty and TurnPhase is
    AWAITING_SPIN; the spinning flag, the speed and the angle of the wheel
    are left as they were, so a spinning wheel keeps spinning. *)
Theorem new_puzzle_resets_round rnd g :
  puzzles_ok (puzzles g) →
  ∃ g', new_puzzle rnd g = Some g' ∧
        current_value g' = 0 ∧
        length (revealed g') = length (chars (current_puzzle g')) ∧
        (∀ i c, chars (current_puzzle g') !! i = Some c →
                revealed g' !! i = Some (if isalpha c then HIDDEN else c)) ∧
        guessed_letters g' = ∅ ∧
        turn_phase g' = AWAITING_SPIN ∧
        wheel_spinning g' = wheel_spinning g ∧
        wheel_speed g' = wheel_speed g ∧
        wheel_angle g' = wheel_angle g.
Proof.
  intros Hpz. destruct (new_puzzle_total rnd g Hpz) as [g' Hg'].
  exists g'. split; [exact Hg'|].
  apply new_puzzle_Some in Hg' as (cat & phs & ph & _ & _ & ->). simpl.
  split; [reflexivity|]. split; [apply hide_length|].
  split; [|auto 10].
  intros i c Hc. rewrite hide_lookup, Hc. reflexivity.
Qed.

Lemma new_puzzle_resets_round_witness :
  ∃ g', new_puzzle (0, 1)%nat cat_last_letter = Some g' ∧
        current_value g' = 0 ∧
        length (revealed g') = length (chars (current_puzzle g')) ∧
        (∀ i c, chars (current_puzzle g') !! i = Some c →
                revealed g' !! i = Some (if isalpha c then HIDDEN else c)) ∧
        guessed_letters g' = ∅ ∧
        turn_phase g' = AWAITING_SPIN ∧
        wheel_spinning g' = false ∧
        wheel_speed g' = 0%Q ∧
        wheel_angle g' = 0%Q.
Proof.
  apply (new_puzzle_resets_round (0, 1)%nat cat_last_letter).
  split; [discriminate | repeat constructor; discriminate].
Defined.

(** C7, as stated, fails: a new puzzle started while the wheel spins leaves
    the wheel spinning at its speed of 20. *)
Lemma new_puzzle_while_spinning :
  ∃ g g', spinning_game = Some g ∧ wheel_spinning g = true ∧
          new_puzzle (0, 0)%nat g = Some g' ∧
          wheel_spinning g' = true ∧ (wheel_speed g' == 20)%Q ∧
          ¬ (wheel_speed g' == 0)%Q.
Proof.
  eexists. eexists. split; [vm_compute; reflexivity|].
  split; [reflexivity|]. split; [vm_compute; reflexivity|]. simpl.
  split; [reflexivity|]. split; [reflexivity|]. discriminate.
Qed.

(** C9 (as amended).  When an accepted guess reveals the last HIDDEN cell,
    [guess_letter] adds the 1000 solve bonus, waits 3000 ms and calls
    [new_puzzle] itself: it returns with a phrase newly drawn from the
    collection, that phrase all hidden, GuessedLetters empty, wheelValue 0
    and TurnPhase AWAITING_SPIN; Score keeps the award and the bonus. *)
Theorem solving_guess_starts_new_puzzle rnd letter p g ga :
  upper letter ∉ guessed_letters g → isalpha (upper letter) = true →
  check_rules (upper letter) p g = Accepted ga →
  board_ok g → puzzles_ok (puzzles g) →
  completes_puzzle (upper letter) g = true →
  ∃ rv g',
    reveal (current_puzzle g) (upper letter) (revealed g) = Some rv ∧
    guess_letter rnd letter p g
      = new_puzzle rnd (after_solve (after_hit (upper letter) rv ga)) ∧
    guess_letter rnd letter p g = Some g' ∧
    score g' = score (after_hit (upper letter) rv ga) + 1000 ∧
    waited_ms g' = waited_ms g + 3000 ∧
    puzzles_started g' = S (puzzles_started g) ∧
    (∃ phrases phrase,
        (current_category g', phrases) ∈ puzzles g ∧ phrase ∈ phrases ∧
        current_puzzle g' = upper_str phrase) ∧
    revealed g' = hide (current_puzzle g') ∧
    guessed_letters g' = ∅ ∧
    current_value g' = 0 ∧
    turn_phase g' = AWAITING_SPIN.
Proof.
  intros Hg Ha Hrules Hok Hpz Hc.
  destruct (check_rules_frame _ _ _ _ Hrules)
    as (Hcp & Hrv & Hpuz & _ & _ & _ & Hw & Hps).
  assert (completes_puzzle (upper letter) ga = true) as Hc'.
  { unfold completes_puzzle. rewrite Hcp, Hrv. exact Hc. }
  assert (str_in (upper letter) (current_puzzle ga) = true) as Hin.
  { unfold completes_puzzle in Hc'. apply andb_true_iff in Hc'. tauto. }
  assert (board_ok ga) as Hok' by (unfold board_ok; rewrite Hcp, Hrv; exact Hok).
  assert (puzzles_ok (puzzles ga)) as Hpz' by (rewrite Hpuz; exact Hpz).
  rewrite (guess_letter_accepted rnd letter p g ga Hg Ha Hrules).
  destruct (resolve_hit_cases rnd (upper letter) ga Hin Hok' Hpz')
    as (rv & g' & Hreveal & Hres & Hscore & Hcases).
  unfold solve_bonus in Hscore. rewrite Hc' in Hcases, Hscore.
  exists rv, g'. rewrite <- Hcp, <- Hrv.
  split; [exact Hreveal|]. split; [congruence|]. split; [exact Hres|].
  split; [exact Hscore|].
  apply new_puzzle_Some in Hcases as (cat & phs & ph & Hcat & Hph & ->).
  simpl.
  destruct (award_frame (upper letter)
              (str_count (upper letter) (current_puzzle ga))
              (set_guessed_letters ({[upper letter]} ∪ guessed_letters ga) ga))
    as (_ & _ & Hp & _ & -> & ->).
  simpl. rewrite Hw, Hps. repeat split; auto.
  exists phs, ph. unfold after_solve, after_hit in Hcat. simpl in Hcat.
  rewrite Hp in Hcat. simpl in Hcat. rewrite Hpuz in Hcat. auto.
Qed.

Lemma solving_guess_starts_new_puzzle_witness :
  ∃ rv g',
    reveal "CAT" "T" (chars "CA_") = Some rv ∧
    guess_letter (0, 1)%nat "t" false cat_last_letter
      = new_puzzle (0, 1)%nat (after_solve (after_hit "T" rv cat_last_letter)) ∧
    guess_letter (0, 1)%nat "t" false cat_last_letter = Some g' ∧
    score g' = score (after_hit "T" rv cat_last_letter) + 1000 ∧
    waited_ms g' = 0 + 3000 ∧
    puzzles_started g' = 2%nat ∧
    (∃ phrases phrase,
        (current_category g', phrases) ∈ cat_puzzles ∧ phrase ∈ phrases ∧
        current_puzzle g' = upper_str phrase) ∧
    revealed g' = hide (current_puzzle g') ∧
    guessed_letters g' = ∅ ∧
    current_value g' = 0 ∧
    turn_phase g' = AWAITING_SPIN.
Proof.
  apply (solving_guess_starts_new_puzzle (0, 1)%nat "t" false
           cat_last_letter cat_last_letter).
  - apply (bool_decide_unpack _). vm_compute. exact I.
  - reflexivity.
  - vm_compute. reflexivity.
  - reflexivity.
  - split; [discriminate | repeat constructor; discriminate].
  - vm_compute. reflexivity.
Defined.

(** C9, as stated, fails: the guess of T that completes CAT waits 3000 ms
    and returns with the puzzle DOG, all hidden, in place of CAT. *)
Lemma solving_guess_replaces_puzzle :
  completes_puzzle "T" cat_last_letter = true ∧
  ∃ g', guess_letter (0, 1)%nat "T" false cat_last_letter = Some g' ∧
        current_puzzle cat_last_letter = "CAT" ∧
        current_puzzle g' = "DOG" ∧
        revealed g' = chars "___" ∧
        waited_ms cat_last_letter = 0 ∧ waited_ms g' = 3000 ∧
        puzzles_started g' = S (puzzles_started cat_last_letter).
Proof.
  split; [vm_compute; reflexivity|].
  eexists. split; [vm_compute; reflexivity|]. simpl. auto 10.
Qed.

(** C8.  Whenever [update_wheel] stops the wheel, in any state a game can
    reach, the segment it computes on floats is
    floor((angle mod 360) / (360/12)) for the angle the wheel stops at, an
    index of the 12-entry value table, and the wheel value it sets is the
    entry of the table at that index. *)
Theorem wheel_stop_value g :
  reachable g → wheel_spinning g = true →
  (fl (wheel_speed g * DECELERATION) < STOP_SPEED)%Q →
  ∃ segment value g',
    segment = landing_segment (fl (wheel_angle g + wheel_speed g)) ∧
    segment = Qfloor (py_mod (fl (wheel_angle g + wheel_speed g)) 360
                      / (360 / 12)) ∧
    0 <= segment < Z.of_nat (length WHEEL_VALUES) ∧
    length WHEEL_VALUES = 12%nat ∧
    WHEEL_VALUES !! Z.to_nat segment = Some value ∧
    update_wheel g = Some g' ∧
    wheel_spinning g' = false ∧
    current_value g' = value ∧
    value ∈ [500; 550; 600; 650; 700; 750; 800; 850; 900; 300; 400; 450] ∧
    turn_phase g' = AWAITING_GUESS.
Proof.
  intros Hreach Hspin Hstop. pose proof (reachable_wheel_ok g Hreach) as Hw.
  pose proof (stop_angle g Hw Hspin Hstop) as H256.
  destruct Hw as (Ha0 & _ & Hs0 & _).
  assert (0 <= wheel_angle g + wheel_speed g)%Q as Hz by lra.
  destruct (fl_grid _ 8 Hz H256) as [n Hn].
  destruct (landing_segment_exact _ n (fl_nonneg _ Hz) Hn) as [Hseg Hr].
  destruct (py_index_in_range WHEEL_VALUES _ Hr) as (v & Hidx & Hget & Hin).
  apply Qltb_lt in Hstop.
  exists (landing_segment (fl (wheel_angle g + wheel_speed g))), v.
  eexists. split; [reflexivity|]. split; [exact Hseg|].
  split; [exact Hr|]. split; [reflexivity|]. split; [exact Hget|].
  split; [exact (update_wheel_lands g v Hspin Hstop Hidx)|].
  split; [reflexivity|]. split; [reflexivity|]. split; [exact Hin|].
  reflexivity.
Qed.

Lemma wheel_stop_value_witness :
  ∃ segment value g',
    segment = landing_segment
                (fl (wheel_angle before_stop + wheel_speed before_stop)) ∧
    segment = Qfloor (py_mod (fl (wheel_angle before_stop
                                  + wheel_speed before_stop)) 360
                      / (360 / 12)) ∧
    0 <= segment < Z.of_nat (length WHEEL_VALUES) ∧
    length WHEEL_VALUES = 12%nat ∧
    WHEEL_VALUES !! Z.to_nat segment = Some value ∧
    update_wheel before_stop = Some g' ∧
    wheel_spinning g' = false ∧
    current_value g' = value ∧
    value ∈ [500; 550; 600; 650; 700; 750; 800; 850; 900; 300; 400; 450] ∧
    turn_phase g' = AWAITING_GUESS.
Proof.
  apply (wheel_stop_value before_stop).
  - exact before_stop_reachable.
  - reflexivity.
  - apply Qltb_lt. vm_compute. reflexivity.
Defined.

(** C6.  Score is never negative: from the Score 0 of a new game, every
    sequence of operations returns with Score >= 0; a vowel guess or a vowel
    purchase with Score below the vowel cost is rejected with nothing but
    the message changed. *)
Theorem score_never_negative pz rnd ops :
  puzzles_ok pz →
  (∃ g0 g, init pz rnd = Some g0 ∧ score g0 = 0 ∧
           run ops g0 = Some g ∧ 0 <= score g) ∧
  (∀ g rnd' letter p,
      upper letter ∈ VOWELS → score g < VOWEL_COST →
      ∃ m, guess_letter rnd' letter p g = Some (set_message m g) ∧
           score (set_message m g) = score g) ∧
  (∀ g, score g < VOWEL_COST →
        ∃ m, buy_vowel g = (false, set_message m g) ∧
             score (set_message m g) = score g).
Proof.
  intros Hpz. split; [|split].
  - destruct (init_Inv pz rnd Hpz) as (g0 & Hinit & HI & Hs0 & Hw0).
    destruct (run_Inv ops g0 HI Hw0) as (g & Hrun & (_ & _ & Hs & _) & _).
    exists g0, g. auto.
  - intros g rnd' letter p Hv Hlow. unfold guess_letter.
    case_decide; [eauto|].
    rewrite (vowel_isalpha _ Hv). simpl.
    unfold check_rules. rewrite decide_True by exact Hv.
    destruct p; simpl; [|eauto].
    assert ((score g <? VOWEL_COST) = true) as -> by (apply Z.ltb_lt; lia).
    eauto.
  - intros g Hlow. unfold buy_vowel.
    assert ((score g <? VOWEL_COST) = true) as -> by (apply Z.ltb_lt; lia).
    eauto.
Qed.

Lemma score_never_negative_witness :
  (∃ g0 g, init default_puzzles (1, 2)%nat = Some g0 ∧ score g0 = 0 ∧
           run sample_run g0 = Some g ∧ 0 <= score g) ∧
  (∀ g rnd' letter p,
      upper letter ∈ VOWELS → score g < VOWEL_COST →
      ∃ m, guess_letter rnd' letter p g = Some (set_message m g) ∧
           score (set_message m g) = score g) ∧
  (∀ g, score g < VOWEL_COST →
        ∃ m, buy_vowel g = (false, set_message m g) ∧
             score (set_message m g) = score g).
Proof.
  apply (score_never_negative default_puzzles (1, 2)%nat sample_run).
  split; [discriminate | repeat constructor; discriminate].
Defined.

Lemma after_hit_frame letter rv g :
  current_puzzle (after_hit letter rv g) = current_puzzle g ∧
  revealed (after_hit letter rv g) = rv ∧
  puzzles_started (after_hit letter rv g) = puzzles_started g.
Proof.
  unfold after_hit. simpl.
  destruct (award_frame letter (str_count letter (current_puzzle g))
              (set_guessed_letters ({[letter]} ∪ guessed_letters g) g))
    as (-> & _ & _ & _ & _ & ->). auto.
Qed.

(** An operation that leaves the phrase and the board alone. *)
Lemma same_board_monotone (op : Op) g g' :
  board_ok g →
  current_puzzle g' = current_puzzle g → revealed g' = revealed g →
  current_puzzle g' = current_puzzle g ∧
  length (revealed g') = length (chars (current_puzzle g')) ∧
  (∀ i c, revealed g !! i = Some c → c ≠ HIDDEN →
          ∃ c', revealed g' !! i = Some c' ∧ c' ≠ HIDDEN) ∧
  (∀ i, revealed g' !! i ≠ revealed g !! i →
        ∃ rnd letter p,
          op = OpGuess rnd letter p ∧
          chars (current_puzzle g) !! i = Some (upper letter) ∧
          revealed g' !! i = Some (upper letter)).
Proof.
  intros Hok -> ->. split; [reflexivity|]. split; [exact Hok|].
  split; [eauto|]. intros i H. congruence.
Qed.

(** C10 (as amended).  Within a round, that is for an operation during which
    no new puzzle is started, neither by [new_puzzle] nor by a guess that
    completes the board, the phrase stays, RevealState keeps the length of
    the phrase, a cell that is not HIDDEN does not become HIDDEN, and a
    cell changes only under [guess_letter], at a position of the phrase
    that holds the guessed letter, to that letter. *)
Theorem reveals_monotone op g g' :
  board_ok g → step op g = Some g' →
  puzzles_started g' = puzzles_started g →
  current_puzzle g' = current_puzzle g ∧
  length (revealed g') = length (chars (current_puzzle g')) ∧
  (∀ i c, revealed g !! i = Some c → c ≠ HIDDEN →
          ∃ c', revealed g' !! i = Some c' ∧ c' ≠ HIDDEN) ∧
  (∀ i, revealed g' !! i ≠ revealed g !! i →
        ∃ rnd letter p,
          op = OpGuess rnd letter p ∧
          chars (current_puzzle g) !! i = Some (upper letter) ∧
          revealed g' !! i = Some (upper letter)).
Proof.
  intros Hok Hstep Hround.
  destruct op as [rnd|u| | |rnd letter p|]; simpl in Hstep.
  - apply new_puzzle_Some in Hstep as (cat & phs & ph & _ & _ & ->).
    simpl in Hround. lia.
  - injection Hstep as <-. apply same_board_monotone; [exact Hok| |];
      unfold spin_wheel; case_match; reflexivity.
  - apply update_wheel_same_round in Hstep as (_ & Hcp & _ & Hrv & _).
    apply same_board_monotone; [exact Hok | exact Hcp | exact Hrv].
  - injection Hstep as <-. apply same_board_monotone; [exact Hok| |];
      unfold buy_vowel; repeat case_match; reflexivity.
  - destruct (guess_letter_cases rnd letter p g Hok)
      as [[m Hm]|[Hm|(ga & Hrules & Ha & Hcases)]].
    + rewrite Hm in Hstep. injection Hstep as <-.
      apply same_board_monotone; [exact Hok| |]; reflexivity.
    + rewrite Hm in Hstep. injection Hstep as <-.
      apply same_board_monotone; [exact Hok| |]; reflexivity.
    + destruct (check_rules_frame _ _ _ _ Hrules)
        as (Hcp & Hrv & _ & _ & _ & _ & _ & Hps).
      destruct Hcases as [(_ & Hm)|(_ & rv & _ & Hlen & Hget & Hm)];
        rewrite Hm in Hstep.
      * injection Hstep as <-.
        apply same_board_monotone; [exact Hok| |]; simpl; assumption.
      * destruct (after_hit_frame (upper letter) rv ga) as (Hcp' & Hrv' & Hps').
        destruct (solved rv).
        { apply new_puzzle_Some in Hstep as (cat & phs & ph & _ & _ & ->).
          change (S (puzzles_started (after_hit (upper letter) rv ga))
                  = puzzles_started g) in Hround.
          rewrite Hps', Hps in Hround. lia. }
        injection Hstep as <-. rewrite Hcp', Hrv', Hcp.
        split; [reflexivity|]. split; [rewrite Hlen; exact Hok|].
        split.
        -- intros i c Hc Hnh. rewrite Hget. case_decide.
           ++ eexists. split; [reflexivity|]. apply isalpha_not_hidden, Ha.
           ++ eauto.
        -- intros i Hne. rewrite Hget in Hne |- *. case_decide; [|congruence].
           exists rnd, letter, p. auto.
  - injection Hstep as <-.
    apply same_board_monotone; [exact Hok| |]; reflexivity.
Qed.

Lemma reveals_monotone_witness :
  current_puzzle cat_after_C = current_puzzle cat_before_C ∧
  length (revealed cat_after_C) = length (chars (current_puzzle cat_after_C)) ∧
  (∀ i c, revealed cat_before_C !! i = Some c → c ≠ HIDDEN →
          ∃ c', revealed cat_after_C !! i = Some c' ∧ c' ≠ HIDDEN) ∧
  (∀ i, revealed cat_after_C !! i ≠ revealed cat_before_C !! i →
        ∃ rnd letter p,
          OpGuess (0, 1)%nat "c" false = OpGuess rnd letter p ∧
          chars (current_puzzle cat_before_C) !! i = Some (upper letter) ∧
          revealed cat_after_C !! i = Some (upper letter)).
Proof.
  apply (reveals_monotone (OpGuess (0, 1)%nat "c" false)
           cat_before_C cat_after_C).
  - reflexivity.
  - vm_compute. reflexivity.
  - reflexivity.
Defined.

(** C10, as stated, fails: a guess is one of the operations of a round, and
    no [new_puzzle] is called between the spin and the guess; yet the guess
    of T on CAT with C and A revealed completes the board, [guess_letter]
    starts the next puzzle itself, and the cells that showed C and A are
    hidden again, over another phrase. *)
Lemma completing_guess_hides_cells :
  board_ok cat_last_letter ∧
  ∃ g',
    step (OpGuess (0, 1)%nat "T" false) cat_last_letter = Some g' ∧
    revealed cat_last_letter = chars "CA_" ∧ revealed g' = chars "___" ∧
    (∃ i c, revealed cat_last_letter !! i = Some c ∧ c ≠ HIDDEN ∧
            revealed g' !! i = Some HIDDEN) ∧
    current_puzzle cat_last_letter = "CAT" ∧ current_puzzle g' = "DOG".
Proof.
  split; [reflexivity|].
  eexists. split; [vm_compute; reflexivity|].
  split; [reflexivity|]. split; [reflexivity|].
  split; [|split; reflexivity].
  exists 0%nat, "C"%char. split; [reflexivity|].
  split; [discriminate | reflexivity].
Qed.

(** C2 fails on the code.  On a phrase of the built-in collection, whose
    words all fit a row of 13 cells, the rows of [draw_puzzle] leave out the
    last two letters and put the last letter of the second PENNY in the
    row below the rest of the word: a wrap does not step over the space it
    replaces, so the cells after it are one position short. *)
Theorem layout_loses_letters_after_wrap :
  penny_phrase ∈ default_puzzles.*2 !!! 0%nat ∧
  Forall (λ word, (length word ≤ 13)%nat) (split_space (chars penny_phrase)) ∧
  layout_rows 13 penny_phrase = [seq 0 13; seq 13 10; seq 23 6] ∧
  letters_of penny_phrase = chars "APENNYSAVEDISAPENNYEARNED" ∧
  letters_shown penny_phrase (layout_rows 13 penny_phrase)
    = chars "APENNYSAVEDISAPENNYEARN" ∧
  letters_shown penny_phrase (layout_rows 13 penny_phrase)
    ≠ letters_of penny_phrase ∧
  splits_a_word penny_phrase (layout_rows 13 penny_phrase).
Proof.
  split; [vm_compute; right; left|].
  split; [vm_compute; repeat constructor|].
  split; [vm_compute; reflexivity|].
  split; [vm_compute; reflexivity|].
  split; [vm_compute; reflexivity|].
  split; [vm_compute; discriminate|].
  exists 22%nat, "N"%char, "Y"%char.
  split; [reflexivity|]. split; [reflexivity|].
  split; [discriminate|]. split; [discriminate|].
  vm_compute. discriminate.
Qed.

(** ** Beyond the claims: the wheel *)

(** X1.  A second request to spin changes nothing: once the wheel spins, or
    when the first request was ignored, [spin_wheel] leaves the state as it
    is, whatever speed is drawn. *)
Theorem spin_wheel_once u1 u2 g :
  spin_wheel u2 (spin_wheel u1 g) = spin_wheel u1 g.
Proof.
  unfold spin_wheel at 2.
  destruct (wheel_spinning g) eqn:Es, (can_guess g) eqn:Ec; simpl;
    unfold spin_wheel; simpl; rewrite ?Es, ?Ec; reflexivity.
Qed.

Lemma same_round_refl g : same_round g g.
Proof. repeat split. Qed.

Lemma same_round_trans g1 g2 g3 :
  same_round g1 g2 → same_round g2 g3 → same_round g1 g3.
Proof.
  unfold same_round. intros H1 H2. destruct_and!.
  repeat split; congruence.
Qed.

(** A tick that does not stop the wheel only turns it. *)
Lemma update_wheel_turning g :
  wheel_spinning g = true →
  Qltb (fl (wheel_speed g * DECELERATION)) STOP_SPEED = false →
  update_wheel g =
  Some (set_wheel (fl (wheel_angle g + wheel_speed g)) true
          (fl (wheel_speed g * DECELERATION)) g).
Proof. intros Hs Hq. unfold update_wheel. rewrite Hs, Hq. reflexivity. Qed.

(** The tick that stops the wheel. *)
Lemma update_wheel_stopping g :
  wheel_spinning g = true →
  (0 <= wheel_angle g)%Q → (0 <= wheel_speed g)%Q →
  Qltb (fl (wheel_speed g * DECELERATION)) STOP_SPEED = true →
  ∃ g', update_wheel g = Some g' ∧ wheel_spinning g' = false ∧
        can_guess g' = true ∧ current_value g' ∈ WHEEL_VALUES ∧
        same_round g g'.
Proof.
  intros Hs Ha0 Hs0 Hq.
  assert (0 <= wheel_angle g + wheel_speed g)%Q as Hz by lra.
  pose proof (landing_segment_range _ Hz) as Hr.
  destruct (py_index_in_range WHEEL_VALUES _ Hr) as (v & Hidx & _ & Hin).
  unfold update_wheel. rewrite Hs, Hq, Hidx. simpl.
  eexists. split; [reflexivity|]. simpl. repeat split; auto.
Qed.

Lemma ticks_turning k : ∀ g,
  wheel_spinning g = true →
  (0 <= wheel_angle g)%Q → (0 <= wheel_speed g)%Q →
  (∀ j, (1 ≤ j ≤ k)%nat →
        Qltb (speed_after j (wheel_speed g)) STOP_SPEED = false) →
  ∃ gk, ticks k g = Some gk ∧ wheel_spinning gk = true ∧
        wheel_speed gk = speed_after k (wheel_speed g) ∧
        (0 <= wheel_angle gk)%Q ∧
        can_guess gk = can_guess g ∧ current_value gk = current_value g ∧
        same_round g gk.
Proof.
  induction k as [|k IH]; intros g Hs Ha0 Hs0 Hno.
  - exists g. repeat split; auto.
  - simpl ticks. rewrite update_wheel_turning;
      [|exact Hs|apply (Hno 1%nat); lia].
    simpl.
    destruct (IH (set_wheel (fl (wheel_angle g + wheel_speed g)) true
                    (fl (wheel_speed g * DECELERATION)) g))
      as (gk & Hk & Hsk & Hvk & Hak & Hck & Hcv & Hr).
    { reflexivity. }
    { simpl. apply fl_nonneg. lra. }
    { simpl. apply fl_nonneg.
      apply Qmult_le_0_compat; [exact Hs0 | discriminate]. }
    { intros j Hj. cbn [wheel_speed set_wheel].
      rewrite <- speed_after_S. apply Hno. lia. }
    exists gk. split; [exact Hk|]. split; [exact Hsk|].
    split; [exact (eq_trans Hvk (eq_sym (speed_after_S k _)))|].
    split; [exact Hak|].
    split; [exact Hck|]. split; [exact Hcv|]. exact Hr.
Qed.

Lemma ticks_app a : ∀ b g,
  ticks (a + b) g = g' ← ticks a g; ticks b g'.
Proof.
  induction a as [|a IH]; intros b g; simpl; [reflexivity|].
  destruct (update_wheel g) as [g1|]; simpl; [apply IH | reflexivity].
Qed.

(** The first index at which a test succeeds. *)
Lemma first_true_below (f : nat → bool) N :
  (∀ j, (j < N)%nat → f j = false) ∨
  ∃ n, (n < N)%nat ∧ f n = true ∧ ∀ j, (j < n)%nat → f j = false.
Proof.
  induction N as [|N [IH|IH]].
  - left. intros j Hj. lia.
  - destruct (f N) eqn:E.
    + right. exists N. split; [lia|]. auto.
    + left. intros j Hj. destruct (decide (j = N)) as [->|Hne]; [exact E|].
      apply IH. lia.
  - right. destruct IH as (n & Hn & Hfn & Hleast). exists n.
    split; [lia|]. auto.
Qed.

Lemma first_true (f : nat → bool) N :
  f N = true → ∃ n, (n ≤ N)%nat ∧ f n = true ∧ ∀ j, (j < n)%nat → f j = false.
Proof.
  intros HN. destruct (first_true_below f N) as [H|(n & Hn & Hfn & Hleast)].
  - exists N. split; [lia|]. auto.
  - exists n. split; [lia|]. auto.
Qed.

Lemma fastest_spin_at_274 : (speed_after 274 25 < STOP_SPEED)%Q.
Proof. apply Qltb_lt. vm_compute. reflexivity. Qed.

(** X2.  A spin always ends: after a spin accepted at an angle that is not
    negative, whatever the draw, the wheel turns for at least 248 frames and
    stops at a frame between the 249th and the 274th, with a value of the
    table and a guess permitted; Score, the phrase, the board and the
    guessed letters are as before. *)
Theorem spin_stops u g :
  wheel_spinning g = false → can_guess g = false →
  (0 <= wheel_angle g)%Q →
  ∃ n g',
    (249 ≤ n ≤ 274)%nat ∧
    ticks n (spin_wheel u g) = Some g' ∧
    wheel_spinning g' = false ∧ turn_phase g' = AWAITING_GUESS ∧
    current_value g' ∈ WHEEL_VALUES ∧ same_round g g' ∧
    ∀ k, (k < n)%nat →
         ∃ gk, ticks k (spin_wheel u g) = Some gk ∧
               wheel_spinning gk = true ∧ turn_phase gk = AWAITING_SPIN.
Proof.
  intros Hidle Hspin Ha0.
  set (g0 := spin_wheel u g).
  assert (g0 = set_message "Spinning..."
                 (set_wheel (wheel_angle g) true (random_uniform 15 25 u) g))
    as Hg0 by (subst g0; unfold spin_wheel; rewrite Hidle, Hspin; reflexivity).
  set (s := wheel_speed g0).
  assert (15 <= s ∧ s <= 25)%Q as [Hs15 Hs25].
  { subst s. rewrite Hg0. simpl. apply random_uniform_range. }
  assert (0 <= s)%Q as Hs0 by lra.
  assert (0 <= wheel_angle g0)%Q as Hg0a by (rewrite Hg0; exact Ha0).
  set (f := λ j, Qltb (speed_after (S j) s) STOP_SPEED).
  destruct (first_true f 273) as (m & Hm & Hfm & Hleast).
  { subst f. cbv beta. apply Qltb_lt.
    eapply Qle_lt_trans; [apply (speed_after_mono 274 s 25 Hs0 Hs25)|].
    exact fastest_spin_at_274. }
  assert (248 ≤ m)%nat as Hm248.
  { destruct (decide (248 ≤ m)%nat) as [H|H]; [exact H|exfalso].
    subst f. cbv beta in Hfm. apply Qltb_lt in Hfm.
    pose proof (slowest_spin_turns (S m) ltac:(lia)) as H248.
    pose proof (speed_after_mono (S m) 15 s ltac:(discriminate) Hs15) as H1.
    eapply Qlt_not_le; [exact Hfm|].
    eapply Qle_trans; [exact H248 | exact H1]. }
  destruct (ticks_turning m g0)
    as (gm & Hticks & Hsm & Hvm & Ham & Hcm & _ & Hrm).
  { rewrite Hg0. reflexivity. }
  { exact Hg0a. }
  { exact Hs0. }
  { intros j Hj. destruct j as [|j]; [lia|]. apply (Hleast j). lia. }
  destruct (update_wheel_stopping gm Hsm Ham)
    as (g' & Hup & Hs' & Hc' & Hv' & Hr').
  { rewrite Hvm. apply speed_after_nonneg, Hs0. }
  { rewrite Hvm. change (f m = true). exact Hfm. }
  exists (S m), g'. split; [lia|]. split.
  { replace (S m) with (m + 1)%nat by lia. rewrite ticks_app, Hticks. simpl.
    rewrite Hup. reflexivity. }
  split; [exact Hs'|]. split; [apply turn_phase_guess, Hc'|].
  split; [exact Hv'|]. split.
  { eapply same_round_trans; [|exact Hr'].
    eapply same_round_trans; [|exact Hrm].
    rewrite Hg0. repeat split. }
  intros k Hk.
  destruct (ticks_turning k g0) as (gk & Htk & Hsk & _ & _ & Hck & _).
  { rewrite Hg0. reflexivity. }
  { exact Hg0a. }
  { exact Hs0. }
  { intros j Hj. destruct j as [|j]; [lia|]. apply (Hleast j). lia. }
  exists gk. split; [exact Htk|]. split; [exact Hsk|].
  apply turn_phase_spin. rewrite Hck, Hg0. simpl. exact Hspin.
Qed.

Lemma spin_stops_witness :
  ∃ n g',
    (249 ≤ n ≤ 274)%nat ∧
    ticks n (spin_wheel (2 ^ 52) cat_idle) = Some g' ∧
    wheel_spinning g' = false ∧ turn_phase g' = AWAITING_GUESS ∧
    current_value g' ∈ WHEEL_VALUES ∧ same_round cat_idle g' ∧
    ∀ k, (k < n)%nat →
         ∃ gk, ticks k (spin_wheel (2 ^ 52) cat_idle) = Some gk ∧
               wheel_spinning gk = true ∧ turn_phase gk = AWAITING_SPIN.
Proof.
  apply (spin_stops (2 ^ 52) cat_idle).
  - reflexivity.
  - reflexivity.
  - discriminate.
Defined.

(** X24.  The floats of the wheel stay in range: in every state a game can
    reach, the angle and the speed are not negative, the speed is at most
    25 and the angle at most 2^59, where adding a speed no longer changes
    it; no operation on them overflows. *)
Theorem reachable_wheel_finite g :
  reachable g →
  (0 <= wheel_angle g)%Q ∧ (wheel_angle g <= inject_Z (2 ^ 59))%Q ∧
  (0 <= wheel_speed g)%Q ∧ (wheel_speed g <= 25)%Q ∧
  (∀ s, (0 <= s)%Q → (s <= 25)%Q →
        fl (inject_Z (2 ^ 59) + s) = inject_Z (2 ^ 59)).
Proof.
  intros Hr. destruct (reachable_wheel_ok g Hr) as (H1 & H2 & H3 & H4 & _).
  split; [exact H1|]. split; [exact H2|]. split; [exact H3|].
  split; [exact H4|]. intros s Hs0 Hs.
  assert (fl (inject_Z (2 ^ 59)) = inject_Z (2 ^ 59)) as E1
    by (vm_compute; reflexivity).
  assert (fl (inject_Z (2 ^ 59) + 25) = inject_Z (2 ^ 59)) as E2
    by (vm_compute; reflexivity).
  assert (0 <= inject_Z (2 ^ 59))%Q as Hp by discriminate.
  pose proof (fl_mono (inject_Z (2 ^ 59)) (inject_Z (2 ^ 59) + s) Hp
                ltac:(lra)) as Hlo.
  pose proof (fl_mono (inject_Z (2 ^ 59) + s) (inject_Z (2 ^ 59) + 25)
                ltac:(lra) ltac:(lra)) as Hhi.
  rewrite E1 in Hlo. rewrite E2 in Hhi.
  rewrite (fl_eq _ (inject_Z (2 ^ 59))) by (apply Qle_antisym; assumption).
  vm_compute. reflexivity.
Qed.

Lemma reachable_wheel_finite_witness :
  (0 <= wheel_angle before_stop)%Q ∧
  (wheel_angle before_stop <= inject_Z (2 ^ 59))%Q ∧
  (0 <= wheel_speed before_stop)%Q ∧ (wheel_speed before_stop <= 25)%Q ∧
  (∀ s, (0 <= s)%Q → (s <= 25)%Q →
        fl (inject_Z (2 ^ 59) + s) = inject_Z (2 ^ 59)).
Proof.
  apply (reachable_wheel_finite before_stop). exact before_stop_reachable.
Defined.

(** ** Beyond the claims: buying a vowel and the options panel *)

Lemma has_vowels_spec g :
  has_vowels g = true ↔
  ∃ v, v ∈ VOWELS ∧ v ∈ chars (current_puzzle g) ∧ v ∉ guessed_letters g.
Proof.
  unfold has_vowels. rewrite existsb_exists. split.
  - intros (v & Hin & Hv). apply andb_true_iff in Hv as [H1 H2].
    exists v. rewrite <- list_elem_of_In, elem_of_elements in Hin.
    apply str_in_true in H1. apply bool_decide_eq_true in H2. auto.
  - intros (v & Hv & H1 & H2). exists v.
    rewrite <- list_elem_of_In, elem_of_elements. split; [exact Hv|].
    apply andb_true_iff. split; [apply str_in_true, H1|].
    apply bool_decide_eq_true, H2.
Qed.

Lemma available_vowels_spec g :
  filter (λ v, str_in v (current_puzzle g) = true ∧ v ∉ guessed_letters g)
         (elements VOWELS) ≠ [] ↔ has_vowels g = true.
Proof.
  rewrite has_vowels_spec. split.
  - intros H.
    destruct (filter _ (elements VOWELS)) as [|v l] eqn:E; [congruence|].
    assert (v ∈ v :: l) as Hv by left. rewrite <- E in Hv.
    apply list_elem_of_filter in Hv as [[H1 H2] H3].
    exists v. apply elem_of_elements in H3. apply str_in_true in H1. auto.
  - intros (v & Hv & H1 & H2) E.
    assert (v ∈ filter (λ v, str_in v (current_puzzle g) = true
                             ∧ v ∉ guessed_letters g) (elements VOWELS)) as H.
    { apply list_elem_of_filter. split; [split; [apply str_in_true, H1|exact H2]|].
      apply elem_of_elements, Hv. }
    rewrite E in H. inversion H.
Qed.

Lemma buy_vowel_flag g :
  (buy_vowel g).1 = true ↔ VOWEL_COST <= score g ∧ has_vowels g = true.
Proof.
  rewrite <- available_vowels_spec. unfold buy_vowel.
  destruct (score g <? VOWEL_COST) eqn:E.
  - apply Z.ltb_lt in E. simpl. split; [discriminate|]. intros [H _]. lia.
  - apply Z.ltb_ge in E.
    destruct (filter _ (elements VOWELS)) as [|v l]; simpl.
    + split; [discriminate|]. intros [_ H]. congruence.
    + split; [|reflexivity]. intros _. split; [exact E | discriminate].
Qed.

(** X3.  [buy_vowel] accepts exactly when Score covers the vowel cost and
    the phrase holds a vowel that is not yet guessed; accepted or not, it
    changes nothing but the message: the cost is not taken here. *)
Theorem buy_vowel_accepts g :
  ((buy_vowel g).1 = true ↔
   VOWEL_COST <= score g ∧
   ∃ v, v ∈ VOWELS ∧ v ∈ chars (current_puzzle g) ∧ v ∉ guessed_letters g) ∧
  ∃ m, (buy_vowel g).2 = set_message m g ∧ score (buy_vowel g).2 = score g.
Proof.
  rewrite buy_vowel_flag, has_vowels_spec. split; [reflexivity|].
  unfold buy_vowel. repeat case_match; simpl; eauto.
Qed.

Lemma option_line_elem shown line acc y l :
  (y, l) ∈ (option_line shown line acc).1 ↔
  (y, l) ∈ acc.1 ∨ (shown = true ∧ y = acc.2 ∧ l = line).
Proof.
  unfold option_line. destruct shown; simpl.
  - rewrite elem_of_app, list_elem_of_singleton. split.
    + intros [H|[= -> ->]]; auto.
    + intros [H|(_ & -> & ->)]; auto.
  - split; [auto|]. intros [H|(H & _)]; [exact H | discriminate].
Qed.

Lemma draw_options_shown g l :
  (∃ y, (y, l) ∈ draw_options g) ↔
  match l with
  | OPT_SPIN | OPT_SOLVE => negb (can_guess g) && negb (wheel_spinning g) = true
  | OPT_BUY_VOWEL => (VOWEL_COST <=? score g) && has_vowels g = true
  | OPT_CONSONANT => can_guess g = true
  | OPT_NEW_PUZZLE => True
  end.
Proof.
  unfold draw_options. cbv zeta.
  split.
  - intros [y H]. apply elem_of_app in H as [H|H].
    + repeat (apply option_line_elem in H as [H|(Hs & _ & ->)]; [|exact Hs]).
      simpl in H. inversion H.
    + apply list_elem_of_singleton in H. injection H as _ ->. exact I.
  - intros H. destruct l.
    + eexists. apply elem_of_app. left.
      do 3 (apply option_line_elem; left).
      apply option_line_elem. right. eauto.
    + eexists. apply elem_of_app. left.
      do 2 (apply option_line_elem; left).
      apply option_line_elem. right. eauto.
    + eexists. apply elem_of_app. left.
      do 1 (apply option_line_elem; left).
      apply option_line_elem. right. eauto.
    + eexists. apply elem_of_app. left.
      apply option_line_elem. right. eauto.
    + eexists. apply elem_of_app. right. left.
Qed.

(** X4.  The options panel offers an action exactly when the engine takes
    it: the spin line is drawn iff [spin_wheel] would start a spin, the
    vowel line iff [buy_vowel] would accept, the consonant line iff the
    rules accept a consonant; the new-puzzle line is always drawn. *)
Theorem options_match_engine g :
  ((∃ y, (y, OPT_SPIN) ∈ draw_options g) ↔ ∀ u, spin_wheel u g ≠ g) ∧
  ((∃ y, (y, OPT_BUY_VOWEL) ∈ draw_options g) ↔ (buy_vowel g).1 = true) ∧
  ((∃ y, (y, OPT_CONSONANT) ∈ draw_options g) ↔
   ∀ letter p, letter ∉ VOWELS → check_rules letter p g = Accepted g) ∧
  (∃ y, (y, OPT_NEW_PUZZLE) ∈ draw_options g).
Proof.
  rewrite !draw_options_shown. split; [|split; [|split; [|exact I]]].
  - unfold spin_wheel. destruct (can_guess g) eqn:Ec, (wheel_spinning g) eqn:Es;
      simpl; split; try discriminate; try reflexivity.
    + intros H. exfalso. apply (H 0%N). reflexivity.
    + intros H. exfalso. apply (H 0%N). reflexivity.
    + intros H. exfalso. apply (H 0%N). reflexivity.
    + intros _ u Heq. apply (f_equal wheel_spinning) in Heq. simpl in Heq.
      congruence.
  - rewrite buy_vowel_flag, andb_true_iff, Z.leb_le. reflexivity.
  - unfold check_rules. split.
    + intros Hc letter p Hl. rewrite decide_False by exact Hl.
      rewrite Hc. reflexivity.
    + intros H. specialize (H "B"%char false).
      rewrite decide_False in H
        by (apply (bool_decide_unpack _); vm_compute; exact I).
      destruct (can_guess g); [reflexivity|].
      simpl in H. discriminate H.
      apply (bool_decide_unpack _). vm_compute. exact I.
Qed.

(** ** Beyond the claims: invariants of a game *)

Lemma upper_idempotent c : upper (upper c) = upper c.
Proof.
  destruct c as [[] [] [] [] [] [] [] []]; vm_compute; reflexivity.
Qed.

Lemma cell_of_empty c : cell_of ∅ c = if isalpha c then HIDDEN else c.
Proof. unfold cell_of. rewrite bool_decide_eq_true_2 by set_solver.
  rewrite andb_true_r. reflexivity. Qed.

Lemma hide_cell_of phrase : hide phrase = map (cell_of ∅) (chars phrase).
Proof. unfold hide. apply map_ext. intros c. symmetry. apply cell_of_empty. Qed.

Lemma cell_of_add_other letter guessed c :
  c ≠ letter → cell_of ({[letter]} ∪ guessed) c = cell_of guessed c.
Proof.
  intros Hne. unfold cell_of.
  rewrite (bool_decide_ext (c ∉ {[letter]} ∪ guessed) (c ∉ guessed))
    by (rewrite not_elem_of_union, not_elem_of_singleton; tauto).
  reflexivity.
Qed.

Lemma cell_of_add_same letter guessed :
  cell_of ({[letter]} ∪ guessed) letter = letter.
Proof.
  unfold cell_of. rewrite bool_decide_eq_false_2 by set_solver.
  rewrite andb_false_r. reflexivity.
Qed.

Lemma board_shows_ok g : board_shows_guessed g → board_ok g.
Proof. unfold board_shows_guessed, board_ok. intros ->. apply length_map. Qed.

Lemma new_puzzle_Inv2 rnd g g' : new_puzzle rnd g = Some g' → Inv2 g'.
Proof.
  intros H. apply new_puzzle_Some in H as (cat & phs & ph & _ & _ & ->).
  split; [|split].
  - unfold turn_ok. simpl. repeat split; auto. discriminate.
  - unfold board_shows_guessed. simpl. apply hide_cell_of.
  - intros c Hc. simpl in Hc. set_solver.
Qed.

Lemma Inv2_message m g : Inv2 g → Inv2 (set_message m g).
Proof. intros H. exact H. Qed.

Lemma update_wheel_Inv2 g g' : Inv2 g → update_wheel g = Some g' → Inv2 g'.
Proof.
  intros (Ht & Hb & Hg). unfold update_wheel.
  destruct (wheel_spinning g) eqn:Es;
    [|intros [= <-]; split; [exact Ht | split; [exact Hb | exact Hg]]].
  destruct (Qltb _ _).
  - destruct (py_index _ _) as [v|] eqn:E; [|discriminate].
    apply py_index_elem in E as Hin.
    simpl. intros [= <-]. split; [|split; [exact Hb | exact Hg]].
    unfold turn_ok. simpl. repeat split; auto; discriminate.
  - intros [= <-]. split; [|split; [exact Hb | exact Hg]].
    destruct Ht as (H1 & H2 & H3). unfold turn_ok. simpl.
    repeat split; auto.
Qed.

Lemma after_miss_Inv2 letter g :
  Inv2 g → isalpha letter = true → upper letter = letter →
  letter ∉ chars (current_puzzle g) → Inv2 (after_miss letter g).
Proof.
  intros (Ht & Hb & Hg) Ha Hu Hnot. split; [|split].
  - unfold turn_ok. simpl. repeat split; auto. discriminate.
  - unfold board_shows_guessed in *. simpl. rewrite Hb.
    apply map_ext_in. intros c Hc. symmetry. apply cell_of_add_other.
    intros ->. apply Hnot, list_elem_of_In, Hc.
  - intros c Hc. simpl in Hc. apply elem_of_union in Hc as [Hc|Hc]; [|auto].
    apply elem_of_singleton in Hc as ->. auto.
Qed.

Lemma after_hit_fields letter rv g :
  current_puzzle (after_hit letter rv g) = current_puzzle g ∧
  revealed (after_hit letter rv g) = rv ∧
  guessed_letters (after_hit letter rv g) = {[letter]} ∪ guessed_letters g ∧
  wheel_spinning (after_hit letter rv g) = wheel_spinning g ∧
  (letter ∈ VOWELS →
   can_guess (after_hit letter rv g) = can_guess g ∧
   current_value (after_hit letter rv g) = current_value g) ∧
  (letter ∉ VOWELS →
   can_guess (after_hit letter rv g) = false ∧
   current_value (after_hit letter rv g) = 0).
Proof.
  unfold after_hit, award. case_decide as Hv; simpl;
    do 4 (split; [reflexivity|]); split; intros Hv';
    solve [auto | exfalso; auto].
Qed.

Lemma after_hit_Inv2 letter rv g :
  Inv2 g → isalpha letter = true → upper letter = letter →
  (∀ j, rv !! j = if decide (chars (current_puzzle g) !! j = Some letter)
                  then Some letter else revealed g !! j) →
  Inv2 (after_hit letter rv g).
Proof.
  intros (Ht & Hb & Hg) Ha Hu Hget.
  destruct (after_hit_fields letter rv g) as (Hcp & Hrv & Hgl & Hsp & Hvow & Hcon).
  split; [|split].
  - unfold turn_ok. destruct Ht as (H1 & H2 & H3).
    destruct (decide (letter ∈ VOWELS)) as [Hv|Hv].
    + destruct (Hvow Hv) as [-> ->]. rewrite Hsp. auto.
    + destruct (Hcon Hv) as [-> ->]. repeat split; auto. discriminate.
  - unfold board_shows_guessed in *. rewrite Hcp, Hrv, Hgl.
    apply list_eq. intros j. rewrite Hget, list_lookup_fmap.
    rewrite Hb, list_lookup_fmap.
    destruct (chars (current_puzzle g) !! j) as [c|] eqn:Ec; simpl.
    + case_decide as Hc.
      * injection Hc as ->. rewrite cell_of_add_same. reflexivity.
      * rewrite cell_of_add_other by congruence. reflexivity.
    + reflexivity.
  - intros c Hc. rewrite Hgl in Hc. apply elem_of_union in Hc as [Hc|Hc]; [|auto].
    apply elem_of_singleton in Hc as ->. auto.
Qed.

Lemma check_rules_Inv2 letter p g ga :
  check_rules letter p g = Accepted ga → Inv2 g → Inv2 ga.
Proof.
  intros H HI.
  apply check_rules_accepted in H as [(_ & _ & _ & ->)|(_ & _ & ->)]; exact HI.
Qed.

Lemma guess_letter_Inv2 rnd letter p g g' :
  Inv2 g → guess_letter rnd letter p g = Some g' → Inv2 g'.
Proof.
  intros HI Hguess. pose proof HI as (Ht & Hb & Hg).
  destruct (guess_letter_cases rnd letter p g (board_shows_ok g Hb))
    as [[m Hm]|[Hm|(ga & Hrules & Ha & Hcases)]].
  - rewrite Hm in Hguess. injection Hguess as <-. exact HI.
  - rewrite Hm in Hguess. injection Hguess as <-. exact HI.
  - pose proof (check_rules_Inv2 _ _ _ _ Hrules HI) as HIa.
    destruct (check_rules_frame _ _ _ _ Hrules) as (Hcp & Hrv & _).
    destruct Hcases as [(Hin & Hm)|(_ & rv & _ & _ & Hget & Hm)];
      rewrite Hm in Hguess.
    + injection Hguess as <-.
      apply after_miss_Inv2; [exact HIa|exact Ha|apply upper_idempotent|].
      rewrite Hcp. apply str_in_false, Hin.
    + assert (Inv2 (after_hit (upper letter) rv ga)) as HIh.
      { apply after_hit_Inv2; [exact HIa|exact Ha|apply upper_idempotent|].
        rewrite Hcp, Hrv. exact Hget. }
      destruct (solved rv).
      * eapply new_puzzle_Inv2, Hguess.
      * injection Hguess as <-. exact HIh.
Qed.

Lemma step_Inv2 op g g' : Inv2 g → step op g = Some g' → Inv2 g'.
Proof.
  intros HI. destruct op as [rnd|u| | |rnd letter p|]; simpl.
  - apply new_puzzle_Inv2.
  - intros [= <-]. unfold spin_wheel.
    destruct (wheel_spinning g) eqn:Es, (can_guess g) eqn:Ec; simpl;
      try exact HI.
    destruct HI as ((H1 & H2 & H3) & Hb & Hg).
    split; [|split; [exact Hb | exact Hg]].
    unfold turn_ok. simpl. rewrite Ec.
    split; [auto | split; [discriminate | auto]].
  - apply update_wheel_Inv2, HI.
  - intros [= <-]. unfold buy_vowel. repeat case_match; exact HI.
  - apply guess_letter_Inv2, HI.
  - intros [= <-]. exact HI.
Qed.

Lemma run_Inv2 ops : ∀ g g', Inv2 g → run ops g = Some g' → Inv2 g'.
Proof.
  induction ops as [|op ops IH]; intros g g' HI; simpl.
  - intros [= <-]. exact HI.
  - destruct (step op g) as [g1|] eqn:E; [|discriminate]. simpl.
    apply IH. eapply step_Inv2; eauto.
Qed.

Lemma reachable_Inv2 g : reachable g → Inv2 g.
Proof.
  intros (pz & rnd & ops & g0 & Hinit & Hrun).
  eapply run_Inv2; [|exact Hrun]. eapply new_puzzle_Inv2, Hinit.
Qed.

Lemma played_reachable : reachable played.
Proof.
  exists default_puzzles, (1, 2)%nat, sample_run.
  eexists. split; [vm_compute; reflexivity|]. vm_compute. reflexivity.
Qed.

(** X5.  In every state a game can reach, a guess is permitted exactly while
    a wheel value stands: in AWAITING_SPIN the wheel value is 0, in
    AWAITING_GUESS it is an entry of the value table, and the wheel never
    turns while a guess is permitted. *)
Theorem reachable_turn_ok g :
  reachable g →
  (turn_phase g = AWAITING_SPIN → current_value g = 0) ∧
  (turn_phase g = AWAITING_GUESS →
   current_value g ∈ WHEEL_VALUES ∧ 300 <= current_value g <= 900) ∧
  (wheel_spinning g = true → turn_phase g = AWAITING_SPIN).
Proof.
  intros Hr. destruct (reachable_Inv2 g Hr) as ((H1 & H2 & H3) & _).
  rewrite turn_phase_spin, turn_phase_guess.
  split; [exact H1|]. split; [|exact H3].
  intros Hc. specialize (H2 Hc). split; [exact H2|].
  unfold WHEEL_VALUES in H2. rewrite !elem_of_cons, elem_of_nil in H2.
  repeat (destruct H2 as [->|H2]; [lia|]). destruct H2.
Qed.

Lemma reachable_turn_ok_witness :
  (turn_phase played = AWAITING_SPIN → current_value played = 0) ∧
  (turn_phase played = AWAITING_GUESS →
   current_value played ∈ WHEEL_VALUES ∧ 300 <= current_value played <= 900) ∧
  (wheel_spinning played = true → turn_phase played = AWAITING_SPIN).
Proof. apply (reachable_turn_ok played). exact played_reachable. Defined.

(** X6.  In every state a game can reach, the board is the phrase with its
    unguessed letters hidden: a cell shows the hidden marker where the
    phrase has a letter that is not among the guessed letters, and the
    character of the phrase everywhere else; the guessed letters are
    upper-case letters. *)
Theorem reachable_board g :
  reachable g →
  length (revealed g) = length (chars (current_puzzle g)) ∧
  (∀ i c, chars (current_puzzle g) !! i = Some c →
          revealed g !! i =
          Some (if isalpha c && bool_decide (c ∉ guessed_letters g)
                then HIDDEN else c)) ∧
  (∀ c, c ∈ guessed_letters g → isalpha c = true ∧ upper c = c).
Proof.
  intros Hr. destruct (reachable_Inv2 g Hr) as (_ & Hb & Hg).
  split; [apply (board_shows_ok g Hb)|]. split; [|exact Hg].
  intros i c Hc. rewrite Hb, list_lookup_fmap, Hc. reflexivity.
Qed.

Lemma reachable_board_witness :
  length (revealed played) = length (chars (current_puzzle played)) ∧
  (∀ i c, chars (current_puzzle played) !! i = Some c →
          revealed played !! i =
          Some (if isalpha c && bool_decide (c ∉ guessed_letters played)
                then HIDDEN else c)) ∧
  (∀ c, c ∈ guessed_letters played → isalpha c = true ∧ upper c = c).
Proof. apply (reachable_board played). exact played_reachable. Defined.

Lemma wheel_values_50 v : v ∈ WHEEL_VALUES → (50 | v).
Proof.
  unfold WHEEL_VALUES. rewrite !elem_of_cons, elem_of_nil. intros H.
  repeat (destruct H as [->|H];
          [apply Z.mod_divide; [lia | reflexivity]|]).
  destruct H.
Qed.

Lemma turn_ok_value_50 g : turn_ok g → (50 | current_value g).
Proof.
  intros (H1 & H2 & _). destruct (can_guess g).
  - apply wheel_values_50, H2. reflexivity.
  - rewrite H1 by reflexivity. apply Z.divide_0_r.
Qed.

Lemma guess_letter_score_50 rnd letter p g g' :
  Inv2 g → (50 | score g) →
  guess_letter rnd letter p g = Some g' → (50 | score g').
Proof.
  intros HI Hs Hguess. pose proof HI as (Ht & Hb & Hg).
  destruct (guess_letter_cases rnd letter p g (board_shows_ok g Hb))
    as [[m Hm]|[Hm|(ga & Hrules & Ha & Hcases)]].
  - rewrite Hm in Hguess. injection Hguess as <-. exact Hs.
  - rewrite Hm in Hguess. injection Hguess as <-. exact Hs.
  - assert ((50 | score ga) ∧ current_value ga = current_value g) as [Hsa Hva].
    { apply check_rules_accepted in Hrules as [(_ & _ & _ & ->)|(_ & _ & ->)];
        simpl; split; auto.
      apply Z.divide_sub_r; [exact Hs|].
      apply Z.mod_divide; [lia | reflexivity]. }
    destruct Hcases as [(_ & Hm)|(_ & rv & _ & _ & _ & Hm)];
      rewrite Hm in Hguess.
    + injection Hguess as <-. exact Hsa.
    + assert (50 | score (after_hit (upper letter) rv ga)) as Hsh.
      { rewrite after_hit_score. apply Z.divide_add_r; [exact Hsa|].
        case_decide; [apply Z.divide_0_r|].
        apply Z.divide_mul_l. rewrite Hva. apply turn_ok_value_50, Ht. }
      destruct (solved rv).
      * apply new_puzzle_Some in Hguess as (cat & phs & ph & _ & _ & ->).
        change (50 | score (after_hit (upper letter) rv ga) + 1000).
        apply Z.divide_add_r; [exact Hsh|].
        apply Z.mod_divide; [lia | reflexivity].
      * injection Hguess as <-. exact Hsh.
Qed.

Lemma update_wheel_score g g' : update_wheel g = Some g' → score g' = score g.
Proof.
  unfold update_wheel.
  destruct (wheel_spinning g); [|intros [= <-]; reflexivity].
  destruct (Qltb _ _); [|intros [= <-]; reflexivity].
  destruct (py_index _ _); simpl; [intros [= <-]; reflexivity | discriminate].
Qed.

Lemma step_score_50 op g g' :
  Inv2 g → (50 | score g) → step op g = Some g' → (50 | score g').
Proof.
  intros HI Hs. destruct op as [rnd|u| | |rnd letter p|]; simpl.
  - intros H. apply new_puzzle_Some in H as (cat & phs & ph & _ & _ & ->).
    exact Hs.
  - intros [= <-]. unfold spin_wheel. case_match; exact Hs.
  - intros H. rewrite (update_wheel_score g g' H). exact Hs.
  - intros [= <-]. unfold buy_vowel. repeat case_match; exact Hs.
  - apply guess_letter_score_50; assumption.
  - intros [= <-]. exact Hs.
Qed.

Lemma run_score_50 ops : ∀ g g',
  Inv2 g → (50 | score g) → run ops g = Some g' → (50 | score g').
Proof.
  induction ops as [|op ops IH]; intros g g' HI Hs; simpl.
  - intros [= <-]. exact Hs.
  - destruct (step op g) as [g1|] eqn:E; [|discriminate]. simpl.
    apply IH; [eapply step_Inv2; eauto | eapply step_score_50; eauto].
Qed.

(** X7.  In every state a game can reach, Score is a multiple of 50: the
    wheel values, the vowel cost and the solve bonus all are. *)
Theorem reachable_score_50 g : reachable g → (50 | score g).
Proof.
  intros (pz & rnd & ops & g0 & Hinit & Hrun).
  eapply run_score_50; [eapply new_puzzle_Inv2, Hinit| |exact Hrun].
  apply new_puzzle_Some in Hinit as (cat & phs & ph & _ & _ & ->).
  apply Z.divide_0_r.
Qed.

Lemma reachable_score_50_witness : (50 | score played).
Proof. apply (reachable_score_50 played). exact played_reachable. Defined.

Lemma cell_of_hidden guessed c :
  c ≠ HIDDEN →
  cell_of guessed c = HIDDEN ↔ isalpha c = true ∧ c ∉ guessed.
Proof.
  intros Hne. unfold cell_of.
  destruct (isalpha c); simpl; [|split; [congruence | intros [[=] _]]].
  case_bool_decide as H; split; try tauto; try congruence.
Qed.

(** X8.  In a state a game can reach, on a phrase without an underscore, a
    letter completes the puzzle exactly when it occurs in the phrase and
    every other letter of the phrase is already guessed. *)
Theorem reachable_completes g letter :
  reachable g → isalpha letter = true →
  HIDDEN ∉ chars (current_puzzle g) →
  completes_puzzle letter g = true ↔
  letter ∈ chars (current_puzzle g) ∧
  ∀ c, c ∈ chars (current_puzzle g) → isalpha c = true →
       c = letter ∨ c ∈ guessed_letters g.
Proof.
  intros Hr Ha Hnu. destruct (reachable_Inv2 g Hr) as (_ & Hb & _).
  rewrite (completes_puzzle_spec letter g (board_shows_ok g Hb)
             (isalpha_not_hidden letter Ha)).
  split; intros [Hin H]; (split; [exact Hin|]).
  - intros c Hc Hac. apply list_elem_of_lookup in Hc as [j Hj].
    destruct (decide (c ∈ guessed_letters g)) as [Hg|Hg]; [auto|left].
    assert (revealed g !! j = Some HIDDEN) as Hh.
    { rewrite Hb, list_lookup_fmap, Hj. simpl. f_equal.
      apply cell_of_hidden; [|auto]. intros ->. apply Hnu.
      apply list_elem_of_lookup. eauto. }
    apply H in Hh. congruence.
  - intros j Hj. rewrite Hb, list_lookup_fmap in Hj.
    destruct (chars (current_puzzle g) !! j) as [c|] eqn:Ec; [|discriminate].
    simpl in Hj. injection Hj as Hj.
    assert (c ∈ chars (current_puzzle g)) as Hc
      by (apply list_elem_of_lookup; eauto).
    apply cell_of_hidden in Hj as [Hac Hng]; [|intros ->; exact (Hnu Hc)].
    destruct (H c Hc Hac) as [->|Hg]; [reflexivity | contradiction].
Qed.

Lemma reachable_completes_witness :
  completes_puzzle "R" played = true ↔
  "R"%char ∈ chars (current_puzzle played) ∧
  ∀ c, c ∈ chars (current_puzzle played) → isalpha c = true →
       c = "R"%char ∨ c ∈ guessed_letters played.
Proof.
  apply (reachable_completes played "R").
  - exact played_reachable.
  - reflexivity.
  - apply (bool_decide_unpack _). vm_compute. exact I.
Defined.

Lemma underscore_game_reachable : reachable underscore_game.
Proof.
  exists underscore_puzzles, (0, 0)%nat, [], underscore_game.
  split; reflexivity.
Qed.

(** X9.  A phrase that holds an underscore is never found solved: in a
    state a game can reach, no guess on such a phrase starts a new puzzle
    or earns the solve bonus; the phrase stays and the board keeps a cell
    that shows the hidden marker. *)
Theorem underscore_never_solved rnd letter p g g' :
  reachable g → HIDDEN ∈ chars (current_puzzle g) →
  guess_letter rnd letter p g = Some g' →
  completes_puzzle (upper letter) g = false ∧
  puzzles_started g' = puzzles_started g ∧
  current_puzzle g' = current_puzzle g ∧
  HIDDEN ∈ revealed g'.
Proof.
  intros Hr Hu Hguess. destruct (reachable_Inv2 g Hr) as (_ & Hb & _).
  pose proof (board_shows_ok g Hb) as Hok.
  apply list_elem_of_lookup in Hu as [j Hj].
  assert (revealed g !! j = Some HIDDEN) as Hrj
    by (rewrite Hb, list_lookup_fmap, Hj; reflexivity).
  assert (HIDDEN ∈ revealed g) as Hin by (apply list_elem_of_lookup; eauto).
  assert (∀ rv : list ascii,
            (∀ i, rv !! i =
                  if decide (chars (current_puzzle g) !! i = Some (upper letter))
                  then Some (upper letter) else revealed g !! i) →
            HIDDEN ∈ rv) as Hkeep.
  { intros rv Hget. apply list_elem_of_lookup. exists j.
    rewrite Hget, Hj. case_decide as E; [|exact Hrj].
    injection E as E. rewrite <- E. reflexivity. }
  assert (completes_puzzle (upper letter) g = false) as Hnc.
  { unfold completes_puzzle.
    destruct (reveal_spec (current_puzzle g) (upper letter) (revealed g) Hok)
      as (rv & -> & _ & Hget).
    unfold solved.
    rewrite bool_decide_eq_false_2 by (intros H; apply H, (Hkeep rv Hget)).
    apply andb_false_r. }
  split; [exact Hnc|].
  destruct (guess_letter_cases rnd letter p g Hok)
    as [[m Hm]|[Hm|(ga & Hrules & Ha & Hcases)]].
  - rewrite Hm in Hguess. injection Hguess as <-. simpl. auto.
  - rewrite Hm in Hguess. injection Hguess as <-. auto.
  - destruct (check_rules_frame _ _ _ _ Hrules)
      as (Hcp & Hrv & _ & _ & _ & _ & _ & Hps).
    destruct Hcases as [(_ & Hm)|(_ & rv & _ & _ & Hget & Hm)];
      rewrite Hm in Hguess.
    + injection Hguess as <-. simpl. rewrite Hps, Hcp, Hrv. auto.
    + pose proof (Hkeep rv Hget) as Hrvh.
      unfold solved in Hguess.
      rewrite bool_decide_eq_false_2 in Hguess by (intros H; apply H; auto).
      injection Hguess as <-.
      destruct (after_hit_frame (upper letter) rv ga) as (-> & -> & ->).
      rewrite Hps, Hcp. auto.
Qed.

Lemma underscore_never_solved_witness :
  completes_puzzle (upper "b") underscore_game = false ∧
  puzzles_started (set_message "Spin the wheel first!" underscore_game)
    = puzzles_started underscore_game ∧
  current_puzzle (set_message "Spin the wheel first!" underscore_game)
    = current_puzzle underscore_game ∧
  HIDDEN ∈ revealed (set_message "Spin the wheel first!" underscore_game).
Proof.
  apply (underscore_never_solved (0, 0)%nat "b" false underscore_game).
  - exact underscore_game_reachable.
  - apply (bool_decide_unpack _). vm_compute. exact I.
  - vm_compute. reflexivity.
Defined.

(** ** Beyond the claims: the layouts *)

Lemma split_space_length s :
  sum_list (map (λ w, S (length w)) (split_space s)) = S (length s).
Proof.
  induction s as [|c s IH]; simpl; [reflexivity|].
  case_decide; simpl; [rewrite IH; reflexivity|].
  destruct (split_space s) as [|w ws]; simpl in *; [discriminate|]. lia.
Qed.

Lemma add_cells_index (word : list ascii) : ∀ st,
  char_index (fold_left (λ st _, add_cell 1 st) word st)
  = (char_index st + length word)%nat.
Proof.
  induction word as [|c word IH]; intros st; simpl; [lia|].
  rewrite IH. simpl. lia.
Qed.

Lemma place_word_index max_per_row st word :
  (char_index (place_word max_per_row st word)
   ≤ char_index st + S (length word))%nat ∧
  (Qltb 0 (current_count st) = false →
   char_index (place_word max_per_row st word)
   = (char_index st + length word)%nat).
Proof.
  unfold place_word. rewrite add_cells_index.
  destruct (Qltb 0 (current_count st)) eqn:E; simpl.
  - split; [|discriminate]. repeat case_match; simpl; lia.
  - rewrite E. split; [lia|]. reflexivity.
Qed.

Lemma fold_place_index max_per_row words : ∀ st,
  (char_index (fold_left (place_word max_per_row) words st)
   ≤ char_index st + sum_list (map (λ w, S (length w)) words))%nat.
Proof.
  induction words as [|w words IH]; intros st; simpl; [lia|].
  pose proof (IH (place_word max_per_row st w)) as H1.
  destruct (place_word_index max_per_row st w) as [H _]. lia.
Qed.

Lemma fold_place_cells max_per_row words : ∀ st,
  cells st = seq 0 (char_index st) →
  cells (fold_left (place_word max_per_row) words st)
  = seq 0 (char_index (fold_left (place_word max_per_row) words st)).
Proof.
  induction words as [|w words IH]; intros st H; simpl; [exact H|].
  apply IH, place_word_cells, H.
Qed.

(** The cells of the rows are the first positions of the phrase. *)
Lemma layout_rows_within max_per_row phrase :
  ∃ n, (n ≤ length (chars phrase))%nat ∧
       concat (layout_rows max_per_row phrase) = seq 0 n.
Proof.
  unfold layout_rows.
  set (st := fold_left _ _ _).
  exists (char_index st). split.
  - subst st. pose proof (split_space_length (chars phrase)) as Hlen.
    destruct (split_space (chars phrase)) as [|w words]; [discriminate|].
    simpl in Hlen. simpl fold_left.
    pose proof (fold_place_index max_per_row words
                  (place_word max_per_row (mkLayout [] [] 0%Q 0%nat) w)) as H1.
    destruct (place_word_index max_per_row (mkLayout [] [] 0%Q 0%nat) w)
      as [_ H2].
    rewrite H2 in H1 by reflexivity. simpl in H1. lia.
  - assert (cells st = seq 0 (char_index st)) as H
      by (subst st; apply fold_place_cells; reflexivity).
    unfold cells in H. destruct (current_row st) eqn:E.
    + rewrite app_nil_r in H. exact H.
    + rewrite concat_app. simpl. rewrite app_nil_r. exact H.
Qed.

Lemma row_width_from_total phrase row : ∀ width,
  (∀ idx, idx ∈ row → is_Some (phrase !! idx)) →
  is_Some (row_width_from phrase row width).
Proof.
  induction row as [|idx row IH]; intros width H; simpl; [eauto|].
  destruct (H idx) as [c ->]; [left|]. simpl.
  apply IH. intros i Hi. apply H. right. exact Hi.
Qed.

Lemma draw_cells_spec phrase rv y row : ∀ x,
  (∀ idx, idx ∈ row → is_Some (phrase !! idx) ∧ is_Some (rv !! idx)) →
  ∃ boxes, draw_cells phrase rv y x row = Some boxes ∧
           map box_char boxes =
           omap (λ idx, c ← phrase !! idx;
                        if decide (c = SPACE) then None else rv !! idx) row ∧
           Forall (λ b, box_y b = y) boxes.
Proof.
  induction row as [|idx row IH]; intros x H; simpl.
  - exists []. auto.
  - destruct (H idx) as [[c Hc] [r Hr]]; [left|]. rewrite Hc, Hr. simpl.
    assert (∀ i, i ∈ row → is_Some (phrase !! i) ∧ is_Some (rv !! i)) as H'
      by (intros i Hi; apply H; right; exact Hi).
    case_decide.
    + destruct (IH (x + 60 `div` 2) H') as (boxes & -> & Hm & Hy).
      exists boxes. auto.
    + destruct (IH (x + (60 + 6)) H') as (boxes & -> & Hm & Hy).
      simpl. eexists. split; [reflexivity|]. simpl. rewrite Hm.
      split; [reflexivity|]. constructor; auto.
Qed.

Lemma draw_rows_spec phrase rv rws : ∀ y,
  (∀ idx, idx ∈ concat rws → is_Some (phrase !! idx) ∧ is_Some (rv !! idx)) →
  ∃ boxes, draw_rows phrase rv y rws = Some boxes ∧
           length boxes = length rws ∧
           map box_char (concat boxes) =
           omap (λ idx, c ← phrase !! idx;
                        if decide (c = SPACE) then None else rv !! idx)
                (concat rws) ∧
           ∀ k bs, boxes !! k = Some bs →
                   Forall (λ b, box_y b = y + 74 * Z.of_nat k) bs.
Proof.
  induction rws as [|row rws IH]; intros y H; simpl.
  - exists []. repeat split; auto. intros k bs Hk. rewrite lookup_nil in Hk.
    discriminate.
  - simpl in H.
    destruct (row_width_from_total phrase row 0) as [w ->].
    { intros idx Hi. apply H, elem_of_app. left. exact Hi. }
    simpl.
    destruct (draw_cells_spec phrase rv y row (500 + (850 - w) `div` 2))
      as (bs & -> & Hm & Hy).
    { intros idx Hi. apply H, elem_of_app. left. exact Hi. }
    simpl.
    destruct (IH (y + (60 + 6 + 8))) as (rest & -> & Hl & Hmr & Hyr).
    { intros idx Hi. apply H, elem_of_app. right. exact Hi. }
    simpl. eexists. split; [reflexivity|]. simpl.
    split; [lia|]. split.
    + rewrite map_app, omap_app, Hm, Hmr. reflexivity.
    + intros k bs' Hk. destruct k as [|k]; simpl in Hk.
      * injection Hk as <-. eapply Forall_impl; [exact Hy|].
        intros b Hb. simpl in Hb. lia.
      * eapply Forall_impl; [apply (Hyr k bs' Hk)|].
        intros b Hb. simpl in Hb. lia.
Qed.

(** X10.  [draw_puzzle] never reads past the phrase or the board: on a
    board as long as its phrase it draws, row by row at 74 pixels from one
    row to the next, one box for every position among the first [n] of the
    phrase that is not a space, showing the cell of [revealed] at that
    position, for some [n] not above the length of the phrase. *)
Theorem draw_puzzle_in_bounds g :
  board_ok g →
  ∃ n boxes,
    (n ≤ length (chars (current_puzzle g)))%nat ∧
    concat (draw_puzzle_rows g) = seq 0 n ∧
    draw_puzzle_boxes g = Some boxes ∧
    length boxes = length (draw_puzzle_rows g) ∧
    map box_char (concat boxes) =
      omap (λ idx, c ← chars (current_puzzle g) !! idx;
                   if decide (c = SPACE) then None else revealed g !! idx)
           (seq 0 n) ∧
    ∀ k bs, boxes !! k = Some bs →
            Forall (λ b, box_y b = 120 + 74 * Z.of_nat k) bs.
Proof.
  intros Hok. unfold draw_puzzle_boxes, draw_puzzle_rows.
  destruct (layout_rows_within 13 (current_puzzle g)) as (n & Hn & Hcells).
  destruct (draw_rows_spec (chars (current_puzzle g)) (revealed g)
              (layout_rows 13 (current_puzzle g)) 120)
    as (boxes & Hd & Hl & Hm & Hy).
  { intros idx Hi. rewrite Hcells in Hi. apply elem_of_seq in Hi.
    split; apply lookup_lt_is_Some; [|rewrite Hok]; lia. }
  exists n, boxes. rewrite <- Hcells. auto 10.
Qed.

Lemma draw_puzzle_in_bounds_witness :
  ∃ n boxes,
    (n ≤ length (chars (current_puzzle cat_last_letter)))%nat ∧
    concat (draw_puzzle_rows cat_last_letter) = seq 0 n ∧
    draw_puzzle_boxes cat_last_letter = Some boxes ∧
    length boxes = length (draw_puzzle_rows cat_last_letter) ∧
    map box_char (concat boxes) =
      omap (λ idx, c ← chars (current_puzzle cat_last_letter) !! idx;
                   if decide (c = SPACE) then None
                   else revealed cat_last_letter !! idx)
           (seq 0 n) ∧
    ∀ k bs, boxes !! k = Some bs →
            Forall (λ b, box_y b = 120 + 74 * Z.of_nat k) bs.
Proof. apply (draw_puzzle_in_bounds cat_last_letter). reflexivity. Defined.

Lemma shown_at_snoc phrase idxs i c :
  phrase !! i = Some c →
  shown_at phrase (idxs ++ [i]) =
  (shown_at phrase idxs ++ (if decide (c = SPACE) then [] else [c]))%list.
Proof.
  intros H. unfold shown_at. rewrite omap_app, filter_app. f_equal.
  simpl. rewrite H. simpl. rewrite filter_cons, filter_nil.
  repeat case_decide; try reflexivity; contradiction.
Qed.

Lemma old_step_shown max_per_row phrase st c :
  phrase !! char_index st = Some c →
  char_index (old_step max_per_row st c) = S (char_index st) ∧
  shown_at phrase (cells (old_step max_per_row st c)) =
  (shown_at phrase (cells st) ++ (if decide (c = SPACE) then [] else [c]))%list.
Proof.
  intros Hc. unfold old_step, cells.
  case_decide as Hs; case_match; simpl; (split; [reflexivity|]).
  - rewrite concat_app. simpl. rewrite !app_nil_r. reflexivity.
  - rewrite app_assoc, (shown_at_snoc _ _ _ _ Hc), decide_True by exact Hs.
    reflexivity.
  - rewrite concat_app. simpl. rewrite app_nil_r.
    rewrite (shown_at_snoc _ _ _ _ Hc), decide_False by exact Hs.
    reflexivity.
  - rewrite app_assoc, (shown_at_snoc _ _ _ _ Hc), decide_False by exact Hs.
    reflexivity.
Qed.

Lemma old_fold_shown max_per_row phrase rest : ∀ pre st,
  phrase = (pre ++ rest)%list → char_index st = length pre →
  shown_at phrase (cells st) = filter (λ c, c ≠ SPACE) pre →
  shown_at phrase (cells (fold_left (old_step max_per_row) rest st))
  = filter (λ c, c ≠ SPACE) phrase.
Proof.
  induction rest as [|c rest IH]; intros pre st Hp Hi Hs; simpl.
  - rewrite app_nil_r in Hp. subst pre. exact Hs.
  - assert (phrase !! char_index st = Some c) as Hc.
    { rewrite Hp, Hi. rewrite lookup_app_r by lia.
      rewrite Nat.sub_diag. reflexivity. }
    destruct (old_step_shown max_per_row phrase st c Hc) as [Hi' Hs'].
    apply (IH (pre ++ [c])%list).
    + rewrite <- app_assoc. exact Hp.
    + rewrite Hi', Hi, length_app. simpl. lia.
    + rewrite Hs', Hs, filter_app. f_equal.
      rewrite filter_cons, filter_nil.
      repeat case_decide; try reflexivity; contradiction.
Qed.

(** X11.  The earlier layout, [draw_puzzle_old], loses no letter: for every
    phrase and every row width, the characters at the cells of its rows, in
    row order and without the spaces, are the letters of the phrase in
    order. *)
Theorem old_layout_keeps_letters max_per_row phrase :
  letters_shown phrase (old_layout_rows max_per_row phrase)
  = letters_of phrase.
Proof.
  unfold letters_shown, letters_of, old_layout_rows.
  set (st := fold_left _ _ _).
  assert (shown_at (chars phrase) (cells st)
          = filter (λ c, c ≠ SPACE) (chars phrase)) as H.
  { subst st. apply (old_fold_shown max_per_row (chars phrase) (chars phrase) []);
      reflexivity. }
  unfold shown_at, cells in H. rewrite <- H.
  destruct (current_row st) eqn:E.
  - rewrite app_nil_r. reflexivity.
  - rewrite concat_app. simpl. rewrite app_nil_r. reflexivity.
Qed.

Lemma add_cells_fit (word : list ascii) : ∀ st,
  rows (fold_left (λ st _, add_cell 1 st) word st) = rows st ∧
  (current_count (fold_left (λ st _, add_cell 1 st) word st)
   == current_count st + inject_Z (Z.of_nat (length word)))%Q.
Proof.
  induction word as [|c word IH]; intros st; cbn [fold_left length].
  - split; [reflexivity|]. change (inject_Z (Z.of_nat 0)) with 0%Q. lra.
  - destruct (IH (add_cell 1 st)) as [Hr Hc]. split; [exact Hr|].
    rewrite Hc, Nat2Z.inj_succ. unfold Z.succ. rewrite inject_Z_plus.
    change (inject_Z 1) with 1%Q.
    change (current_count (add_cell 1 st)) with (current_count st + 1)%Q.
    lra.
Qed.

Lemma words_width_nonneg words : (0 <= words_width words)%Q.
Proof.
  induction words as [|w words IH]; simpl; [apply Qle_refl|].
  assert (0 <= inject_Z (Z.of_nat (length w)))%Q as H.
  { change 0%Q with (inject_Z 0). rewrite <- Zle_Qle. lia. }
  lra.
Qed.

(** A word that fits the row is appended to it. *)
Lemma place_word_fit max_per_row st word :
  rows st = [] → (0 < current_count st)%Q →
  (current_count st + (inject_Z (Z.of_nat (length word)) + (1 # 2))
   <= max_per_row)%Q →
  let st' := place_word max_per_row st word in
  rows st' = [] ∧
  (current_count st' == current_count st
                        + (inject_Z (Z.of_nat (length word)) + (1 # 2)))%Q ∧
  char_index st' = (char_index st + S (length word))%nat.
Proof.
  intros Hr Hpos Hfit. cbv zeta. unfold place_word.
  assert (Qltb 0 (current_count st) = true) as E0 by (apply Qltb_lt, Hpos).
  rewrite E0.
  assert (Qltb max_per_row
            (current_count st + (inject_Z (Z.of_nat (length word)) + (1 # 2)))
          = false) as -> by (apply Qltb_ge, Hfit).
  rewrite andb_false_r. rewrite E0.
  destruct (add_cells_fit word (add_cell (1 # 2) st)) as [Hr' Hc'].
  rewrite add_cells_index. split; [rewrite Hr'; exact Hr|].
  split; [|simpl; lia].
  rewrite Hc'. simpl. lra.
Qed.

Lemma fold_place_fit max_per_row words : ∀ st,
  rows st = [] → (0 < current_count st)%Q →
  (current_count st + words_width words <= max_per_row)%Q →
  let st' := fold_left (place_word max_per_row) words st in
  rows st' = [] ∧
  char_index st' =
  (char_index st + sum_list (map (λ w, S (length w)) words))%nat.
Proof.
  induction words as [|w words IH]; intros st Hr Hpos Hfit; simpl.
  - split; [exact Hr | lia].
  - simpl in Hfit. pose proof (words_width_nonneg words) as Hw.
    destruct (place_word_fit max_per_row st w Hr Hpos) as (Hr1 & Hc1 & Hi1);
      [lra|].
    assert (0 <= inject_Z (Z.of_nat (length w)))%Q as Hlw.
    { change 0%Q with (inject_Z 0). rewrite <- Zle_Qle. lia. }
    destruct (IH (place_word max_per_row st w) Hr1) as [Hr2 Hi2].
    + rewrite Hc1. lra.
    + rewrite Hc1. lra.
    + split; [exact Hr2|]. rewrite Hi2, Hi1. lia.
Qed.

Lemma omap_lookup_seq {A} (l : list A) : ∀ pre,
  omap (λ i, ((pre ++ l)%list) !! i) (seq (length pre) (length l)) = l.
Proof.
  induction l as [|x l IH]; intros pre; simpl; [reflexivity|].
  rewrite lookup_app_r by lia. rewrite Nat.sub_diag. simpl. f_equal.
  specialize (IH (pre ++ [x])%list). rewrite length_app in IH. simpl in IH.
  rewrite <- app_assoc in IH. simpl in IH.
  replace (S (length pre)) with (length pre + 1)%nat by lia. exact IH.
Qed.

(** X12.  A phrase that does not begin with a space and whose width (a cell
    per letter, half a cell per space between words) is within the row is
    laid out as one row holding every position of the phrase in order: no
    letter is lost and no word is split. *)
Theorem layout_one_row_complete max_per_row phrase c s :
  chars phrase = c :: s → c ≠ SPACE →
  (phrase_width phrase <= max_per_row)%Q →
  layout_rows max_per_row phrase = [seq 0 (length (chars phrase))] ∧
  letters_shown phrase (layout_rows max_per_row phrase) = letters_of phrase ∧
  ¬ splits_a_word phrase (layout_rows max_per_row phrase).
Proof.
  intros Hcs Hc Hfit.
  assert (layout_rows max_per_row phrase = [seq 0 (length (chars phrase))])
    as Hrows.
  { unfold layout_rows, phrase_width in *.
    pose proof (split_space_length (chars phrase)) as Hlen.
    rewrite Hcs in Hfit, Hlen |- *. simpl split_space in *.
    rewrite decide_False in Hfit, Hlen |- * by exact Hc.
    destruct (split_space s) as [|w words]; simpl in Hlen.
    { simpl in Hfit. simpl. destruct s; [reflexivity | discriminate]. }
    simpl fold_left.
    set (st1 := place_word max_per_row (mkLayout [] [] 0%Q 0%nat) (c :: w)).
    assert (rows st1 = [] ∧ char_index st1 = S (length w) ∧
            (current_count st1 == inject_Z (Z.of_nat (S (length w))))%Q)
      as (Hr1 & Hi1 & Hc1).
    { subst st1. unfold place_word.
      change (Qltb 0 (current_count (mkLayout [] [] 0%Q 0%nat))) with false.
      simpl andb. cbv iota.
      change (Qltb 0 (current_count (mkLayout [] [] 0%Q 0%nat))) with false.
      cbv iota.
      destruct (add_cells_fit (c :: w) (mkLayout [] [] 0%Q 0%nat)) as [Hr Hq].
      rewrite add_cells_index. split; [exact Hr|]. split; [reflexivity|].
      rewrite Hq. simpl current_count. simpl length. lra. }
    assert (0 < inject_Z (Z.of_nat (S (length w))))%Q as Hpos.
    { change 0%Q with (inject_Z 0). rewrite <- Zlt_Qlt. lia. }
    destruct (fold_place_fit max_per_row words st1 Hr1) as [Hr2 Hi2].
    { rewrite Hc1. exact Hpos. }
    { rewrite Hc1. simpl length in Hfit. exact Hfit. }
    set (st := fold_left (place_word max_per_row) words st1) in *.
    assert (cells st = seq 0 (char_index st)) as Hcells.
    { subst st. apply fold_place_cells. subst st1.
      apply place_word_cells. reflexivity. }
    unfold cells in Hcells. rewrite Hr2 in Hcells |- *. simpl in Hcells.
    rewrite Hcells, Hi2, Hi1.
    replace (S (length w) + sum_list (map (λ w0, S (length w0)) words))%nat
      with (length (c :: s)) by (simpl; lia).
    reflexivity. }
  split; [exact Hrows|]. rewrite Hrows. split.
  - unfold letters_shown, letters_of. simpl concat. rewrite app_nil_r.
    pose proof (omap_lookup_seq (chars phrase) []) as H. simpl in H.
    rewrite H. reflexivity.
  - intros (i & a & b & Ha & Hb & _ & _ & Hne). apply Hne.
    apply lookup_lt_Some in Ha, Hb. unfold row_of. simpl.
    rewrite !decide_True by (apply elem_of_seq; lia). reflexivity.
Qed.

Lemma layout_one_row_complete_witness :
  layout_rows 13 "STAR WARS" = [seq 0 (length (chars "STAR WARS"))] ∧
  letters_shown "STAR WARS" (layout_rows 13 "STAR WARS")
    = letters_of "STAR WARS" ∧
  ¬ splits_a_word "STAR WARS" (layout_rows 13 "STAR WARS").
Proof.
  apply (layout_one_row_complete 13 "STAR WARS" "S" (chars "TAR WARS")).
  - reflexivity.
  - discriminate.
  - vm_compute. discriminate.
Defined.

(** ** Beyond the claims: the main loop *)

Lemma handle_event_effect rnd u ev st st' :
  handle_event rnd u ev st = Some st' → event_effect rnd ev st st'.
Proof.
  unfold handle_event. destruct ev as [|key unicode|].
  - intros [= <-]. apply effect_none; reflexivity.
  - destruct key.
    + intros [= <-]. apply (effect_free _ _ _ _ (OpSpin u)); simpl; auto;
        intros; discriminate.
    + destruct (new_puzzle rnd (game st)) as [g'|] eqn:E; [|discriminate].
      simpl. intros [= <-].
      apply (effect_free _ _ _ _ (OpNewPuzzle rnd)); simpl; auto;
        intros; discriminate.
    + destruct ((VOWEL_COST <=? score (game st)) && has_vowels (game st)) eqn:E.
      * intros [= <-]. apply andb_true_iff in E as [E _].
        apply Z.leb_le in E. apply effect_buy; auto.
      * intros [= <-]. apply effect_none; reflexivity.
    + destruct (negb (can_guess (game st))).
      * intros [= <-]. apply (effect_free _ _ _ _ OpSolve); simpl; auto;
          intros; discriminate.
      * intros [= <-]. apply effect_none; reflexivity.
    + destruct unicode as [c|]; [|intros [= <-]; apply effect_none; reflexivity].
      destruct (isalpha c); [|intros [= <-]; apply effect_none; reflexivity].
      cbv zeta.
      destruct (can_guess (game st) && bool_decide (upper c ∉ VOWELS)) eqn:E1.
      * destruct (guess_letter rnd (upper c) false (game st)) as [g'|] eqn:E;
          [|discriminate].
        simpl. intros [= <-].
        apply (effect_free _ _ _ _ (OpGuess rnd (upper c) false)); simpl; auto.
        intros r l p [= <- <- <-]. eauto.
      * destruct (waiting_for_vowel st && bool_decide (upper c ∈ VOWELS)) eqn:E2.
        -- destruct (guess_letter rnd (upper c) true (game st)) as [g'|] eqn:E;
             [|discriminate].
           simpl. intros [= <-]. apply andb_true_iff in E2 as [Hw Hv].
           apply bool_decide_eq_true in Hv.
           apply (effect_vowel _ _ _ _ c); auto.
        -- intros [= <-]. apply effect_none; reflexivity.
  - intros [= <-]. apply effect_none; reflexivity.
Qed.

Lemma handle_event_total rnd u ev st :
  Inv (game st) → is_Some (handle_event rnd u ev st).
Proof.
  intros HI. unfold handle_event. destruct ev as [|key unicode|]; [eauto| |eauto].
  destruct key; try (repeat case_match; eauto; fail).
  - destruct (new_puzzle_total rnd (game st)) as [g' Hg]; [apply HI|].
    rewrite Hg. simpl. eauto.
  - destruct unicode as [c|]; [|eauto].
    destruct (isalpha c); [|eauto]. cbv zeta.
    destruct (guess_letter_Inv rnd (upper c) false (game st) HI)
      as (g1 & Hg1 & _).
    destruct (guess_letter_Inv rnd (upper c) true (game st) HI)
      as (g2 & Hg2 & _).
    rewrite Hg1, Hg2. repeat case_match; simpl; eauto.
Qed.

Lemma run_app ops1 : ∀ ops2 g,
  run (ops1 ++ ops2)%list g = g' ← run ops1 g; run ops2 g'.
Proof.
  induction ops1 as [|op ops1 IH]; intros ops2 g; simpl; [reflexivity|].
  destruct (step op g) as [g1|]; simpl; [apply IH | reflexivity].
Qed.

Lemma reachable_step op g g' :
  reachable g → step op g = Some g' → reachable g'.
Proof.
  intros (pz & rnd & ops & g0 & Hinit & Hrun) Hstep.
  exists pz, rnd, (ops ++ [op])%list, g0. split; [exact Hinit|].
  rewrite run_app, Hrun. simpl. rewrite Hstep. reflexivity.
Qed.

(** What a guess does to Score. *)
Lemma guess_letter_score rnd letter p g g' :
  Inv g → guess_letter rnd letter p g = Some g' →
  score g <= score g' ∨
  (p = true ∧ upper letter ∈ VOWELS ∧ VOWEL_COST <= score g ∧
   score g' = score g - VOWEL_COST).
Proof.
  intros (Hpz & Hok & Hs & Hv) Hguess.
  destruct (guess_letter_cases rnd letter p g Hok)
    as [[m Hm]|[Hm|(ga & Hrules & Ha & Hcases)]].
  - rewrite Hm in Hguess. injection Hguess as <-. left. simpl. lia.
  - rewrite Hm in Hguess. injection Hguess as <-. left. lia.
  - pose proof (str_count_nonneg (upper letter) (current_puzzle ga)) as Hcnt.
    assert (∀ rv, score ga <= score (after_hit (upper letter) rv ga)) as Hhit.
    { intros rv. rewrite after_hit_score. case_decide; [lia|].
      apply check_rules_frame in Hrules as (_ & _ & _ & _ & Hva & _).
      rewrite Hva. nia. }
    apply check_rules_accepted in Hrules
      as [(Hvow & -> & Hc & ->)|(_ & _ & ->)].
    + destruct Hcases as [(_ & Hm)|(_ & rv & _ & _ & _ & Hm)];
        rewrite Hm in Hguess.
      * injection Hguess as <-. right. simpl. auto.
      * destruct (solved rv).
        -- apply new_puzzle_Some in Hguess as (cat & phs & ph & _ & _ & ->).
           left.
           change (score g <= score (after_hit (upper letter) rv
                                       (set_score (score g - VOWEL_COST) g))
                              + 1000).
           rewrite after_hit_score, decide_True by exact Hvow.
           simpl. unfold VOWEL_COST. lia.
        -- injection Hguess as <-. right.
           rewrite after_hit_score, decide_True by exact Hvow. simpl.
           repeat split; auto. lia.
    + destruct Hcases as [(_ & Hm)|(_ & rv & _ & _ & _ & Hm)];
        rewrite Hm in Hguess.
      * injection Hguess as <-. left. simpl. lia.
      * specialize (Hhit rv). destruct (solved rv).
        -- apply new_puzzle_Some in Hguess as (cat & phs & ph & _ & _ & ->).
           left.
           change (score g <= score (after_hit (upper letter) rv g) + 1000).
           lia.
        -- injection Hguess as <-. left. exact Hhit.
Qed.

Lemma step_score_mono op g g' :
  Inv g → step op g = Some g' → (∀ r l, op ≠ OpGuess r l true) →
  score g <= score g'.
Proof.
  intros HI Hstep Hfree. destruct op as [rnd|u| | |rnd letter p|];
    simpl in Hstep.
  - apply new_puzzle_Some in Hstep as (cat & phs & ph & _ & _ & ->). simpl. lia.
  - injection Hstep as <-. unfold spin_wheel. case_match; simpl; lia.
  - rewrite (update_wheel_score g g' Hstep). lia.
  - injection Hstep as <-. unfold buy_vowel. repeat case_match; simpl; lia.
  - destruct (guess_letter_score rnd letter p g g' HI Hstep)
      as [H|(-> & _)]; [exact H|].
    exfalso. exact (Hfree rnd letter eq_refl).
  - injection Hstep as <-. simpl. lia.
Qed.

Lemma handle_event_LoopInv rnd u ev st st' :
  LoopInv st → handle_event rnd u ev st = Some st' → LoopInv st'.
Proof.
  intros (HI & Hr & Hw) H. apply handle_event_effect in H.
  destruct H as [Hg Hwt|op Hstep Hwt Hfree _|Hg Hwt Hc|c _ _ _ Hwt Hguess].
  - unfold LoopInv. rewrite Hg, Hwt. auto.
  - split; [eapply step_Inv_Some; eauto|].
    split; [eapply reachable_step; eauto|].
    rewrite Hwt. intros Hw'. specialize (Hw Hw').
    pose proof (step_score_mono op _ _ HI Hstep Hfree). lia.
  - assert (step OpBuyVowel (game st) = Some (game st')) as Hstep
      by (simpl; rewrite Hg; reflexivity).
    split; [eapply step_Inv_Some; eauto|].
    split; [eapply reachable_step; eauto|].
    intros _. rewrite Hg. unfold buy_vowel. repeat case_match; simpl; exact Hc.
  - assert (step (OpGuess rnd (upper c) true) (game st) = Some (game st'))
      as Hstep by exact Hguess.
    split; [eapply step_Inv_Some; eauto|].
    split; [eapply reachable_step; eauto|].
    rewrite Hwt. discriminate.
Qed.

Lemma draw_puzzle_total g : board_ok g → is_Some (draw_puzzle_boxes g).
Proof.
  intros Hok. unfold draw_puzzle_boxes, draw_puzzle_rows.
  destruct (layout_rows_within 13 (current_puzzle g)) as (n & Hn & Hcells).
  destruct (draw_rows_spec (chars (current_puzzle g)) (revealed g)
              (layout_rows 13 (current_puzzle g)) 120)
    as (boxes & Hd & _).
  { intros idx Hi. rewrite Hcells in Hi. apply elem_of_seq in Hi.
    split; apply lookup_lt_is_Some; [|rewrite Hok]; lia. }
  eauto.
Qed.

(** The loop keeps [LoopInv], and with it every property [Q] of its state
    that the events allowed by [P] and the wheel keep. *)
Section MainLoopInvariant.
Variable P : Event → Prop.
Variable Q : MainLoop → Prop.
Hypothesis Q_event : ∀ rnd u ev st st',
  P ev → LoopInv st → Q st → handle_event rnd u ev st = Some st' → Q st'.
Hypothesis Q_wheel : ∀ st g,
  Q st → update_wheel (game st) = Some g →
  Q (mkLoop (running st) (waiting_for_vowel st) g).

Lemma handle_events_inv inputs : ∀ st,
  Forall (λ inp : Input, P inp.1) inputs → LoopInv st → Q st →
  ∃ st', handle_events inputs st = Some st' ∧ LoopInv st' ∧ Q st'.
Proof.
  induction inputs as [|[ev [rnd u]] inputs IH]; intros st HP HL HQ; simpl;
    [eauto|].
  apply Forall_cons in HP as [Hev HP]. simpl in Hev.
  destruct (handle_event_total rnd u ev st) as [st1 H1]; [apply HL|].
  rewrite H1. simpl. apply IH; [exact HP| |].
  - eapply handle_event_LoopInv; eauto.
  - eapply Q_event; eauto.
Qed.

Lemma frame_inv inputs st :
  Forall (λ inp : Input, P inp.1) inputs → LoopInv st → Q st →
  ∃ st', frame inputs st = Some st' ∧ LoopInv st' ∧ Q st'.
Proof.
  intros HP HL HQ. unfold frame.
  destruct (handle_events_inv inputs st HP HL HQ)
    as (st1 & -> & (HI1 & Hr1 & Hw1) & HQ1).
  simpl.
  destruct (step_Inv OpAdvance (game st1) HI1 (reachable_wheel_ok _ Hr1))
    as (g & Hg & HIg & _).
  simpl in Hg. rewrite Hg. simpl.
  destruct (draw_puzzle_total g) as [boxes ->]; [apply HIg|]. simpl.
  eexists. split; [reflexivity|]. split; [|apply Q_wheel; assumption].
  split; [exact HIg|].
  split; [eapply (reachable_step OpAdvance); eauto|]. simpl.
  rewrite (update_wheel_score _ _ Hg). exact Hw1.
Qed.

Lemma run_frames_inv frames : ∀ st,
  Forall (Forall (λ inp : Input, P inp.1)) frames → LoopInv st → Q st →
  ∃ st', run_frames frames st = Some st' ∧ LoopInv st' ∧ Q st'.
Proof.
  induction frames as [|inputs frames IH]; intros st HP HL HQ; simpl;
    [eauto|].
  apply Forall_cons in HP as [Hin HP].
  destruct (running st); [|eauto].
  destruct (frame_inv inputs st Hin HL HQ) as (st1 & -> & HL1 & HQ1). simpl.
  apply IH; assumption.
Qed.

Lemma run_main_inv pz rnd frames :
  puzzles_ok pz →
  Forall (Forall (λ inp : Input, P inp.1)) frames →
  (∀ g, init pz rnd = Some g → Q (mkLoop true false g)) →
  ∃ st, run_main pz rnd frames = Some st ∧ LoopInv st ∧ Q st.
Proof.
  intros Hpz HP HQ. unfold run_main.
  destruct (init_Inv pz rnd Hpz) as (g0 & Hinit & HI & Hs & _).
  rewrite Hinit. simpl. apply run_frames_inv; [exact HP| |auto].
  split; [exact HI|]. split; [|discriminate].
  exists pz, rnd, [], g0. auto.
Qed.
End MainLoopInvariant.

Lemma run_main_LoopInv pz rnd frames :
  puzzles_ok pz → ∃ st, run_main pz rnd frames = Some st ∧ LoopInv st.
Proof.
  intros Hpz.
  destruct (run_main_inv (λ _, True) (λ _, True)
              (λ _ _ _ _ _ _ _ _ _, I) (λ _ _ _ _, I) pz rnd frames Hpz)
    as (st & Hrun & HL & _).
  - apply Forall_forall. intros inputs _. apply Forall_forall. auto.
  - intros; exact I.
  - eauto.
Qed.

(** X13.  The main loop never raises: on a collection with a category and
    no empty category, every sequence of frames of events is handled to its
    end, and the game it ends in is one that a sequence of engine
    operations reaches from [__init__], so every invariant of those states
    holds in the loop. *)
Theorem run_main_safe pz rnd frames :
  puzzles_ok pz →
  ∃ st, run_main pz rnd frames = Some st ∧ reachable (game st) ∧
        board_ok (game st) ∧ 0 <= score (game st).
Proof.
  intros Hpz.
  destruct (run_main_LoopInv pz rnd frames Hpz)
    as (st & Hrun & (_ & Hok & Hs & _) & Hr & _).
  exists st. auto.
Qed.

Lemma run_main_safe_witness :
  ∃ st, run_main default_puzzles (1, 2)%nat sample_frames = Some st ∧
        reachable (game st) ∧ board_ok (game st) ∧ 0 <= score (game st).
Proof.
  apply (run_main_safe default_puzzles (1, 2)%nat sample_frames).
  split; [discriminate | repeat constructor; discriminate].
Defined.

(** X14.  In the main loop the flag [waiting_for_vowel] is only ever set
    with Score at least the vowel cost, and Score stays there while it is
    set: a vowel typed after V is never refused for lack of money. *)
Theorem waiting_for_vowel_funded pz rnd frames :
  puzzles_ok pz →
  ∃ st, run_main pz rnd frames = Some st ∧
        (waiting_for_vowel st = true →
         VOWEL_COST <= score (game st) ∧
         ∀ c, upper c ∈ VOWELS →
              check_rules (upper c) true (game st)
              = Accepted (set_score (score (game st) - VOWEL_COST) (game st))).
Proof.
  intros Hpz.
  destruct (run_main_LoopInv pz rnd frames Hpz) as (st & Hrun & _ & _ & Hfund).
  exists st. split; [exact Hrun|]. intros Hw.
  specialize (Hfund Hw). split; [exact Hfund|].
  intros c Hv. unfold check_rules. rewrite decide_True by exact Hv. simpl.
  assert ((score (game st) <? VOWEL_COST) = false) as ->
    by (apply Z.ltb_ge; lia).
  reflexivity.
Qed.

Lemma waiting_for_vowel_funded_witness :
  run_main default_puzzles (1, 2)%nat funded_frames = Some funded_loop ∧
  waiting_for_vowel funded_loop = true ∧
  score (game funded_loop) = 1100 ∧
  VOWEL_COST <= score (game funded_loop) ∧
  ∀ c, upper c ∈ VOWELS →
       check_rules (upper c) true (game funded_loop)
       = Accepted (set_score (score (game funded_loop) - VOWEL_COST)
                     (game funded_loop)).
Proof.
  destruct (waiting_for_vowel_funded default_puzzles (1, 2)%nat funded_frames)
    as (st & Hrun & Hfunded).
  { split; [discriminate | repeat constructor; discriminate]. }
  assert (run_main default_puzzles (1, 2)%nat funded_frames
          = Some funded_loop) as Hloop by (vm_compute; reflexivity).
  assert (st = funded_loop) as -> by congruence.
  split; [exact Hloop|]. split; [reflexivity|]. split; [reflexivity|].
  apply Hfunded. reflexivity.
Defined.

(** X15.  Only a bought vowel costs money: when an event of the main loop
    lowers Score, the event is a vowel typed while [waiting_for_vowel] was
    set, Score drops by exactly 250 and the flag is cleared. *)
Theorem score_drops_only_for_vowel rnd u ev st st' :
  Inv (game st) → handle_event rnd u ev st = Some st' →
  score (game st') < score (game st) →
  ∃ c, ev = KEYDOWN K_OTHER (Some c) ∧ upper c ∈ VOWELS ∧
       waiting_for_vowel st = true ∧ waiting_for_vowel st' = false ∧
       score (game st') = score (game st) - 250.
Proof.
  intros HI H Hlt. apply handle_event_effect in H.
  destruct H as [Hg Hwt|op Hstep Hwt Hfree _|Hg Hwt Hc|c Hev Hv Hw Hwt Hguess].
  - rewrite Hg in Hlt. lia.
  - pose proof (step_score_mono op _ _ HI Hstep Hfree). lia.
  - rewrite Hg in Hlt. unfold buy_vowel in Hlt.
    repeat case_match; simpl in Hlt; lia.
  - exists c. repeat split; auto.
    destruct (guess_letter_score rnd (upper c) true _ _ HI Hguess)
      as [H|(_ & _ & _ & H)]; [lia | exact H].
Qed.

Lemma score_drops_only_for_vowel_witness :
  ∃ c, KEYDOWN K_OTHER (Some "e"%char) = KEYDOWN K_OTHER (Some c) ∧
       upper c ∈ VOWELS ∧
       waiting_for_vowel (mkLoop true true cat_last_letter) = true ∧
       waiting_for_vowel (mkLoop true false cat_after_E) = false ∧
       score (game (mkLoop true false cat_after_E))
       = score (game (mkLoop true true cat_last_letter)) - 250.
Proof.
  apply (score_drops_only_for_vowel (0, 1)%nat 0%N
           (KEYDOWN K_OTHER (Some "e"%char))
           (mkLoop true true cat_last_letter) (mkLoop true false cat_after_E)).
  - split; [split; [discriminate | repeat constructor; discriminate]|].
    split; [reflexivity|]. unfold cat_last_letter, cat_spun. simpl. lia.
  - vm_compute. reflexivity.
  - unfold cat_last_letter, cat_spun, cat_after_E. simpl. lia.
Defined.

Lemma guess_letter_guessed rnd letter p g g' :
  board_ok g → guess_letter rnd letter p g = Some g' →
  ∀ c, c ∈ guessed_letters g' → c = upper letter ∨ c ∈ guessed_letters g.
Proof.
  intros Hok Hguess c Hc.
  destruct (guess_letter_cases rnd letter p g Hok)
    as [[m Hm]|[Hm|(ga & Hrules & Ha & Hcases)]].
  - rewrite Hm in Hguess. injection Hguess as <-. auto.
  - rewrite Hm in Hguess. injection Hguess as <-. auto.
  - destruct (check_rules_frame _ _ _ _ Hrules) as (_ & _ & _ & Hgl & _).
    destruct Hcases as [(_ & Hm)|(_ & rv & _ & _ & _ & Hm)];
      rewrite Hm in Hguess.
    + injection Hguess as <-. simpl in Hc. rewrite Hgl in Hc.
      apply elem_of_union in Hc as [Hc|Hc]; [|auto].
      apply elem_of_singleton in Hc. auto.
    + destruct (solved rv).
      * apply new_puzzle_Some in Hguess as (cat & phs & ph & _ & _ & ->).
        simpl in Hc. set_solver.
      * injection Hguess as <-.
        destruct (after_hit_fields (upper letter) rv ga) as (_ & _ & Hgh & _).
        rewrite Hgh, Hgl in Hc.
        apply elem_of_union in Hc as [Hc|Hc]; [|auto].
        apply elem_of_singleton in Hc. auto.
Qed.

Lemma update_wheel_guessed g g' :
  update_wheel g = Some g' → guessed_letters g' = guessed_letters g.
Proof.
  unfold update_wheel.
  destruct (wheel_spinning g); [|intros [= <-]; reflexivity].
  destruct (Qltb _ _); [|intros [= <-]; reflexivity].
  destruct (py_index _ _); simpl; [intros [= <-]; reflexivity | discriminate].
Qed.

Lemma handle_event_no_V rnd u ev st st' :
  key_matches ev → LoopInv st → "V"%char ∉ guessed_letters (game st) →
  handle_event rnd u ev st = Some st' →
  "V"%char ∉ guessed_letters (game st').
Proof.
  intros Hkey (HI & _) HV H. pose proof HI as (_ & Hok & _).
  unfold handle_event in H. destruct ev as [|key unicode|].
  - injection H as <-. exact HV.
  - destruct key.
    + injection H as <-. simpl. unfold spin_wheel. case_match; exact HV.
    + destruct (new_puzzle rnd (game st)) as [g'|] eqn:E; [|discriminate].
      simpl in H. injection H as <-. simpl.
      apply new_puzzle_Some in E as (cat & phs & ph & _ & _ & ->). simpl.
      apply not_elem_of_empty.
    + destruct (_ && _); injection H as <-; [|exact HV].
      simpl. unfold buy_vowel. repeat case_match; exact HV.
    + destruct (negb _); injection H as <-; exact HV.
    + destruct unicode as [c|]; [|injection H as <-; exact HV].
      destruct (isalpha c); [|injection H as <-; exact HV].
      cbv zeta in H.
      assert (upper c ≠ "V"%char) as Hne
        by (intros E; specialize (Hkey E); discriminate).
      assert (∀ p g', guess_letter rnd (upper c) p (game st) = Some g' →
                      "V"%char ∉ guessed_letters g') as Hguess.
      { intros p g' Hg Hin.
        destruct (guess_letter_guessed _ _ _ _ _ Hok Hg _ Hin) as [E|E].
        - rewrite upper_idempotent in E. congruence.
        - exact (HV E). }
      destruct (_ && _).
      * destruct (guess_letter rnd (upper c) false (game st)) as [g'|] eqn:E;
          [|discriminate].
        simpl in H. injection H as <-. eapply Hguess, E.
      * destruct (_ && _).
        -- destruct (guess_letter rnd (upper c) true (game st)) as [g'|] eqn:E;
             [|discriminate].
           simpl in H. injection H as <-. eapply Hguess, E.
        -- injection H as <-. exact HV.
  - injection H as <-. exact HV.
Qed.

(** X16.  The letter V cannot be guessed through the main loop: the key that
    types it is taken for the vowel purchase before the letter keys are
    looked at.  When every key that types a V is the key [K_v], V is never
    among the guessed letters, and every V of the phrase stays hidden. *)
Theorem letter_V_never_guessed pz rnd frames st :
  puzzles_ok pz →
  Forall (Forall (λ inp : Input, key_matches inp.1)) frames →
  run_main pz rnd frames = Some st →
  ("V"%char ∉ guessed_letters (game st)) ∧
  ∀ j, chars (current_puzzle (game st)) !! j = Some "V"%char →
       revealed (game st) !! j = Some HIDDEN.
Proof.
  intros Hpz Hkeys Hrun.
  destruct (run_main_inv key_matches
              (λ st, "V"%char ∉ guessed_letters (game st)))
    with (pz := pz) (rnd := rnd) (frames := frames)
    as (st' & Hrun' & (_ & Hr & _) & HV).
  - intros r u ev s s' Hk HL HQ H. eapply handle_event_no_V; eauto.
  - intros s g HQ Hg. simpl. rewrite (update_wheel_guessed _ _ Hg). exact HQ.
  - exact Hpz.
  - exact Hkeys.
  - intros g Hg. simpl.
    apply new_puzzle_Some in Hg as (cat & phs & ph & _ & _ & ->). simpl.
    apply not_elem_of_empty.
  - assert (st' = st) as -> by congruence.
    split; [exact HV|]. intros j Hj.
    destruct (reachable_Inv2 _ Hr) as (_ & Hb & _).
    rewrite Hb, list_lookup_fmap, Hj. simpl. f_equal.
    unfold cell_of. rewrite bool_decide_eq_true_2 by exact HV. reflexivity.
Qed.

Lemma letter_V_never_guessed_witness :
  ("V"%char ∉ guessed_letters (game sample_loop)) ∧
  ∀ j, chars (current_puzzle (game sample_loop)) !! j = Some "V"%char →
       revealed (game sample_loop) !! j = Some HIDDEN.
Proof.
  apply (letter_V_never_guessed default_puzzles (1, 2)%nat sample_frames).
  - split; [discriminate | repeat constructor; discriminate].
  - repeat constructor; simpl; try reflexivity;
      intros H; vm_compute in H; discriminate.
  - vm_compute. reflexivity.
Defined.

(** ** Beyond the claims: the guessed letters *)

#[local] Instance char_le_total : Total char_le.
Proof. intros a b. unfold char_le. lia. Qed.

Lemma next_slot k : 0 <= k →
  (k mod 17 = 16 ∧ (k + 1) mod 17 = 0 ∧ (k + 1) / 17 = k / 17 + 1) ∨
  (k mod 17 < 16 ∧ (k + 1) mod 17 = k mod 17 + 1 ∧ (k + 1) / 17 = k / 17).
Proof. intros H. Z.div_mod_to_equations. lia. Qed.

Lemma place_letters_slots y0 letters : ∀ drawn k,
  0 <= k →
  fold_left place_step letters (drawn, slot y0 k) =
  ((drawn ++ imap (λ i c, (slot y0 (k + Z.of_nat i), c)) letters)%list,
   slot y0 (k + Z.of_nat (length letters))).
Proof.
  induction letters as [|c letters IH]; intros drawn k Hk.
  - simpl. rewrite app_nil_r, Z.add_0_r. reflexivity.
  - cbn [fold_left].
    assert (place_step (drawn, slot y0 k) c
            = ((drawn ++ [(slot y0 k, c)])%list, slot y0 (k + 1))) as ->.
    { unfold place_step, slot.
      destruct (next_slot k Hk) as [(H1 & H2 & H3)|(H1 & H2 & H3)];
        rewrite H2, H3.
      - assert ((1300 <? 550 + 45 * (k mod 17) + 45) = true) as ->
          by (apply Z.ltb_lt; lia).
        f_equal. f_equal; lia.
      - assert ((1300 <? 550 + 45 * (k mod 17) + 45) = false) as ->
          by (apply Z.ltb_ge; lia).
        f_equal. f_equal; lia. }
    rewrite IH by lia. rewrite imap_cons, <- app_assoc. simpl.
    rewrite Z.add_0_r. f_equal.
    + f_equal. f_equal. apply imap_ext. intros i x _. simpl.
      f_equal. f_equal. lia.
    + f_equal. lia.
Qed.

Lemma place_letters_spec y0 letters :
  place_letters 550 y0 letters =
  (imap (λ i c, (slot y0 (Z.of_nat i), c)) letters,
   slot y0 (Z.of_nat (length letters))).
Proof.
  unfold place_letters.
  assert ((550, y0) = slot y0 0) as ->
    by (unfold slot; rewrite Zmod_0_l, Zdiv_0_l; f_equal; lia).
  rewrite place_letters_slots by lia. reflexivity.
Qed.

Lemma imap_glyph_letters y0 (letters : list ascii) :
  map snd (imap (λ i c, (slot y0 (Z.of_nat i), c)) letters) = letters.
Proof.
  change (map snd) with (fmap (M := list) (snd (A := Z * Z) (B := ascii))).
  rewrite fmap_imap. rewrite <- (list_fmap_id letters) at 2.
  rewrite <- imap_const. apply imap_ext. reflexivity.
Qed.

(** X17.  [draw_guessed_letters] draws every guessed letter once: the
    consonants, in alphabetical order, 17 to a line from (550, 460) on,
    45 apart and the lines 50 apart, then the vowels, in alphabetical
    order, at least 85 below every consonant. *)
Theorem guessed_letters_drawn g :
  map snd (draw_guessed_letters g).1.1 ++ map snd (draw_guessed_letters g).2
    ≡ₚ elements (guessed_letters g) ∧
  Sorted char_le (map snd (draw_guessed_letters g).1.1) ∧
  Sorted char_le (map snd (draw_guessed_letters g).2) ∧
  (∀ k x y c, (draw_guessed_letters g).1.1 !! k = Some (x, y, c) →
     x = 550 + 45 * (Z.of_nat k mod 17) ∧
     y = 460 + 50 * (Z.of_nat k / 17) ∧ c ∉ VOWELS) ∧
  (∀ x y c, (x, y, c) ∈ (draw_guessed_letters g).2 →
     c ∈ VOWELS ∧
     ∀ x' y' c', (x', y', c') ∈ (draw_guessed_letters g).1.1 → y' + 85 <= y).
Proof.
  unfold draw_guessed_letters.
  set (cons := sorted (filter (λ l, l ∉ VOWELS) (elements (guessed_letters g)))).
  set (vows := sorted (filter (λ l, l ∈ VOWELS) (elements (guessed_letters g)))).
  rewrite (place_letters_spec 460 cons). cbv beta iota zeta.
  assert (cons ≡ₚ filter (λ l, l ∉ VOWELS) (elements (guessed_letters g)))
    as Hpc by apply merge_sort_Permutation.
  assert (vows ≡ₚ filter (λ l, l ∈ VOWELS) (elements (guessed_letters g)))
    as Hpv by apply merge_sort_Permutation.
  assert (cons ++ vows ≡ₚ elements (guessed_letters g)) as Hperm.
  { rewrite Hpc, Hpv. rewrite Permutation_app_comm.
    apply (filter_app_complement (λ l, l ∈ VOWELS)). }
  assert (∀ k x y c,
            imap (λ i c, (slot 460 (Z.of_nat i), c)) cons !! k
            = Some (x, y, c) →
            x = 550 + 45 * (Z.of_nat k mod 17) ∧
            y = 460 + 50 * (Z.of_nat k / 17) ∧ c ∉ VOWELS) as Hslots.
  { intros k x y c Hk. rewrite list_lookup_imap in Hk.
    destruct (cons !! k) as [c0|] eqn:E; [|discriminate].
    simpl in Hk. unfold slot in Hk. injection Hk as <- <- <-.
    split; [reflexivity|]. split; [reflexivity|].
    assert (c0 ∈ cons) as Hin by (eapply list_elem_of_lookup_2, E).
    rewrite Hpc in Hin. apply list_elem_of_filter in Hin as [H _]. exact H. }
  destruct (slot 460 (Z.of_nat (length cons))) as [xc yc] eqn:Es.
  unfold slot in Es. injection Es as Hxc Hyc.
  destruct vows as [|v vows'] eqn:Ev.
  - simpl. rewrite app_nil_r, imap_glyph_letters.
    rewrite app_nil_r in Hperm.
    split; [exact Hperm|]. split; [apply Sorted_merge_sort, char_le_total|].
    split; [constructor|]. split; [exact Hslots|].
    intros x y c H. inversion H.
  - rewrite <- Ev in Hpv, Hperm |- *. clear Ev v vows'.
    cbn [fst snd].
    set (yv := (if 550 <? xc then yc + 50 else yc) + 35).
    rewrite (place_letters_spec yv vows). cbn [fst snd].
    rewrite !imap_glyph_letters.
    split; [exact Hperm|]. split; [apply Sorted_merge_sort, char_le_total|].
    split; [apply Sorted_merge_sort, char_le_total|]. split; [exact Hslots|].
    intros x y c Hin. apply list_elem_of_lookup in Hin as [j Hj].
    rewrite list_lookup_imap in Hj.
    destruct (vows !! j) as [c0|] eqn:E; [|discriminate].
    simpl in Hj. unfold slot in Hj. injection Hj as <- <- <-.
    split.
    { assert (c0 ∈ vows) as Hc by (eapply list_elem_of_lookup_2, E).
      rewrite Hpv in Hc. apply list_elem_of_filter in Hc as [H _]. exact H. }
    intros x' y' c' Hin'. apply list_elem_of_lookup in Hin' as [k Hk].
    pose proof (lookup_lt_Some _ _ _ Hk) as Hlt. rewrite length_imap in Hlt.
    destruct (Hslots k x' y' c' Hk) as (_ & -> & _).
    assert (0 <= Z.of_nat j / 17) as Hq by (apply Z.div_pos; lia).
    subst yv xc yc.
    assert (Z.of_nat k < Z.of_nat (length cons)) as Hkn by lia.
    assert (0 <= Z.of_nat k) as Hk0 by lia.
    revert Hq Hkn Hk0.
    generalize (Z.of_nat j / 17) (Z.of_nat k) (Z.of_nat (length cons)).
    intros q kk n Hq Hkn Hk0.
    destruct (550 <? 550 + 45 * (n mod 17)) eqn:Ex.
    + apply Z.ltb_lt in Ex. Z.div_mod_to_equations. lia.
    + apply Z.ltb_ge in Ex. Z.div_mod_to_equations. lia.
Qed.

(** ** Beyond the claims: choosing a puzzle, taking a guess *)

Lemma chars_upper_str s : chars (upper_str s) = map upper (chars s).
Proof. unfold upper_str, chars. apply list_ascii_of_string_of_list_ascii. Qed.

(** X18.  [new_puzzle] raises exactly when the collection has no category
    or the category drawn has no phrase.  When it returns, the category is
    a key of the collection, the phrase is the upper-case form of one of
    its phrases and holds no lower-case letter, and Score and the
    collection are as before. *)
Theorem new_puzzle_choice rnd g :
  (new_puzzle rnd g = None ↔
   puzzles g = [] ∨
   ∃ category, random_choice rnd.1 (map fst (puzzles g)) = Some category ∧
               dict_get category (puzzles g) = Some []) ∧
  (∀ g', new_puzzle rnd g = Some g' →
     ∃ phrases phrase,
       (current_category g', phrases) ∈ puzzles g ∧ phrase ∈ phrases ∧
       current_puzzle g' = upper_str phrase ∧
       (∀ c, c ∈ chars (current_puzzle g') → upper c = c) ∧
       score g' = score g ∧ puzzles g' = puzzles g).
Proof.
  split.
  - unfold new_puzzle. split.
    + intros H. destruct (puzzles g) as [|e pz] eqn:Epz; [left; reflexivity|].
      right. rewrite <- Epz in H |- *.
      destruct (random_choice rnd.1 (map fst (puzzles g))) as [cat|] eqn:E1.
      * simpl in H. exists cat. split; [reflexivity|].
        destruct (dict_get_total cat (puzzles g)) as [phs E2];
          [eapply random_choice_elem, E1|].
        rewrite E2 in H |- *. simpl in H.
        destruct phs as [|ph phs]; [reflexivity|].
        destruct (random_choice_total rnd.2 (ph :: phs)) as [x E3];
          [discriminate|].
        rewrite E3 in H. discriminate.
      * destruct (random_choice_total rnd.1 (map fst (puzzles g))) as [x E];
          [rewrite Epz; discriminate|congruence].
    + intros [->|(cat & -> & E2)]; [reflexivity|]. simpl. rewrite E2.
      reflexivity.
  - intros g' H. apply new_puzzle_Some in H as (cat & phs & ph & Hc & Hp & ->).
    exists phs, ph. simpl. repeat split; auto.
    intros c Hc'. rewrite chars_upper_str in Hc'.
    apply list_elem_of_fmap in Hc' as (c0 & -> & _). apply upper_idempotent.
Qed.

Lemma dict_get_nodup d : ∀ i key v,
  NoDup (map fst d) → d !! i = Some (key, v) → dict_get key d = Some v.
Proof.
  induction d as [|[k w] d IH]; intros i key v Hnd Hi; [discriminate|].
  simpl in Hnd. apply NoDup_cons in Hnd as [Hk Hnd]. simpl.
  destruct i as [|i]; simpl in Hi.
  - injection Hi as -> ->. rewrite String.eqb_refl. reflexivity.
  - destruct (String.eqb k key) eqn:E.
    + apply String.eqb_eq in E as ->. exfalso. apply Hk.
      apply list_elem_of_fmap. exists (key, v). split; [reflexivity|].
      eapply list_elem_of_lookup_2, Hi.
    + eapply IH; eauto.
Qed.

Lemma random_choice_index {A} (l : list A) i x :
  l !! i = Some x → random_choice i l = Some x.
Proof.
  intros H. pose proof (lookup_lt_Some _ _ _ H) as Hlt.
  unfold random_choice. destruct l as [|a l]; [discriminate|].
  rewrite Nat.mod_small by exact Hlt. exact H.
Qed.

(** X19.  Every phrase of the collection can come up: when no two
    categories share a name, for every phrase of every category there are
    draws with which [new_puzzle] starts that phrase in that category. *)
Theorem every_phrase_can_come_up g category phrases phrase :
  NoDup (map fst (puzzles g)) →
  (category, phrases) ∈ puzzles g → phrase ∈ phrases →
  ∃ rnd g', new_puzzle rnd g = Some g' ∧
            current_category g' = category ∧
            current_puzzle g' = upper_str phrase.
Proof.
  intros Hnd Hc Hp.
  apply list_elem_of_lookup in Hc as [i Hi].
  apply list_elem_of_lookup in Hp as [j Hj].
  exists (i, j). unfold new_puzzle. simpl.
  rewrite (random_choice_index (map fst (puzzles g)) i category)
    by (rewrite list_lookup_fmap, Hi; reflexivity).
  simpl. rewrite (dict_get_nodup _ i category phrases Hnd Hi). simpl.
  rewrite (random_choice_index phrases j phrase Hj). simpl.
  eexists. split; [reflexivity|]. auto.
Qed.

Lemma every_phrase_can_come_up_witness :
  ∃ rnd g', new_puzzle rnd cat_idle = Some g' ∧
            current_category g' = "Animals" ∧
            current_puzzle g' = upper_str "DOG".
Proof.
  apply (every_phrase_can_come_up cat_idle "Animals" ["CAT"; "DOG"] "DOG").
  - repeat constructor. intros H. inversion H.
  - left.
  - right. left.
Defined.

(** X20.  A guess does not depend on the case of the letter typed: the
    lower-case and the upper-case letter give the same result. *)
Theorem guess_letter_any_case rnd letter p g :
  guess_letter rnd letter p g = guess_letter rnd (upper letter) p g.
Proof. unfold guess_letter. rewrite upper_idempotent. reflexivity. Qed.

(** X21.  In a state a game can reach, a character below 128 that is not a
    letter is ignored: the state is returned as it is, message included. *)
Theorem nonletter_guess_ignored rnd letter p g :
  reachable g → isascii letter = true → isalpha (upper letter) = false →
  guess_letter rnd letter p g = Some g.
Proof.
  intros Hr _ Ha. destruct (reachable_Inv2 g Hr) as (_ & _ & Hg).
  unfold guess_letter. rewrite decide_False, Ha; [reflexivity|].
  intros Hin. apply Hg in Hin as [Hin _]. congruence.
Qed.

Lemma nonletter_guess_ignored_witness :
  guess_letter (0, 0)%nat "7" true played = Some played.
Proof.
  apply (nonletter_guess_ignored (0, 0)%nat "7" true played).
  - exact played_reachable.
  - reflexivity.
  - reflexivity.
Defined.

(** X22.  A guess that is not taken leaves everything but the message as it
    is: unless the character, one below 128, is an unguessed letter that is
    either a consonant guessed while a guess is permitted or a vowel
    guessed under purchase context with Score at least the vowel cost,
    [guess_letter] returns the state itself or the state with another
    message. *)
Theorem rejected_guess_frame rnd letter p g :
  isascii letter = true → ¬ guess_accepted letter p g →
  ∃ g', guess_letter rnd letter p g = Some g' ∧
        (g' = g ∨ ∃ m, g' = set_message m g) ∧
        score g' = score g ∧ revealed g' = revealed g ∧
        guessed_letters g' = guessed_letters g ∧
        current_value g' = current_value g ∧ turn_phase g' = turn_phase g.
Proof.
  intros _ Hrej. unfold guess_letter.
  case_decide as Hg; [eexists; split; [reflexivity|]; simpl; eauto 10|].
  destruct (isalpha (upper letter)) eqn:Ha; simpl;
    [|eexists; split; [reflexivity|]; auto 10].
  destruct (check_rules (upper letter) p g) as [gr|ga] eqn:Hrules.
  - apply check_rules_rejected in Hrules as [m ->].
    eexists. split; [reflexivity|]. simpl. eauto 10.
  - exfalso. apply Hrej. split; [exact Hg|]. split; [exact Ha|].
    apply check_rules_accepted in Hrules
      as [(Hv & -> & Hc & _)|(Hv & Hc & _)].
    + split; [auto|]. intros H. contradiction.
    + split; [intros H; contradiction | auto].
Qed.

Lemma rejected_guess_frame_witness :
  ∃ g', guess_letter (0, 0)%nat "t" false cat_idle = Some g' ∧
        (g' = cat_idle ∨ ∃ m, g' = set_message m cat_idle) ∧
        score g' = score cat_idle ∧ revealed g' = revealed cat_idle ∧
        guessed_letters g' = guessed_letters cat_idle ∧
        current_value g' = current_value cat_idle ∧
        turn_phase g' = turn_phase cat_idle.
Proof.
  apply (rejected_guess_frame (0, 0)%nat "t" false cat_idle);
    [reflexivity|].
  intros (_ & _ & _ & H). specialize (H ltac:(apply (bool_decide_unpack _);
                                              vm_compute; exact I)).
  discriminate H.
Defined.

Lemma draw_cells_order phrase rv y row : ∀ x boxes,
  draw_cells phrase rv y x row = Some boxes →
  Forall (λ b, x <= box_x b) boxes ∧
  StronglySorted (λ a b, box_x a + 60 + 6 <= box_x b) boxes.
Proof.
  induction row as [|idx row IH]; intros x boxes; simpl.
  - intros [= <-]. split; constructor.
  - destruct (phrase !! idx) as [c|]; [|discriminate]. simpl.
    destruct (rv !! idx) as [r|]; [|discriminate]. simpl.
    case_decide as Hsp.
    + intros Hd. apply IH in Hd as [H1 H2]. split; [|exact H2].
      eapply Forall_impl; [exact H1|]. intros b Hb. simpl in Hb.
      change (60 `div` 2) with 30 in Hb. lia.
    + destruct (draw_cells phrase rv y (x + (60 + 6)) row) as [bs|] eqn:E;
        [|discriminate].
      simpl. intros [= <-]. apply IH in E as [H1 H2]. split.
      * constructor; [simpl; lia|].
        eapply Forall_impl; [exact H1|]. intros b Hb. simpl in Hb. lia.
      * constructor; [exact H2|].
        eapply Forall_impl; [exact H1|]. intros b Hb. simpl in Hb |- *. lia.
Qed.

Lemma draw_rows_order phrase rv rws : ∀ y boxes,
  draw_rows phrase rv y rws = Some boxes →
  Forall (StronglySorted (λ a b, box_x a + 60 + 6 <= box_x b)) boxes.
Proof.
  induction rws as [|row rws IH]; intros y boxes; simpl.
  - intros [= <-]. constructor.
  - destruct (row_width_from phrase row 0) as [w|]; [|discriminate]. simpl.
    destruct (draw_cells phrase rv y _ row) as [bs|] eqn:E; [|discriminate].
    simpl.
    destruct (draw_rows phrase rv _ rws) as [rest|] eqn:E2; [|discriminate].
    simpl. intros [= <-]. constructor; [|eapply IH, E2].
    eapply draw_cells_order, E.
Qed.

(** X23.  The boxes [draw_puzzle] draws in a row do not overlap and keep
    the order of their cells: every box starts at least 66 pixels, a box
    and its gap, to the right of the box before it. *)
Theorem boxes_do_not_overlap g boxes :
  draw_puzzle_boxes g = Some boxes →
  Forall (StronglySorted (λ a b, box_x a + 60 + 6 <= box_x b)) boxes.
Proof. apply draw_rows_order. Qed.

Lemma boxes_do_not_overlap_witness :
  Forall (StronglySorted (λ a b, box_x a + 60 + 6 <= box_x b))
    [ [ mkBox 826 120 "C"; mkBox 892 120 "A"; mkBox 958 120 "_" ] ].
Proof.
  apply (boxes_do_not_overlap cat_last_letter). vm_compute. reflexivity.
Defined.

Example init_default :
  init default_puzzles (1%nat, 2%nat) =
  Some (mkGame default_puzzles "STAR WARS" "Movies"
          (chars "____ ____") ∅ 0%Q false 0%Q 0 0 false "" 0 1%nat).
Proof. vm_compute. reflexivity. Qed.

Example str_of_int_ex :
  str_of_int 1500 = "1500" ∧ str_of_int (-5) = "-5" ∧ str_of_int 0 = "0".
Proof. vm_compute. auto. Qed.

Example cat_scenario_C :
  guess_letter (0,0)%nat "c" false (cat_spun 500 0 "___" "") =
  Some (mkGame cat_puzzles "CAT" "Animals" (chars "C__") (list_to_set (chars "C"))
          0%Q false 0%Q 0 500 false "Yes! +$500" 0 1%nat).
Proof. vm_compute. reflexivity. Qed.

Example cat_scenario_T :
  guess_letter (0,1)%nat "T" false (cat_spun 600 250 "CA_" "CA") =
  Some (mkGame cat_puzzles "DOG" "Animals" (chars "___") ∅
          0%Q false 0%Q 0 1850 false "" 3000 2%nat).
Proof. vm_compute. reflexivity. Qed.

Example wheel_stop :
  update_wheel wheel_about_to_stop =
  Some (mkGame cat_puzzles "CAT" "Animals" (chars "___") ∅
          (fl ((725 # 1) + STOP_SPEED)) false (fl (STOP_SPEED * DECELERATION))
          500 0 true "Landed on $500!" 0 1%nat).
Proof. vm_compute. reflexivity. Qed.

Example float_literals :
  DECELERATION = fl (98 # 100) ∧ STOP_SPEED = fl (1 # 10) ∧
  DECELERATION = (2206763817411543 # 2251799813685248)%Q ∧
  STOP_SPEED = (3602879701896397 # 36028797018963968)%Q.
Proof. vm_compute. auto. Qed.

Example fl_ties :
  fl (inject_Z (2 ^ 53 + 1)) = inject_Z (2 ^ 53) ∧
  fl (inject_Z (2 ^ 53 + 3)) = inject_Z (2 ^ 53 + 4) ∧
  fl (1 # 3) = (6004799503160661 # 18014398509481984)%Q ∧
  fl ((725 # 1) + STOP_SPEED) = (6378047050403021 # 8796093022208)%Q.
Proof. vm_compute. auto. Qed.

Example wheel_stop_750 :
  wheel_angle before_stop = (6596184048425395 # 8796093022208)%Q ∧
  wheel_speed before_stop = (7255803745116123 # 72057594037927936)%Q ∧
  (wheel_angle <$> update_wheel before_stop) = Some 750%Q ∧
  (current_value <$> update_wheel before_stop) = Some 550 ∧
  (message <$> update_wheel before_stop) = Some "Landed on $550!".
Proof. vm_compute. auto. Qed.

Example negative_angle_raises :
  landing_segment (fl (- (1 # 10 ^ 20))) = 12 ∧
  py_index WHEEL_VALUES 12 = None.
Proof. vm_compute. auto. Qed.

Example segment_below_30 :
  landing_segment (30 - (1 # 2 ^ 44)) = 0 ∧
  landing_segment (30 - (1 # 2 ^ 48)) = 1 ∧
  landing_segment 30 = 1.
Proof. vm_compute. auto. Qed.

Example layout_one_row :
  layout_rows 13 "STAR WARS" = [[0; 1; 2; 3; 4; 5; 6; 7; 8]%nat].
Proof. vm_compute. reflexivity. Qed.

Example layout_empty : layout_rows 13 "" = [].
Proof. vm_compute. reflexivity. Qed.

Example layout_penny :
  layout_rows 13 "A PENNY SAVED IS A PENNY EARNED" =
  [ seq 0 13; seq 13 10; seq 23 6 ].
Proof. vm_compute. reflexivity. Qed.

Example shown_penny :
  letters_shown "A PENNY SAVED IS A PENNY EARNED"
    (layout_rows 13 "A PENNY SAVED IS A PENNY EARNED") =
  chars "APENNYSAVEDISAPENNYEARN".
Proof. vm_compute. reflexivity. Qed.
